(** * Workload balancing and assignment engine

    A shallow embedding of the capacity evaluator ([lib/team-utils.ts]:
    [isMemberOverCapacity], [getMembersWithCapacity], [findBestMemberForTask],
    [validateTaskAssignment]), of the auto-assignment step of the task
    creation handler ([app/api/tasks/route.ts]) and of the rebalancing sweep
    ([app/api/tasks/reassign/route.ts]).

    Conventions.
    - JavaScript numbers that hold counts and capacities are integers, [Z].
    - Prisma tables are lists of rows in their enumeration order; a query
      without [orderBy] returns rows in that order.
    - The objects returned by a query are mutable: the sweep pushes onto
      [member.tasks] of objects that are shared between [team.members] and
      the arrays filtered from it.  The array [team.members] is the store of
      those objects and a reference to a member is its position in it.
    - A write that the store refuses throws.  The sweep writes its audit
      entries with the id that [auth()] returns, and the constraint
      [ActivityLog_userId_fkey] of the migration wants the id of a row of
      [User]: the insert is refused when no such row exists, and the sweep
      then ends in its [catch] branch (status 500) with the writes made so
      far in place.  The rows that the other writes of the sweep name are
      rows of its own query.  Failures of the store for other reasons, and
      the [catch] branches of the other handlers, are outside the model. *)

From Stdlib Require Import ZArith Lia.
From stdpp Require Import base decidable option list strings pretty sorting.

Local Open Scope Z_scope.

(** ** JavaScript array operations *)

Module Js.

Section Arrays.
Context {A : Type}.

(** [Array.prototype.sort(cmp)] is stable; the comparator returns a
    number whose sign orders its arguments.  Stable insertion: an element
    goes in front of the first element it does not exceed. *)
Fixpoint insertBy (cmp : A → A → Z) (x : A) (l : list A) : list A :=
  match l with
  | [] => [x]
  | y :: l' => if cmp x y <=? 0 then x :: l else y :: insertBy cmp x l'
  end.

Definition sort (cmp : A → A → Z) (l : list A) : list A :=
  foldr (insertBy cmp) [] l.

(** [arr.slice(0, end)]: a negative [end] counts from the end of the
    array, an [end] past the end is clamped. *)
Definition slice0 (end_ : Z) (l : list A) : list A :=
  if end_ <? 0
  then take (Z.to_nat (Z.max 0 (Z.of_nat (length l) + end_))) l
  else take (Z.to_nat end_) l.

(** [arr.find(p)]: the first element satisfying [p], or [undefined]. *)
Definition find (p : A → bool) (l : list A) : option A := List.find p l.

(** [arr.length] *)
Definition length (l : list A) : Z := Z.of_nat (List.length l).
End Arrays.

(** Truthiness of an optional string ([undefined], [null] and the empty
    string are falsy). *)
Definition truthy (o : option string) : bool :=
  match o with
  | Some s => negb (String.eqb s "")
  | None => false
  end.

End Js.

(** ** Data model (Prisma schema) *)

Inductive TaskPriority := LOW | MEDIUM | HIGH.
Inductive TaskStatus := PENDING | IN_PROGRESS | DONE.

#[global] Instance TaskPriority_eq_dec : EqDecision TaskPriority.
Proof. solve_decision. Defined.
#[global] Instance TaskStatus_eq_dec : EqDecision TaskStatus.
Proof. solve_decision. Defined.

Record Task := mkTask {
  task_id : string;
  title : string;
  priority : TaskPriority;
  status : TaskStatus;
  assignedToId : option string
}.

Record TeamMember := mkTeamMember {
  member_id : string;
  member_name : string;
  capacity : Z;
  teamId : string
}.

Record Team := mkTeam {
  team_id : string;
  team_name : string
}.

Record User := mkUser {
  user_id : string;
  clerkId : string
}.

Record ActivityLog := mkActivityLog {
  log_taskId : string;
  log_action : string;
  log_description : string;
  log_userId : string
}.

(** The tables the engine reads and writes. *)
Record Store := mkStore {
  user : list User;
  team : list Team;
  teamMember : list TeamMember;
  task : list Task;
  activityLog : list ActivityLog
}.

#[global] Instance Task_eq_dec : EqDecision Task.
Proof. solve_decision. Defined.
#[global] Instance TeamMember_eq_dec : EqDecision TeamMember.
Proof. solve_decision. Defined.

(** ** Capacity evaluator ([lib/team-utils.ts]) *)

Module Evaluator.

(** The relation [member.tasks] restricted by [where: status not DONE]. *)
Definition openTasksOf (s : Store) (memberId : string) : list Task :=
  filter (λ t, assignedToId t = Some memberId ∧ status t ≠ DONE) (task s).

(** [_count.tasks] under that restriction; also [getMemberActiveTaskCount]. *)
Definition getMemberActiveTaskCount (s : Store) (memberId : string) : Z :=
  Js.length (openTasksOf s memberId).

(** [prisma.teamMember.findUnique({ where: { id } })] *)
Definition findUniqueMember (s : Store) (memberId : string) : option TeamMember :=
  Js.find (λ m, String.eqb (member_id m) memberId) (teamMember s).

Record OverCapacity := mkOverCapacity {
  overCapacity : bool;
  oc_currentLoad : Z;
  oc_capacity : Z;
  oc_member : option TeamMember
}.

Definition isMemberOverCapacity (s : Store) (memberId : string) : OverCapacity :=
  match findUniqueMember s memberId with
  | None => mkOverCapacity false 0 0 None
  | Some member =>
      let currentLoad := getMemberActiveTaskCount s (member_id member) in
      mkOverCapacity (currentLoad >=? capacity member) currentLoad
                     (capacity member) (Some member)
  end.

(** The three object shapes [validateTaskAssignment] returns. *)
Inductive Validation :=
| Rejected (error : string)
| Warned (message : string) (currentLoad capacity : Z)
| Allowed (member : TeamMember) (currentLoad capacity : Z).

Definition valid (v : Validation) : bool :=
  match v with Allowed _ _ _ => true | _ => false end.

(** [validation.warning], [undefined] being falsy. *)
Definition warning (v : Validation) : bool :=
  match v with Warned _ _ _ => true | _ => false end.

Definition warningMessage (name : string) (currentLoad capacity : Z) : string :=
  name +:+ " has " +:+ pretty currentLoad +:+ " tasks but capacity is "
       +:+ pretty capacity +:+ ". Assign anyway?".

Definition validateTaskAssignment (s : Store) (memberId : string) (force : bool)
  : Validation :=
  let r := isMemberOverCapacity s memberId in
  match oc_member r with
  | None => Rejected "Member not found"
  | Some member =>
      if overCapacity r && negb force
      then Warned (warningMessage (member_name member) (oc_currentLoad r) (oc_capacity r))
                  (oc_currentLoad r) (oc_capacity r)
      else Allowed member (oc_currentLoad r) (oc_capacity r)
  end.

(** A member row together with its [_count.tasks]. *)
Record MemberWithCount := mkMemberWithCount {
  mc_member : TeamMember;
  mc_count : Z
}.

(** [prisma.teamMember.findMany({ where: { teamId }, include: _count })] *)
Definition findManyMembers (s : Store) (tid : string) : list MemberWithCount :=
  (λ m, mkMemberWithCount m (getMemberActiveTaskCount s (member_id m)))
    <$> filter (λ m, teamId m = tid) (teamMember s).

Definition getMembersWithCapacity (s : Store) (tid : string) : list MemberWithCount :=
  Js.sort (λ a b, mc_count a - mc_count b)
    (filter (λ m, mc_count m < capacity (mc_member m)) (findManyMembers s tid)).

Definition findBestMemberForTask (s : Store) (tid : string) : option MemberWithCount :=
  let membersWithCapacity := getMembersWithCapacity s tid in
  if Js.length membersWithCapacity =? 0 then None
  else head membersWithCapacity.

End Evaluator.

(** ** Task creation: auto-assignment and validation ([app/api/tasks/route.ts]) *)

Module CreateTask.
Import Evaluator.

(** [finalAssignedToId] after the auto-assignment block. *)
Definition finalAssignedToId (s : Store) (projectTeamId : string)
    (assignedTo : option string) (autoAssign : bool) : option string :=
  if autoAssign && negb (Js.truthy assignedTo)
  then match findBestMemberForTask s projectTeamId with
       | Some bestMember => Some (member_id (mc_member bestMember))
       | None => assignedTo
       end
  else assignedTo.

Inductive Outcome :=
| Conflict409 (message : string) (currentLoad capacity : Z)
| BadRequest400 (error : string)
| Created201 (assignee : option string).

(** The handler from the auto-assignment block to [prisma.task.create]:
    the outcome carries the [assignedToId] the task is created with. *)
Definition assignOnCreate (s : Store) (projectTeamId : string)
    (assignedTo : option string) (autoAssign forceAssign : bool) : Outcome :=
  let final := finalAssignedToId s projectTeamId assignedTo autoAssign in
  let created := Created201 (if Js.truthy final then final else None) in
  if Js.truthy final && negb forceAssign
  then match validateTaskAssignment s (default "" final) false with
       | Warned message currentLoad cap => Conflict409 message currentLoad cap
       | Rejected error => BadRequest400 error
       | Allowed _ _ _ => created
       end
  else created.

End CreateTask.

(** ** Rebalancing sweep ([app/api/tasks/reassign/route.ts]) *)

Module Rebalancer.

(** A member object as [prisma.team.findMany] returns it: the row and the
    array of its tasks that are not DONE.  Only [tasks] is ever written. *)
Record Member := mkMember {
  row : TeamMember;
  tasks : list Task
}.

Record TeamSnapshot := mkTeamSnapshot {
  snap_team : Team;
  members : list Member
}.

(** [prisma.team.findMany({ include: members: tasks: where status not DONE })] *)
Definition findManyTeams (s : Store) : list TeamSnapshot :=
  (λ t, mkTeamSnapshot t
          ((λ m, mkMember m (Evaluator.openTasksOf s (member_id m)))
             <$> filter (λ m, teamId m = team_id t) (teamMember s)))
    <$> team s.

Record Reassignment := mkReassignment {
  taskId : string;
  taskTitle : string;
  fromMember : string;
  toMember : string;
  teamName : string
}.

(** The two writes the sweep issues. *)
Inductive DbWrite :=
| TaskUpdate (id : string) (newAssignedToId : string)
| ActivityLogCreate (entry : ActivityLog).

(** Reading a member object through a reference (a position in
    [team.members]). *)
Definition tasksLength (h : list Member) (i : nat) : Z :=
  from_option (λ m, Js.length (tasks m)) 0 (h !! i).
Definition capacityOf (h : list Member) (i : nat) : Z :=
  from_option (λ m, capacity (row m)) 0 (h !! i).
Definition idOf (h : list Member) (i : nat) : string :=
  from_option (λ m, member_id (row m)) "" (h !! i).

(** [team.members.filter(member => member.tasks.length > member.capacity)] *)
Definition overloadedMembers (h : list Member) : list nat :=
  filter (λ i, tasksLength h i > capacityOf h i) (seq 0 (List.length h)).

Definition priorityOrder (p : TaskPriority) : Z :=
  match p with LOW => 0 | MEDIUM => 1 | HIGH => 2 end.

Definition tasksToMove (overloadedMember : Member) : list Task :=
  Js.sort (λ a b, priorityOrder (priority a) - priorityOrder (priority b))
    (filter (λ t, priority t ≠ HIGH) (tasks overloadedMember)).

Definition excessCount (overloadedMember : Member) : Z :=
  Js.length (tasks overloadedMember) - capacity (row overloadedMember).

Definition tasksToReassign (overloadedMember : Member) : list Task :=
  Js.slice0 (excessCount overloadedMember) (tasksToMove overloadedMember).

(** The members other than the overloaded one that are under capacity,
    least loaded first; the lengths are those of the objects when the array
    is built. *)
Definition availableMembers (h : list Member) (overloadedMember : Member) : list nat :=
  Js.sort (λ a b, tasksLength h a - tasksLength h b)
    (filter (λ j, idOf h j ≠ member_id (row overloadedMember)
                  ∧ tasksLength h j < capacityOf h j)
            (seq 0 (List.length h))).

(** [availableMembers.find(member => member.tasks.length < member.capacity)],
    on the objects as they are now. *)
Definition targetMember (h : list Member) (available : list nat) : option nat :=
  Js.find (λ j, tasksLength h j <? capacityOf h j) available.

(** [targetMember.tasks.push(task)] *)
Definition pushTask (task : Task) (m : Member) : Member :=
  mkMember (row m) (tasks m ++ [task]).

(** What the sweep has in hand while it processes a team: the member
    objects, the writes made so far and the [reassignments] array; and
    whether a write has thrown, in which case control is on its way to the
    [catch] of the handler and no loop body runs any more. *)
Record State := mkState {
  objects : list Member;
  writes : list DbWrite;
  reassignments : list Reassignment;
  thrown : bool
}.

(** [ActivityLog_userId_fkey]: [prisma.activityLog.create] is accepted when
    the [userId] of the entry is the id of a row of [User], and throws
    otherwise. *)
Definition userExists (users : list User) (userId : string) : bool :=
  bool_decide (userId ∈ user_id <$> users).

Definition reassignedAction (fromName toName : string) : string :=
  "Reassigned from " +:+ fromName +:+ " to " +:+ toName.

Definition reassignedDescription (taskTitle fromName toName : string) : string :=
  "Task " +:+ String (Ascii.ascii_of_nat 34) taskTitle
          +:+ String (Ascii.ascii_of_nat 34) " reassigned from "
          +:+ fromName +:+ " to " +:+ toName.

(** The body of [for (const task of tasksToReassign)] once a target is
    found: update the task, log, record, push.  The task update is made
    first; when the audit entry is refused the body ends there, with
    neither the record nor the push. *)
Definition reassign (users : list User) (userId : string) (tm : Team)
    (overloadedMember : Member) (task : Task) (j : nat) (target : Member)
    (st : State) : State :=
  let updated :=
    writes st ++ [TaskUpdate (task_id task) (member_id (row target))] in
  let entry :=
    mkActivityLog (task_id task)
      (reassignedAction (member_name (row overloadedMember))
                        (member_name (row target)))
      (reassignedDescription (title task)
                        (member_name (row overloadedMember))
                        (member_name (row target)))
      userId in
  if userExists users (log_userId entry)
  then mkState
         (alter (pushTask task) j (objects st))
         (updated ++ [ActivityLogCreate entry])
         (reassignments st ++
           [ mkReassignment (task_id task) (title task)
               (member_name (row overloadedMember)) (member_name (row target))
               (team_name tm) ])
         (thrown st)
  else mkState (objects st) updated (reassignments st) true.

(** [for (const task of tasksToReassign) { ... }] with its [break].  A
    reference found by [targetMember] points into [team.members] (a
    position past its end has length and capacity 0, which fails the test),
    so the lookup of the target never fails. *)
Fixpoint reassignTasks (users : list User) (userId : string) (tm : Team)
    (overloadedMember : Member) (available : list nat) (todo : list Task)
    (st : State) : State :=
  match todo with
  | [] => st
  | task :: rest =>
      if thrown st then st
      else
        match targetMember (objects st) available with
        | None => st
        | Some j =>
            match objects st !! j with
            | None => st
            | Some target =>
                reassignTasks users userId tm overloadedMember available rest
                  (reassign users userId tm overloadedMember task j target st)
            end
        end
  end.

(** The body of [for (const overloadedMember of overloadedMembers)]; the
    references in [overloadedMembers] are positions of [team.members]. *)
Definition sweepMember (users : list User) (userId : string) (tm : Team)
    (st : State) (i : nat) : State :=
  if thrown st then st
  else
    match objects st !! i with
    | None => st
    | Some overloadedMember =>
        reassignTasks users userId tm overloadedMember
          (availableMembers (objects st) overloadedMember)
          (tasksToReassign overloadedMember) st
    end.

(** The state in which the processing of a team ends. *)
Definition sweepTeamState (users : list User) (userId : string) (t : TeamSnapshot)
    (ws : list DbWrite) (rs : list Reassignment) : State :=
  let overloaded := overloadedMembers (members t) in
  if Js.length overloaded =? 0 then mkState (members t) ws rs false
  else foldl (sweepMember users userId (snap_team t))
             (mkState (members t) ws rs false) overloaded.

(** What outlives the processing of a team: the writes made, the
    [reassignments] array, and whether a write has thrown. *)
Record Run := mkRun {
  run_writes : list DbWrite;
  run_reassignments : list Reassignment;
  run_thrown : bool
}.

(** The body of [for (const team of teams)]. *)
Definition sweepTeam (users : list User) (userId : string) (acc : Run)
    (t : TeamSnapshot) : Run :=
  if run_thrown acc then acc
  else
    let st := sweepTeamState users userId t (run_writes acc) (run_reassignments acc) in
    mkRun (writes st) (reassignments st) (thrown st).

Definition sweep (users : list User) (userId : string) (teams : list TeamSnapshot)
  : Run :=
  foldl (sweepTeam users userId) (mkRun [] [] false) teams.

Inductive Response :=
| Unauthorized401
| Ok200 (message : string) (reassignments : list Reassignment)
| Failed500 (error : string).

(** The store after a write that it has accepted. *)
Definition applyWrite (s : Store) (w : DbWrite) : Store :=
  match w with
  | TaskUpdate id new =>
      mkStore (user s) (team s) (teamMember s)
        ((λ t, if String.eqb (task_id t) id
               then mkTask (task_id t) (title t) (priority t) (status t) (Some new)
               else t) <$> task s)
        (activityLog s)
  | ActivityLogCreate entry =>
      mkStore (user s) (team s) (teamMember s) (task s) (activityLog s ++ [entry])
  end.

(** The handler: the response and the store it leaves.  The writes made
    before a throw stay in the store. *)
Definition POST (userId : option string) (s : Store) : Response * Store :=
  if negb (Js.truthy userId) then (Unauthorized401, s)
  else
    let teams := findManyTeams s in
    let out := sweep (user s) (default "" userId) teams in
    (if run_thrown out then Failed500 "Failed to reassign tasks"
     else Ok200 ("Successfully reassigned "
                 +:+ pretty (Js.length (run_reassignments out)) +:+ " task(s)")
                (run_reassignments out),
     foldl applyWrite s (run_writes out)).

End Rebalancer.

(** ** The rebalancer as its specification words it

    Section 4.2 of the specification, over the snapshot and a table of
    running open-task counts (one count per member of the team, in the
    order of the team's members).  A move names its task, the position of
    the member that sheds it and the position of the member that receives
    it. *)

Module Spec.
Import Rebalancer.

Record Move := mkMove {
  mv_task : Task;
  mv_from : nat;
  mv_to : nat
}.

(** When the list of available members is built. *)
Inductive Recompute := OncePerTeam | PerOverloadedMember.

Definition openTaskCount (m : Member) : Z := Js.length (tasks m).

Definition countOf (counts : list Z) (j : nat) : Z := default 0 (counts !! j).
Definition capOf (ms : list Member) (j : nat) : Z :=
  from_option (λ m, capacity (row m)) 0 (ms !! j).
Definition identityOf (ms : list Member) (j : nat) : string :=
  from_option (λ m, member_id (row m)) "" (ms !! j).
Definition nameOf (ms : list Member) (j : nat) : string :=
  from_option (λ m, member_name (row m)) "" (ms !! j).

(** Step 1: the members whose open-task count strictly exceeds their
    capacity. *)
Definition overloaded (ms : list Member) : list nat :=
  filter (λ i, countOf (openTaskCount <$> ms) i > capOf ms i) (seq 0 (List.length ms)).

(** Step 3: the open tasks that are not HIGH, LOW before MEDIUM. *)
Definition eligible (m : Member) : list Task :=
  filter (λ t, priority t = LOW) (tasks m) ++ filter (λ t, priority t = MEDIUM) (tasks m).

(** Steps 2 and 3: the first [excess] eligible tasks. *)
Definition toReassign (m : Member) : list Task :=
  take (Z.to_nat (openTaskCount m - capacity (row m))) (eligible m).

(** Step 4: the members under capacity, least loaded first. *)
Definition available (ms : list Member) (counts : list Z) : list nat :=
  Js.sort (λ a b, countOf counts a - countOf counts b)
    (filter (λ j, countOf counts j < capOf ms j) (seq 0 (List.length ms))).

(** "Every other member": those with another identity than member [i]. *)
Definition others (ms : list Member) (i : nat) (avail : list nat) : list nat :=
  filter (λ j, identityOf ms j ≠ identityOf ms i) avail.

(** Step 5: each task goes to the first available member still under
    capacity by its running count; the first task without a target stops
    the member's processing. *)
Fixpoint assign (ms : list Member) (avail : list nat) (i : nat)
    (todo : list Task) (counts : list Z) : list Move * list Z :=
  match todo with
  | [] => ([], counts)
  | t :: rest =>
      match Js.find (λ j, countOf counts j <? capOf ms j) avail with
      | None => ([], counts)
      | Some j =>
          let r := assign ms avail i rest (alter Z.succ j counts) in
          (mkMove t i j :: r.1, r.2)
      end
  end.

(** Steps 2 to 6 for the overloaded members of one team, in order. *)
Fixpoint processOverloaded (mode : Recompute) (ms : list Member)
    (atTeamStart : list nat) (todo : list nat) (counts : list Z)
  : list Move * list Z :=
  match todo with
  | [] => ([], counts)
  | i :: rest =>
      let avail := match mode with
                   | OncePerTeam => atTeamStart
                   | PerOverloadedMember => available ms counts
                   end in
      let r := assign ms (others ms i avail) i
                 (from_option toReassign [] (ms !! i)) counts in
      let r' := processOverloaded mode ms atTeamStart rest r.2 in
      (r.1 ++ r'.1, r'.2)
  end.

Definition sweepTeam (mode : Recompute) (ms : list Member) : list Move * list Z :=
  let counts := openTaskCount <$> ms in
  processOverloaded mode ms (available ms counts) (overloaded ms) counts.

(** The reassignment record and the new assignment of a move. *)
Definition recordOf (t : TeamSnapshot) (mv : Move) : Reassignment :=
  mkReassignment (task_id (mv_task mv)) (title (mv_task mv))
    (nameOf (members t) (mv_from mv)) (nameOf (members t) (mv_to mv))
    (team_name (snap_team t)).

Definition assignmentOf (t : TeamSnapshot) (mv : Move) : string * string :=
  (task_id (mv_task mv), identityOf (members t) (mv_to mv)).

(** The writes of a move: the task's new assignee and the audit entry. *)
Definition writesOfMove (userId : string) (t : TeamSnapshot) (mv : Move)
  : list DbWrite :=
  let fromName := nameOf (members t) (mv_from mv) in
  let toName := nameOf (members t) (mv_to mv) in
  [ TaskUpdate (task_id (mv_task mv)) (identityOf (members t) (mv_to mv));
    ActivityLogCreate
      (mkActivityLog (task_id (mv_task mv))
         (reassignedAction fromName toName)
         (reassignedDescription (title (mv_task mv)) fromName toName)
         userId) ].

Definition movesOf (mode : Recompute) (t : TeamSnapshot) : list Move :=
  (sweepTeam mode (members t)).1.

(** The sweep's result list and the assignments it makes, team after team. *)
Definition reassignmentsOf (mode : Recompute) (teams : list TeamSnapshot)
  : list Reassignment :=
  t ← teams; recordOf t <$> movesOf mode t.

Definition assignmentsOf (mode : Recompute) (teams : list TeamSnapshot)
  : list (string * string) :=
  t ← teams; assignmentOf t <$> movesOf mode t.

Definition writesOf (userId : string) (mode : Recompute) (teams : list TeamSnapshot)
  : list DbWrite :=
  t ← teams; mv ← movesOf mode t; writesOfMove userId t mv.

(** Failure semantics of section 4.2: a write that fails ends the sweep as
    a failure, and the writes made before it stay.  The audit entries of
    one sweep carry one user id, so the store accepts them all or refuses
    them all; when it refuses them ([accepted = false]) the sweep ends at
    its first move, whose task update is made and whose audit entry is
    not. *)
Definition committed (accepted : bool) (ws : list DbWrite) : list DbWrite :=
  if accepted then ws else take 1 ws.

Definition reported (accepted : bool) (rs : list Reassignment) : list Reassignment :=
  if accepted then rs else [].

Definition failed (accepted : bool) (ws : list DbWrite) : bool :=
  if accepted then false else match ws with [] => false | _ :: _ => true end.

(** The running counts after a sequence of moves. *)
Definition replay (mvs : list Move) (counts : list Z) : list Z :=
  foldl (λ c mv, alter Z.succ (mv_to mv) c) counts mvs.

(** Replaying the moves from [counts], each target is strictly under its
    capacity at the moment its move is made. *)
Fixpoint underCapacityWhenChosen (ms : list Member) (counts : list Z)
    (mvs : list Move) : Prop :=
  match mvs with
  | [] => True
  | mv :: rest =>
      countOf counts (mv_to mv) < capOf ms (mv_to mv)
      ∧ underCapacityWhenChosen ms (alter Z.succ (mv_to mv) counts) rest
  end.

(** The running open-task count of member [j] after the moves [done]. *)
Definition runningCount (ms : list Member) (done : list Move) (j : nat) : Z :=
  countOf (openTaskCount <$> ms) j
  + Js.length (filter (λ mv, mv_to mv = j) done).

End Spec.

(** The assignments among the writes of the sweep, in order. *)
Definition taskUpdates (ws : list Rebalancer.DbWrite) : list (string * string) :=
  omap (λ w, match w with
             | Rebalancer.TaskUpdate id new => Some (id, new)
             | Rebalancer.ActivityLogCreate _ => None
             end) ws.

(** [s] has [sub] as a substring ([s.includes(sub)]). *)
Definition includes (sub s : string) : Prop :=
  ∃ pre post, s = pre +:+ sub +:+ post.

(** The member [memberId] exists in the store. *)
Definition memberExists (s : Store) (memberId : string) : Prop :=
  ∃ m, m ∈ teamMember s ∧ member_id m = memberId.

(** The snapshot [ms] and the running counts [c] describe the member
    objects [h]: same rows, and each count is the length of the member's
    task array. *)
Definition abstracts (ms h : list Rebalancer.Member) (c : list Z) : Prop :=
  Rebalancer.row <$> h = Rebalancer.row <$> ms ∧ c = Spec.openTaskCount <$> h.

(** The members that the snapshot has at or over capacity are in [h] as
    they are in the snapshot. *)
Definition settled (ms h : list Rebalancer.Member) : Prop :=
  ∀ j m, ms !! j = Some m →
         capacity (Rebalancer.row m) ≤ Spec.openTaskCount m →
         h !! j = Some m.

(** ** Concrete teams *)

Module Scenarios.
Import Rebalancer.

Definition openTask (id : string) (p : TaskPriority) (assignee : string) : Task :=
  mkTask id ("task " +:+ id) p PENDING (Some assignee).

Definition theTeam : Team := mkTeam "team-1" "Core".

(** Scenario A: M1 (capacity 2) holds a HIGH, a MEDIUM and a LOW open task,
    M2 (capacity 2) holds none. *)
Definition m1 : TeamMember := mkTeamMember "m1" "Ada" 2 "team-1".
Definition m2 : TeamMember := mkTeamMember "m2" "Bob" 2 "team-1".
Definition scenarioA : TeamSnapshot :=
  mkTeamSnapshot theTeam
    [ mkMember m1 [openTask "t1" HIGH "m1"; openTask "t2" MEDIUM "m1";
                   openTask "t3" LOW "m1"];
      mkMember m2 [] ].

(** The user of the scenarios: the id that [auth()] returns for her is
    her [clerkId], not the id of her row. *)
Definition theUser : User := mkUser "u1" "user-1".

(** A user whose row has the id that [auth()] returns for her. *)
Definition theOwner : User := mkUser "owner-1" "owner-1".

Definition storeA : Store :=
  mkStore [theUser] [theTeam] [m1; m2]
    [openTask "t1" HIGH "m1"; openTask "t2" MEDIUM "m1"; openTask "t3" LOW "m1"]
    [].

(** Scenario B: a member of capacity 3 with exactly 3 open tasks. *)
Definition m3 : TeamMember := mkTeamMember "m3" "Cy" 3 "team-1".
Definition storeB : Store :=
  mkStore [theUser] [theTeam] [m3; m2]
    [openTask "t1" LOW "m3"; openTask "t2" LOW "m3"; openTask "t3" MEDIUM "m3"]
    [].

(** Scenario C: two tasks in excess, one of them eligible, and no member
    under capacity to take it. *)
Definition m4 : TeamMember := mkTeamMember "m4" "Dee" 1 "team-1".
Definition m5 : TeamMember := mkTeamMember "m5" "Eve" 0 "team-1".
Definition scenarioC : TeamSnapshot :=
  mkTeamSnapshot theTeam
    [ mkMember m4 [openTask "t1" HIGH "m4"; openTask "t2" HIGH "m4";
                   openTask "t3" LOW "m4"];
      mkMember m5 [] ].

(** Two overloaded members and two members under capacity: the first
    overloaded member fills the least loaded member past the load of the
    other one. *)
Definition a : TeamMember := mkTeamMember "a" "Ann" 1 "team-1".
Definition b : TeamMember := mkTeamMember "b" "Ben" 0 "team-1".
Definition c : TeamMember := mkTeamMember "c" "Cat" 5 "team-1".
Definition d : TeamMember := mkTeamMember "d" "Dan" 5 "team-1".
Definition twoOverloaded : TeamSnapshot :=
  mkTeamSnapshot theTeam
    [ mkMember a [openTask "t1" LOW "a"; openTask "t2" LOW "a"; openTask "t3" LOW "a"];
      mkMember b [openTask "t4" MEDIUM "b"];
      mkMember c [openTask "t5" LOW "c"];
      mkMember d [openTask "t6" LOW "d"; openTask "t7" LOW "d"] ].

(** Partial relief: two tasks in excess, one of them eligible, and a
    teammate with room. *)
Definition partialRelief : TeamSnapshot :=
  mkTeamSnapshot theTeam
    [ mkMember m4 [openTask "t1" HIGH "m4"; openTask "t2" HIGH "m4";
                   openTask "t3" LOW "m4"];
      mkMember m2 [] ].

End Scenarios.

(** ** Further notions for the properties of the sweep *)

(** The task update and the audit entry behind a reassignment record, the
    update carrying the id of the new assignee. *)
Definition writesOfRecord (userId : string) (r : Rebalancer.Reassignment)
    (newAssignedToId : string) : list Rebalancer.DbWrite :=
  [ Rebalancer.TaskUpdate (Rebalancer.taskId r) newAssignedToId;
    Rebalancer.ActivityLogCreate
      (mkActivityLog (Rebalancer.taskId r)
         (Rebalancer.reassignedAction (Rebalancer.fromMember r) (Rebalancer.toMember r))
         (Rebalancer.reassignedDescription (Rebalancer.taskTitle r)
            (Rebalancer.fromMember r) (Rebalancer.toMember r))
         userId) ].

(** All the tasks of a snapshot, team after team and member after member. *)
Definition snapshotTasks (teams : list Rebalancer.TeamSnapshot) : list Task :=
  t ← teams; m ← Rebalancer.members t; Rebalancer.tasks m.

(** A task row after a series of task updates (id, new assignee). *)
Definition updateRow (us : list (string * string)) (r : Task) : Task :=
  foldl (λ r u, if String.eqb (task_id r) u.1
                then mkTask (task_id r) (title r) (priority r) (status r) (Some u.2)
                else r) r us.

(** ** Task update: the assignment change ([app/api/tasks/[id]/route.ts], PUT)

    The handler from "Handle assignment change" on, for a task that exists
    and that the caller owns: what it puts into [updateData.assignedToId]
    before it calls [prisma.task.update], and whether it writes the
    "Task reassigned" audit entry afterwards. *)

Module UpdateTask.
Import Evaluator.

(** [body.assignedToId]: absent, [null] or a string. *)
Inductive Field := Undefined | Null | Str (id : string).

Inductive Outcome :=
| Conflict409 (message : string) (currentLoad capacity : Z)
| BadRequest400 (error : string)
| Update (assignedToId : option (option string)).

(** [updateData.assignedToId] is left unset ([None]), set to [null]
    ([Some None]) or set to a member id. *)
Definition assignmentChange (s : Store) (assignedTo : Field) (forceAssign : bool)
  : Outcome :=
  match assignedTo with
  | Undefined => Update None
  | Null => Update (Some None)
  | Str id =>
      if String.eqb id "" then Update (Some None)
      else if negb forceAssign
      then match validateTaskAssignment s id false with
           | Warned message currentLoad cap => Conflict409 message currentLoad cap
           | Rejected error => BadRequest400 error
           | Allowed _ _ _ => Update (Some (Some id))
           end
      else Update (Some (Some id))
  end.

(** [assignedToId !== undefined && existingTask.assignedToId !== assignedToId] *)
Definition logsReassignment (existing : option string) (assignedTo : Field) : bool :=
  match assignedTo with
  | Undefined => false
  | Null => bool_decide (existing ≠ None)
  | Str id => bool_decide (existing ≠ Some id)
  end.

(** The assignee of the row once [updateData] is applied. *)
Definition assigneeAfter (existing : option string)
    (update : option (option string)) : option string :=
  match update with
  | None => existing
  | Some new => new
  end.

End UpdateTask.

(** ** Workload figures of the pages

    The member list of a team ([GET /api/teams/[id]/members]) counts every
    task of a member, whatever its status; the dashboard and the team page
    compare that count with the capacity. *)

Module Dashboard.

Record MemberView := mkMemberView {
  view_member : TeamMember;
  count_tasks : Z
}.

(** [_count: { select: { tasks: true } }] *)
Definition countAllTasks (s : Store) (memberId : string) : Z :=
  Js.length (filter (λ t, assignedToId t = Some memberId) (task s)).

(** [prisma.teamMember.findMany({ where: { teamId: id }, include: _count })];
    the table lists the rows in the order of their creation. *)
Definition membersGET (s : Store) (tid : string) : list MemberView :=
  (λ m, mkMemberView m (countAllTasks s (member_id m)))
    <$> filter (λ m, teamId m = tid) (teamMember s).

(** [n || 0] on a number. *)
Definition orZero (n : Z) : Z := if n =? 0 then 0 else n.

(** [(member._count?.tasks || 0) > member.capacity] *)
Definition isOverloaded (v : MemberView) : bool :=
  orZero (count_tasks v) >? capacity (view_member v).

(** [getOverloadedCount] over the teams of the page, each with its members. *)
Definition getOverloadedCount (teams : list (list MemberView)) : Z :=
  foldl (λ count members, count + Js.length (filter (λ v, isOverloaded v = true) members))
        0 teams.

End Dashboard.

(** * Properties *)

(** ** The stable sort *)

Section SortFacts.
Context {A : Type}.
Implicit Types (cmp : A → A → Z) (l : list A).

Lemma insertBy_perm cmp x l : Js.insertBy cmp x l ≡ₚ x :: l.
Proof.
  induction l as [|y l IH]; simpl; [done|].
  destruct (cmp x y <=? 0); [done|].
  rewrite IH. apply Permutation_swap.
Qed.

Lemma sort_perm cmp l : Js.sort cmp l ≡ₚ l.
Proof.
  induction l as [|x l IH]; simpl; [done|].
  fold (Js.sort cmp l). rewrite insertBy_perm. by f_equiv.
Qed.

Lemma sort_elem_of cmp l x : x ∈ Js.sort cmp l ↔ x ∈ l.
Proof. by rewrite sort_perm. Qed.

Lemma sort_length cmp l : List.length (Js.sort cmp l) = List.length l.
Proof. by rewrite sort_perm. Qed.

Lemma insertBy_ext cmp cmp' x l :
  (∀ a b, cmp a b = cmp' a b) → Js.insertBy cmp x l = Js.insertBy cmp' x l.
Proof.
  intros E. induction l as [|y l IH]; simpl; [done|].
  rewrite E, IH. done.
Qed.

Lemma sort_ext cmp cmp' l :
  (∀ a b, cmp a b = cmp' a b) → Js.sort cmp l = Js.sort cmp' l.
Proof.
  intros E. induction l as [|x l IH]; simpl; [done|].
  fold (Js.sort cmp l) (Js.sort cmp' l). rewrite IH. by apply insertBy_ext.
Qed.

Lemma insertBy_front cmp x l :
  (∀ y, head l = Some y → cmp x y ≤ 0) → Js.insertBy cmp x l = x :: l.
Proof.
  destruct l as [|y l]; simpl; [done|]. intros H.
  specialize (H y eq_refl). by destruct (Z.leb_spec (cmp x y) 0); [|lia].
Qed.

Lemma insertBy_skip cmp x l1 l2 :
  Forall (λ y, 0 < cmp x y) l1 →
  Js.insertBy cmp x (l1 ++ l2) = l1 ++ Js.insertBy cmp x l2.
Proof.
  induction 1 as [|y l1 Hy _ IH]; simpl; [done|].
  destruct (Z.leb_spec (cmp x y) 0); [lia|]. by rewrite IH.
Qed.

(** Sorting by a numeric key. *)
Section ByKey.
Context (key : A → Z).
Let byKey : A → A → Z := λ a b, key a - key b.
Let le : A → A → Prop := λ a b, key a ≤ key b.

Lemma insertBy_sorted x l :
  StronglySorted le l → StronglySorted le (Js.insertBy byKey x l).
Proof.
  induction 1 as [|y l Hl IH Hy]; simpl.
  - repeat constructor.
  - unfold byKey at 1. destruct (Z.leb_spec (key x - key y) 0).
    + constructor; [by constructor|].
      constructor; [unfold le; lia|].
      eapply Forall_impl; [exact Hy|]. unfold le. simpl. intros; lia.
    + constructor; [done|].
      rewrite insertBy_perm. constructor; [unfold le; lia | done].
Qed.

Lemma sort_sorted l : StronglySorted le (Js.sort byKey l).
Proof.
  induction l as [|x l IH]; simpl; [constructor|].
  by apply insertBy_sorted.
Qed.

Lemma filter_insertBy (P : A → Prop) `{!∀ x, Decision (P x)} x l :
  StronglySorted le l →
  filter P (Js.insertBy byKey x l) =
  if decide (P x) then Js.insertBy byKey x (filter P l) else filter P l.
Proof.
  induction 1 as [|y l Hl IH Hy]; simpl.
  - rewrite filter_cons, filter_nil. by destruct (decide (P x)).
  - unfold byKey at 1. destruct (Z.leb_spec (key x - key y) 0) as [Hle|Hgt].
    + rewrite filter_cons. destruct (decide (P x)); [|done].
      symmetry. apply insertBy_front. intros z Hz.
      assert (z ∈ y :: l) as Hin.
      { apply head_Some_elem_of, list_elem_of_filter in Hz. tauto. }
      unfold byKey. apply elem_of_cons in Hin as [->|Hin]; [lia|].
      rewrite Forall_forall in Hy. specialize (Hy z Hin). unfold le in Hy. lia.
    + rewrite !(filter_cons _ y), IH.
      destruct (decide (P y)), (decide (P x)); simpl; try done.
      unfold byKey at 2. by destruct (Z.leb_spec (key x - key y) 0); [lia|].
Qed.

(** A stable sort commutes with filtering. *)
Lemma filter_sort (P : A → Prop) `{!∀ x, Decision (P x)} l :
  filter P (Js.sort byKey l) = Js.sort byKey (filter P l).
Proof.
  induction l as [|x l IH]; simpl; [done|].
  fold (Js.sort byKey l). rewrite filter_insertBy by apply sort_sorted.
  rewrite filter_cons. destruct (decide (P x)); simpl; by rewrite IH.
Qed.

(** With keys 0 and 1 only, the sorted list is the elements of key 0
    followed by those of key 1, each group in its original order. *)
Lemma sort_two_keys l :
  Forall (λ x, key x = 0 ∨ key x = 1) l →
  Js.sort byKey l = filter (λ x, key x = 0) l ++ filter (λ x, key x = 1) l.
Proof.
  induction 1 as [|x l Hx Hl IH]; simpl; [done|].
  fold (Js.sort byKey l). rewrite IH, !filter_cons.
  destruct Hx as [Hx|Hx].
  - rewrite decide_True, decide_False by lia. simpl.
    apply insertBy_front. intros y Hy. apply head_Some_elem_of in Hy.
    assert (y ∈ l) as Hin.
    { apply elem_of_app in Hy as [Hy|Hy];
        by apply list_elem_of_filter in Hy as [_ ?]. }
    rewrite Forall_forall in Hl. specialize (Hl y Hin). unfold byKey. lia.
  - rewrite decide_False, decide_True by lia.
    rewrite insertBy_skip.
    + f_equal. apply insertBy_front. intros y Hy.
      apply head_Some_elem_of, list_elem_of_filter in Hy as [Hy _].
      unfold byKey. lia.
    + apply Forall_forall. intros y Hy.
      apply list_elem_of_filter in Hy as [Hy _]. unfold byKey. lia.
Qed.
End ByKey.
End SortFacts.

(** ** Capacity evaluator *)

Section EvaluatorFacts.
Import Evaluator.
Implicit Types (s : Store) (memberId : string).

Lemma findUniqueMember_Some s memberId m :
  findUniqueMember s memberId = Some m → m ∈ teamMember s ∧ member_id m = memberId.
Proof.
  unfold findUniqueMember, Js.find. intros H.
  apply List.find_some in H as [Hin Heq].
  split; [by apply list_elem_of_In | by apply String.eqb_eq].
Qed.

Lemma findUniqueMember_None s memberId :
  findUniqueMember s memberId = None ↔ ¬ memberExists s memberId.
Proof.
  unfold findUniqueMember, Js.find, memberExists. split.
  - intros H (m & Hin & Hid).
    apply list_elem_of_In in Hin.
    pose proof (List.find_none _ _ H m Hin) as Hne. simpl in Hne.
    apply String.eqb_neq in Hne. done.
  - intros Hno. destruct (List.find _ _) as [m|] eqn:E; [|done].
    apply List.find_some in E as [Hin Heq]. exfalso. apply Hno.
    exists m. split; [by apply list_elem_of_In | by apply String.eqb_eq].
Qed.

Lemma findUniqueMember_is_Some s memberId :
  is_Some (findUniqueMember s memberId) ↔ memberExists s memberId.
Proof.
  rewrite <- not_eq_None_Some, findUniqueMember_None.
  split; [|tauto]. intros H.
  destruct (findUniqueMember s memberId) as [m|] eqn:E.
  - apply findUniqueMember_Some in E. by exists m.
  - apply findUniqueMember_None in E. tauto.
Qed.

Lemma isMemberOverCapacity_found s memberId m :
  findUniqueMember s memberId = Some m →
  isMemberOverCapacity s memberId =
    mkOverCapacity (getMemberActiveTaskCount s memberId >=? capacity m)
      (getMemberActiveTaskCount s memberId) (capacity m) (Some m).
Proof.
  intros H. unfold isMemberOverCapacity. rewrite H.
  apply findUniqueMember_Some in H as [_ ->]. done.
Qed.

Lemma append_assoc (a b c : string) : (a +:+ b) +:+ c = a +:+ b +:+ c.
Proof.
  induction a as [|ch a IH]; [done|].
  change (String ch ((a +:+ b) +:+ c) = String ch (a +:+ b +:+ c)).
  by rewrite IH.
Qed.

Lemma warningMessage_includes name currentLoad cap :
  includes name (warningMessage name currentLoad cap)
  ∧ includes (pretty currentLoad) (warningMessage name currentLoad cap)
  ∧ includes (pretty cap) (warningMessage name currentLoad cap).
Proof.
  unfold includes, warningMessage. split; [|split].
  - exists "", (" has " +:+ pretty currentLoad +:+ " tasks but capacity is "
              +:+ pretty cap +:+ ". Assign anyway?"). done.
  - exists (name +:+ " has "), (" tasks but capacity is " +:+ pretty cap
              +:+ ". Assign anyway?").
    by rewrite !append_assoc.
  - exists (name +:+ " has " +:+ pretty currentLoad +:+ " tasks but capacity is "),
           ". Assign anyway?".
    by rewrite !append_assoc.
Qed.
End EvaluatorFacts.

(** C1.  [validateTaskAssignment] answers [Rejected] (not valid, an error
    reason, no warning) exactly when no member has the given id; [Warned]
    (not valid, warning set, a message that includes the member's name,
    current load and capacity) exactly when the member exists, its current
    load is at or above its capacity and [force] is false; and [Allowed]
    (valid, with the member, its current load and its capacity) exactly when
    the member exists and is under capacity or [force] is true. *)
Theorem validateTaskAssignment_three_way (s : Store) (memberId : string) (force : bool) :
  let v := Evaluator.validateTaskAssignment s memberId force in
  let load := Evaluator.getMemberActiveTaskCount s memberId in
  let found := Evaluator.findUniqueMember s memberId in
  (is_Some found ↔ memberExists s memberId)
  ∧ ((∃ e, v = Evaluator.Rejected e) ↔ ¬ memberExists s memberId)
  ∧ ((∃ msg l c, v = Evaluator.Warned msg l c) ↔
       ∃ m, found = Some m ∧ load >= capacity m ∧ force = false)
  ∧ ((∃ m l c, v = Evaluator.Allowed m l c) ↔
       ∃ m, found = Some m ∧ (load < capacity m ∨ force = true))
  ∧ match v with
    | Evaluator.Rejected e =>
        Evaluator.valid v = false ∧ Evaluator.warning v = false
    | Evaluator.Warned msg l c =>
        Evaluator.valid v = false ∧ Evaluator.warning v = true
        ∧ ∃ m, found = Some m ∧ l = load ∧ c = capacity m
               ∧ includes (member_name m) msg
               ∧ includes (pretty l) msg ∧ includes (pretty c) msg
    | Evaluator.Allowed m l c =>
        Evaluator.valid v = true ∧ Evaluator.warning v = false
        ∧ found = Some m ∧ l = load ∧ c = capacity m
    end.
Proof.
  intros v load found.
  split; [apply findUniqueMember_is_Some|].
  subst v. unfold Evaluator.validateTaskAssignment.
  destruct (Evaluator.findUniqueMember s memberId) as [m|] eqn:Hfind.
  - assert (memberExists s memberId) as Hex.
    { apply findUniqueMember_is_Some. by rewrite Hfind. }
    rewrite (isMemberOverCapacity_found _ _ _ Hfind). simpl. fold load.
    subst found.
    destruct (Z.geb_spec load (capacity m)) as [Hge|Hlt], force; simpl.
    + split_and!; try done.
      * split; [by intros [? ?]|tauto].
      * split; [by intros (? & ? & ? & ?)|]. intros (m' & [= <-] & _ & ?). done.
      * split; [|by eauto]. intros _. exists m. split; [done|]. by right.
    + split_and!; try done.
      * split; [by intros [? ?]|tauto].
      * split; [|by eauto]. intros _. exists m. split_and!; [done|lia|done].
      * split; [by intros (? & ? & ? & ?)|].
        intros (m' & [= <-] & [?|?]); [lia|done].
      * exists m.
        destruct (warningMessage_includes (member_name m) load (capacity m))
          as (? & ? & ?).
        split_and!; done.
    + split_and!; try done.
      * split; [by intros [? ?]|tauto].
      * split; [by intros (? & ? & ? & ?)|]. intros (m' & [= <-] & ? & ?). done.
      * split; [|by eauto]. intros _. exists m. split; [done|]. by right.
    + split_and!; try done.
      * split; [by intros [? ?]|tauto].
      * split; [by intros (? & ? & ? & ?)|]. intros (m' & [= <-] & ? & ?). lia.
      * split; [|by eauto]. intros _. exists m. split; [done|]. by left.
  - assert (¬ memberExists s memberId) as Hno by by apply findUniqueMember_None.
    unfold Evaluator.isMemberOverCapacity. rewrite Hfind. simpl. subst found.
    split_and!; try done.
    + split; [done|by eauto].
    + split; [by intros (? & ? & ? & ?)|by intros (? & ? & ?)].
    + split; [by intros (? & ? & ? & ?)|by intros (? & ? & ?)].
Qed.

(** C2.  For a member that exists, [isMemberOverCapacity] reports the
    number of its tasks that are not DONE as the current load, and reports
    over capacity exactly when that load is at or above the member's
    capacity; a load equal to the capacity is over capacity. *)
Theorem isMemberOverCapacity_inclusive (s : Store) (memberId : string) (m : TeamMember) :
  Evaluator.findUniqueMember s memberId = Some m →
  let r := Evaluator.isMemberOverCapacity s memberId in
  Evaluator.oc_currentLoad r =
    Z.of_nat (List.length
      (filter (λ t, assignedToId t = Some memberId ∧ status t ≠ DONE) (task s)))
  ∧ Evaluator.oc_capacity r = capacity m
  ∧ Evaluator.oc_member r = Some m
  ∧ (Evaluator.overCapacity r = true ↔ Evaluator.oc_currentLoad r >= capacity m)
  ∧ (Evaluator.oc_currentLoad r = capacity m → Evaluator.overCapacity r = true).
Proof.
  intros Hfind r. subst r. rewrite (isMemberOverCapacity_found _ _ _ Hfind). simpl.
  split_and!; try done.
  - rewrite Z.geb_le. lia.
  - intros ->. apply Z.geb_le. lia.
Qed.

Lemma filter_fmap {A B : Type} (f : A → B) (P : B → Prop)
    `{!∀ y, Decision (P y)} (l : list A) :
  filter P (f <$> l) = f <$> filter (λ x, P (f x)) l.
Proof.
  induction l as [|x l IH]; [done|].
  rewrite fmap_cons, !filter_cons, IH. by destruct (decide (P (f x))).
Qed.

(** C8.  [getMembersWithCapacity] returns exactly the members of the team
    whose current load is below their capacity (each row once, with its
    load), in ascending order of load; [findBestMemberForTask] returns the
    first of them, and nothing exactly when every member of the team is at
    or over capacity, in which case auto-assignment creates the task
    unassigned. *)
Theorem getMembersWithCapacity_spare (s : Store) (tid : string) :
  let load := λ m, Evaluator.getMemberActiveTaskCount s (member_id m) in
  let spare := Evaluator.getMembersWithCapacity s tid in
  let full := ∀ m, m ∈ teamMember s → teamId m = tid → capacity m ≤ load m in
  spare ≡ₚ (λ m, Evaluator.mkMemberWithCount m (load m))
             <$> filter (λ m, load m < capacity m ∧ teamId m = tid) (teamMember s)
  ∧ (∀ mc, mc ∈ spare ↔
       ∃ m, m ∈ teamMember s ∧ teamId m = tid ∧ load m < capacity m
            ∧ mc = Evaluator.mkMemberWithCount m (load m))
  ∧ StronglySorted (λ a b, Evaluator.mc_count a ≤ Evaluator.mc_count b) spare
  ∧ Evaluator.findBestMemberForTask s tid = head spare
  ∧ (Evaluator.findBestMemberForTask s tid = None ↔ full)
  ∧ (full → ∀ assignedTo forceAssign,
       Js.truthy assignedTo = false →
       CreateTask.assignOnCreate s tid assignedTo true forceAssign
         = CreateTask.Created201 None).
Proof.
  intros load spare full.
  assert (spare ≡ₚ (λ m, Evaluator.mkMemberWithCount m (load m))
             <$> filter (λ m, load m < capacity m ∧ teamId m = tid) (teamMember s))
    as Hperm.
  { subst spare. unfold Evaluator.getMembersWithCapacity, Evaluator.findManyMembers.
    rewrite sort_perm, filter_fmap. simpl. by rewrite list_filter_filter. }
  assert (∀ mc, mc ∈ spare ↔
       ∃ m, m ∈ teamMember s ∧ teamId m = tid ∧ load m < capacity m
            ∧ mc = Evaluator.mkMemberWithCount m (load m)) as Hin.
  { intros mc. rewrite Hperm, list_elem_of_fmap.
    split.
    - intros (m & -> & Hm). apply list_elem_of_filter in Hm as [[? ?] ?].
      exists m. done.
    - intros (m & ? & ? & ? & ->). exists m. split; [done|].
      apply list_elem_of_filter. done. }
  assert (Evaluator.findBestMemberForTask s tid = head spare) as Hbest.
  { unfold Evaluator.findBestMemberForTask. fold spare.
    destruct spare as [|x l]; [done|].
    unfold Js.length. by destruct (Z.eqb_spec (Z.of_nat (List.length (x :: l))) 0). }
  assert (Evaluator.findBestMemberForTask s tid = None ↔ full) as Hfull.
  { rewrite Hbest, head_None. split.
    - intros Hnil m Hm Ht.
      destruct (Z.le_gt_cases (capacity m) (load m)) as [|Hlt]; [done|].
      assert (Evaluator.mkMemberWithCount m (load m) ∈ spare) as Hx
        by (apply Hin; eauto).
      rewrite Hnil in Hx. by apply elem_of_nil in Hx.
    - intros Hf. destruct spare as [|x l] eqn:E; [done|].
      assert (x ∈ x :: l) as Hx by apply list_elem_of_here.
      apply Hin in Hx as (m & Hm & Ht & Hlt & _).
      specialize (Hf m Hm Ht). lia. }
  split_and!; try done.
  - apply (sort_sorted Evaluator.mc_count).
  - intros Hf assignedTo forceAssign Hfalsy.
    apply Hfull in Hf.
    unfold CreateTask.assignOnCreate, CreateTask.finalAssignedToId.
    rewrite Hfalsy, Hf. simpl. by rewrite Hfalsy.
Qed.

(** ** The member objects of a team *)

Section Objects.
Import Rebalancer.
Implicit Types (h ms : list Member) (c : list Z) (i j : nat).

Lemma tasksLength_countOf h j :
  tasksLength h j = Spec.countOf (Spec.openTaskCount <$> h) j.
Proof.
  unfold tasksLength, Spec.countOf. rewrite list_lookup_fmap.
  by destruct (h !! j).
Qed.

Lemma row_pushTask task h j : row <$> alter (pushTask task) j h = row <$> h.
Proof.
  rewrite (list_fmap_alter row (pushTask task) (λ x, x)).
  - by apply list_alter_id.
  - by apply Forall_forall.
Qed.

Lemma openTaskCount_pushTask task h j :
  Spec.openTaskCount <$> alter (pushTask task) j h
  = alter Z.succ j (Spec.openTaskCount <$> h).
Proof.
  apply list_fmap_alter, Forall_forall. intros m _.
  unfold Spec.openTaskCount, Js.length. simpl. rewrite length_app. simpl. lia.
Qed.

Lemma capacityOf_rows h ms j :
  row <$> h = row <$> ms → capacityOf h j = Spec.capOf ms j.
Proof.
  intros E. unfold capacityOf, Spec.capOf.
  assert ((row <$> h) !! j = (row <$> ms) !! j) as Ej by by rewrite E.
  rewrite !list_lookup_fmap in Ej.
  destruct (h !! j), (ms !! j); simplify_eq/=; congruence.
Qed.

Lemma idOf_rows h ms j :
  row <$> h = row <$> ms → idOf h j = Spec.identityOf ms j.
Proof.
  intros E. unfold idOf, Spec.identityOf.
  assert ((row <$> h) !! j = (row <$> ms) !! j) as Ej by by rewrite E.
  rewrite !list_lookup_fmap in Ej.
  destruct (h !! j), (ms !! j); simplify_eq/=; congruence.
Qed.

Lemma length_rows h ms : row <$> h = row <$> ms → List.length h = List.length ms.
Proof. intros E. by rewrite <- (length_fmap row h), E, length_fmap. Qed.

Lemma countOf_alter_eq c j :
  (j < List.length c)%nat →
  Spec.countOf (alter Z.succ j c) j = Spec.countOf c j + 1.
Proof.
  intros Hj. unfold Spec.countOf. rewrite list_lookup_alter_eq.
  destruct (lookup_lt_is_Some_2 c j Hj) as [x ->]. simpl. lia.
Qed.

Lemma countOf_alter_ne c j k :
  j ≠ k → Spec.countOf (alter Z.succ j c) k = Spec.countOf c k.
Proof. intros Hne. unfold Spec.countOf. by rewrite list_lookup_alter_ne. Qed.

(** A member under capacity is a member. *)
Lemma under_capacity_lookup h j :
  tasksLength h j < capacityOf h j → is_Some (h !! j).
Proof.
  unfold tasksLength, capacityOf. destruct (h !! j); [eauto|simpl; lia].
Qed.

Lemma targetMember_Some h available j :
  targetMember h available = Some j →
  j ∈ available ∧ tasksLength h j < capacityOf h j.
Proof.
  unfold targetMember, Js.find. intros H.
  apply List.find_some in H as [Hin Hlt].
  split; [by apply list_elem_of_In | by apply Z.ltb_lt].
Qed.

Lemma targetMember_None h available j :
  targetMember h available = None → j ∈ available →
  capacityOf h j ≤ tasksLength h j.
Proof.
  unfold targetMember, Js.find. intros H Hin.
  apply list_elem_of_In in Hin.
  pose proof (List.find_none _ _ H j Hin) as Hge. simpl in Hge.
  apply Z.ltb_ge in Hge. done.
Qed.
End Objects.

(** ** Candidate tasks *)

Section Candidates.
Import Rebalancer.

Lemma tasksToMove_eligible (om : Member) : tasksToMove om = Spec.eligible om.
Proof.
  unfold tasksToMove, Spec.eligible.
  rewrite (sort_two_keys (λ t, priorityOrder (priority t))).
  - rewrite !list_filter_filter.
    f_equal; apply list_filter_iff; intros t;
      destruct (priority t); simpl; intuition (done || lia).
  - apply Forall_forall. intros t Ht.
    apply list_elem_of_filter in Ht as [Ht _].
    destruct (priority t); simpl; tauto.
Qed.

Lemma tasksToReassign_toReassign (om : Member) :
  0 ≤ excessCount om → tasksToReassign om = Spec.toReassign om.
Proof.
  intros He. unfold tasksToReassign, Spec.toReassign, Js.slice0.
  rewrite tasksToMove_eligible.
  destruct (Z.ltb_spec (excessCount om) 0); [lia|]. done.
Qed.

Lemma elem_of_eligible (om : Member) task :
  task ∈ Spec.eligible om ↔ task ∈ tasks om ∧ priority task ≠ HIGH.
Proof.
  unfold Spec.eligible. rewrite elem_of_app, !list_elem_of_filter.
  destruct (priority task); intuition done.
Qed.

Lemma elem_of_toReassign (om : Member) task :
  task ∈ Spec.toReassign om → task ∈ tasks om ∧ priority task ≠ HIGH.
Proof.
  unfold Spec.toReassign. intros H. apply elem_of_eligible.
  by apply (subseteq_take _ _ _ H).
Qed.
End Candidates.

(** ** The sweep refines the algorithm over running counts *)

Section Refinement.
Import Rebalancer.
Implicit Types (h ms : list Member) (c : list Z) (i j : nat) (st : State).

Lemma abstracts_init ms : abstracts ms ms (Spec.openTaskCount <$> ms).
Proof. done. Qed.

Lemma settled_init ms : settled ms ms.
Proof. by intros j m Hj _. Qed.

Lemma abstracts_tasksLength ms h c j :
  abstracts ms h c → tasksLength h j = Spec.countOf c j.
Proof. intros [_ ->]. apply tasksLength_countOf. Qed.

Lemma abstracts_capacityOf ms h c j :
  abstracts ms h c → capacityOf h j = Spec.capOf ms j.
Proof. intros [E _]. by apply capacityOf_rows. Qed.

Lemma abstracts_row ms h c j target :
  abstracts ms h c → h !! j = Some target →
  Spec.identityOf ms j = member_id (row target)
  ∧ Spec.nameOf ms j = member_name (row target).
Proof.
  intros [E _] Hj. unfold Spec.identityOf, Spec.nameOf.
  assert ((row <$> h) !! j = (row <$> ms) !! j) as Ej by by rewrite E.
  rewrite !list_lookup_fmap, Hj in Ej.
  destruct (ms !! j) as [m|]; simpl in Ej; [|done].
  injection Ej as ->. done.
Qed.

Lemma find_ext {A : Type} (p q : A → bool) (l : list A) :
  (∀ x, p x = q x) → Js.find p l = Js.find q l.
Proof.
  intros E. unfold Js.find. induction l as [|x l IH]; simpl; [done|].
  by rewrite E, IH.
Qed.

Lemma targetMember_refines ms h c available :
  abstracts ms h c →
  targetMember h available
  = Js.find (λ j, Spec.countOf c j <? Spec.capOf ms j) available.
Proof.
  intros Habs. unfold targetMember. apply find_ext. intros j.
  by rewrite (abstracts_tasksLength ms h c), (abstracts_capacityOf ms h c).
Qed.

Lemma availableMembers_refines ms h c i om :
  abstracts ms h c → ms !! i = Some om →
  availableMembers h om = Spec.others ms i (Spec.available ms c).
Proof.
  intros Habs Hi. unfold availableMembers, Spec.others, Spec.available.
  rewrite (filter_sort (Spec.countOf c)), list_filter_filter.
  rewrite (length_rows h ms) by apply Habs.
  erewrite sort_ext.
  - f_equal. apply list_filter_iff. intros j.
    rewrite (abstracts_tasksLength ms h c), (abstracts_capacityOf ms h c) by done.
    rewrite (idOf_rows h ms) by apply Habs.
    replace (Spec.identityOf ms i) with (member_id (row om)); [done|].
    unfold Spec.identityOf. by rewrite Hi.
  - intros a b. simpl.
    by rewrite !(abstracts_tasksLength ms h c).
Qed.

Lemma abstracts_push ms h c j task :
  abstracts ms h c → abstracts ms (alter (pushTask task) j h) (alter Z.succ j c).
Proof.
  intros [E ->]. split.
  - by rewrite row_pushTask.
  - by rewrite openTaskCount_pushTask.
Qed.

Lemma settled_push ms h j task :
  settled ms h → tasksLength h j < capacityOf h j →
  settled ms (alter (pushTask task) j h).
Proof.
  intros Hs Hlt k m Hk Hfull.
  destruct (decide (j = k)) as [->|Hne].
  - specialize (Hs k m Hk Hfull). exfalso.
    unfold tasksLength, capacityOf in Hlt. rewrite Hs in Hlt. simpl in Hlt.
    unfold Spec.openTaskCount in Hfull. lia.
  - rewrite list_lookup_alter_ne by done. by apply Hs.
Qed.

Lemma userExists_true users userId :
  userExists users userId = true ↔ userId ∈ user_id <$> users.
Proof. unfold userExists. apply bool_decide_eq_true. Qed.

Lemma reassign_accepted users userId tm om task j target st :
  userExists users userId = true →
  reassign users userId tm om task j target st
  = mkState
      (alter (pushTask task) j (objects st))
      (writes st ++
        [ TaskUpdate (task_id task) (member_id (row target));
          ActivityLogCreate
            (mkActivityLog (task_id task)
               (reassignedAction (member_name (row om)) (member_name (row target)))
               (reassignedDescription (title task)
                  (member_name (row om)) (member_name (row target)))
               userId) ])
      (reassignments st ++
        [ mkReassignment (task_id task) (title task)
            (member_name (row om)) (member_name (row target)) (team_name tm) ])
      (thrown st).
Proof.
  intros Hok. unfold reassign. cbn [log_userId]. rewrite Hok.
  by rewrite <- app_assoc.
Qed.

Lemma reassign_refused users userId tm om task j target st :
  userExists users userId = false →
  reassign users userId tm om task j target st
  = mkState (objects st)
      (writes st ++ [TaskUpdate (task_id task) (member_id (row target))])
      (reassignments st) true.
Proof. intros Hok. unfold reassign. cbn [log_userId]. by rewrite Hok. Qed.

Lemma reassignTasks_thrown users userId tm om available todo st :
  thrown st = true → reassignTasks users userId tm om available todo st = st.
Proof. intros Hst. destruct todo; simpl; [done|]. by rewrite Hst. Qed.

(** The writes of a sequence of moves, cut where the store refuses. *)
Lemma committed_app ok (ws1 ws2 : list DbWrite) :
  Spec.committed ok (ws1 ++ ws2)
  = Spec.committed ok ws1
    ++ (if Spec.failed ok ws1 then [] else Spec.committed ok ws2).
Proof.
  destruct ok; simpl; [done|].
  destruct ws1 as [|w ws1]; simpl; [done|]. by rewrite take_0.
Qed.

Lemma reported_app ok (rs1 rs2 : list Reassignment) :
  Spec.reported ok (rs1 ++ rs2) = Spec.reported ok rs1 ++ Spec.reported ok rs2.
Proof. by destruct ok. Qed.

Lemma failed_app ok (ws1 ws2 : list DbWrite) :
  Spec.failed ok (ws1 ++ ws2) = Spec.failed ok ws1 || Spec.failed ok ws2.
Proof. destruct ok; simpl; [done|]. by destruct ws1. Qed.

Lemma failed_moves ok userId (t : TeamSnapshot) mvs :
  Spec.failed ok (mvs ≫= Spec.writesOfMove userId t) = false →
  ok = true ∨ mvs = [].
Proof. destruct ok; [by left|]. destruct mvs; [by right|done]. Qed.

Lemma assign_no_moves ms available i todo c :
  (Spec.assign ms available i todo c).1 = [] →
  (Spec.assign ms available i todo c).2 = c.
Proof.
  destruct todo as [|task rest]; simpl; [done|].
  by destruct (Js.find _ available).
Qed.

Lemma reassignTasks_refines users userId (t : TeamSnapshot) i om available todo st c :
  abstracts (members t) (objects st) c →
  settled (members t) (objects st) →
  members t !! i = Some om →
  thrown st = false →
  let ok := userExists users userId in
  let r := Spec.assign (members t) available i todo c in
  let st' := reassignTasks users userId (snap_team t) om available todo st in
  abstracts (members t) (objects st') (if thrown st' then c else r.2)
  ∧ settled (members t) (objects st')
  ∧ writes st'
    = writes st ++ Spec.committed ok (r.1 ≫= Spec.writesOfMove userId t)
  ∧ reassignments st'
    = reassignments st ++ Spec.reported ok (Spec.recordOf t <$> r.1)
  ∧ thrown st' = Spec.failed ok (r.1 ≫= Spec.writesOfMove userId t).
Proof.
  intros Habs Hset Hi Hlive. cbv zeta.
  destruct (userExists users userId) eqn:Hok.
  - revert st c Habs Hset Hlive.
    induction todo as [|task rest IH]; intros st c Habs Hset Hlive; simpl.
    { rewrite Hlive, !app_nil_r. done. }
    rewrite Hlive.
    rewrite <- (targetMember_refines (members t) (objects st) c) by done.
    destruct (targetMember (objects st) available) as [j|] eqn:Htarget; simpl;
      [|by rewrite Hlive, !app_nil_r].
    apply targetMember_Some in Htarget as [_ Hlt].
    destruct (under_capacity_lookup _ _ Hlt) as [target Hj]. rewrite Hj.
    destruct (abstracts_row _ _ _ _ _ Habs Hj) as [Hid Hname].
    rewrite (reassign_accepted _ _ _ _ _ _ _ _ Hok).
    set (st1 := mkState _ _ _ _).
    specialize (IH st1 (alter Z.succ j c)).
    destruct IH as (IH1 & IH2 & IH3 & IH4 & IH5).
    { by apply abstracts_push. }
    { by apply settled_push. }
    { done. }
    assert (Spec.nameOf (members t) i = member_name (row om)) as Hfrom.
    { unfold Spec.nameOf. by rewrite Hi. }
    rewrite IH5 in IH1. rewrite IH5. simpl in IH1.
    split_and!; try done.
    + rewrite IH3. simpl. rewrite <- app_assoc. f_equal.
      unfold Spec.writesOfMove at 2. simpl. by rewrite Hfrom, Hid, Hname.
    + rewrite IH4. simpl. rewrite <- app_assoc. f_equal.
      unfold Spec.recordOf at 2. simpl. by rewrite Hfrom, Hname.
  - destruct todo as [|task rest]; simpl.
    { rewrite Hlive, !app_nil_r. done. }
    rewrite Hlive.
    rewrite <- (targetMember_refines (members t) (objects st) c) by done.
    destruct (targetMember (objects st) available) as [j|] eqn:Htarget; simpl;
      [|by rewrite Hlive, !app_nil_r].
    apply targetMember_Some in Htarget as [_ Hlt].
    destruct (under_capacity_lookup _ _ Hlt) as [target Hj]. rewrite Hj.
    destruct (abstracts_row _ _ _ _ _ Habs Hj) as [Hid Hname].
    rewrite (reassign_refused _ _ _ _ _ _ _ _ Hok).
    rewrite reassignTasks_thrown by done. simpl.
    rewrite app_nil_r, Hid. done.
Qed.
End Refinement.

Section RefinementOfSweep.
Import Rebalancer.
Implicit Types (h ms : list Member) (c : list Z) (i j : nat) (st : State).

Lemma overloadedMembers_overloaded ms : overloadedMembers ms = Spec.overloaded ms.
Proof.
  unfold overloadedMembers, Spec.overloaded. apply list_filter_iff. intros i.
  by rewrite tasksLength_countOf, (capacityOf_rows ms ms).
Qed.

Lemma elem_of_overloaded ms i :
  i ∈ Spec.overloaded ms ↔
  ∃ m, ms !! i = Some m ∧ capacity (row m) < Spec.openTaskCount m.
Proof.
  unfold Spec.overloaded. rewrite list_elem_of_filter, elem_of_seq.
  unfold Spec.countOf, Spec.capOf. rewrite list_lookup_fmap. split.
  - intros [Hgt [_ Hlt]]. simpl in Hlt.
    destruct (lookup_lt_is_Some_2 ms i Hlt) as [m Hm].
    rewrite Hm in Hgt. simpl in Hgt. exists m. split; [done|lia].
  - intros (m & Hm & Hgt). rewrite Hm. simpl. split; [lia|].
    apply lookup_lt_Some in Hm. lia.
Qed.

Lemma foldl_sweepMember_thrown users userId tm todo st :
  thrown st = true → foldl (sweepMember users userId tm) st todo = st.
Proof.
  intros Hst. induction todo as [|i rest IH]; simpl; [done|].
  unfold sweepMember at 2. by rewrite Hst.
Qed.

Lemma foldl_sweepMember_refines users userId (t : TeamSnapshot) atTeamStart todo st c :
  abstracts (members t) (objects st) c →
  settled (members t) (objects st) →
  (∀ i, i ∈ todo → i ∈ Spec.overloaded (members t)) →
  thrown st = false →
  let ok := userExists users userId in
  let r := Spec.processOverloaded Spec.PerOverloadedMember (members t)
             atTeamStart todo c in
  let st' := foldl (sweepMember users userId (snap_team t)) st todo in
  abstracts (members t) (objects st') (if thrown st' then c else r.2)
  ∧ settled (members t) (objects st')
  ∧ writes st'
    = writes st ++ Spec.committed ok (r.1 ≫= Spec.writesOfMove userId t)
  ∧ reassignments st'
    = reassignments st ++ Spec.reported ok (Spec.recordOf t <$> r.1)
  ∧ thrown st' = Spec.failed ok (r.1 ≫= Spec.writesOfMove userId t).
Proof.
  cbv zeta. revert st c.
  induction todo as [|i rest IH]; intros st c Habs Hset Hover Hlive; simpl.
  { rewrite Hlive. destruct (userExists users userId); simpl;
      by rewrite !app_nil_r. }
  destruct (proj1 (elem_of_overloaded _ _) (Hover i (list_elem_of_here _ _)))
    as (om & Hi & Hgt).
  assert (objects st !! i = Some om) as Hobj by (apply Hset; [done|lia]).
  assert (sweepMember users userId (snap_team t) st i
          = reassignTasks users userId (snap_team t) om
              (Spec.others (members t) i (Spec.available (members t) c))
              (Spec.toReassign om) st) as ->.
  { unfold sweepMember. rewrite Hlive, Hobj.
    rewrite (availableMembers_refines (members t) (objects st) c i om) by done.
    by rewrite tasksToReassign_toReassign
      by (unfold excessCount, Spec.openTaskCount in *; lia). }
  rewrite Hi. simpl.
  pose proof (reassignTasks_refines users userId t i om
    (Spec.others (members t) i (Spec.available (members t) c))
    (Spec.toReassign om) st c Habs Hset Hi Hlive) as (R1 & R2 & R3 & R4 & R5).
  set (r := Spec.assign _ _ _ _ _) in *.
  set (st1 := reassignTasks _ _ _ _ _ _ _) in *.
  rewrite bind_app, fmap_app, committed_app, reported_app, failed_app.
  destruct (thrown st1) eqn:Hst1.
  - rewrite foldl_sweepMember_thrown by done. rewrite Hst1, <- R5. simpl.
    assert (Spec.reported (userExists users userId)
              (Spec.recordOf t
                 <$> (Spec.processOverloaded Spec.PerOverloadedMember (members t)
                        atTeamStart rest r.2).1) = []) as ->.
    { symmetry in R5. destruct (userExists users userId); [done|done]. }
    rewrite !app_nil_r. done.
  - destruct (IH st1 r.2 R1 R2) as (I1 & I2 & I3 & I4 & I5).
    { intros k Hk. apply Hover. by right. }
    { done. }
    rewrite <- R5. simpl.
    assert ((if thrown (foldl (sweepMember users userId (snap_team t)) st1 rest)
             then c else
               (Spec.processOverloaded Spec.PerOverloadedMember (members t)
                  atTeamStart rest r.2).2)
            = (if thrown (foldl (sweepMember users userId (snap_team t)) st1 rest)
               then r.2 else
                 (Spec.processOverloaded Spec.PerOverloadedMember (members t)
                    atTeamStart rest r.2).2)) as ->.
    { destruct (thrown (foldl _ st1 rest)) eqn:Hfin; [|done].
      symmetry in R5. apply failed_moves in R5 as [Hok|Hnil].
      - rewrite Hok in I5. done.
      - symmetry. by apply assign_no_moves. }
    split_and!; try done.
    + rewrite I3, R3, app_assoc. done.
    + rewrite I4, R4, app_assoc. done.
Qed.

Lemma sweepTeamState_refines users userId (t : TeamSnapshot) ws rs :
  let ok := userExists users userId in
  let r := Spec.sweepTeam Spec.PerOverloadedMember (members t) in
  let st := sweepTeamState users userId t ws rs in
  abstracts (members t) (objects st)
    (if thrown st then Spec.openTaskCount <$> members t else r.2)
  ∧ settled (members t) (objects st)
  ∧ writes st = ws ++ Spec.committed ok (r.1 ≫= Spec.writesOfMove userId t)
  ∧ reassignments st = rs ++ Spec.reported ok (Spec.recordOf t <$> r.1)
  ∧ thrown st = Spec.failed ok (r.1 ≫= Spec.writesOfMove userId t).
Proof.
  intros ok r st.
  assert (st = foldl (sweepMember users userId (snap_team t))
                 (mkState (members t) ws rs false)
                 (Spec.overloaded (members t))) as ->.
  { subst st. unfold sweepTeamState. rewrite overloadedMembers_overloaded.
    destruct (Spec.overloaded (members t)) as [|i l]; [done|].
    by destruct (Z.eqb_spec (Js.length (i :: l)) 0). }
  apply (foldl_sweepMember_refines users userId t _ _
           (mkState (members t) ws rs false)).
  - apply abstracts_init.
  - apply settled_init.
  - done.
  - done.
Qed.

Lemma foldl_sweepTeam_thrown users userId teams acc :
  run_thrown acc = true → foldl (sweepTeam users userId) acc teams = acc.
Proof.
  intros Hacc. induction teams as [|t teams IH]; simpl; [done|].
  unfold sweepTeam at 2. by rewrite Hacc.
Qed.

Lemma foldl_sweepTeam_refines users userId teams ws rs :
  let ok := userExists users userId in
  foldl (sweepTeam users userId) (mkRun ws rs false) teams
  = mkRun
      (ws ++ Spec.committed ok (Spec.writesOf userId Spec.PerOverloadedMember teams))
      (rs ++ Spec.reported ok (Spec.reassignmentsOf Spec.PerOverloadedMember teams))
      (Spec.failed ok (Spec.writesOf userId Spec.PerOverloadedMember teams)).
Proof.
  cbv zeta. revert ws rs. induction teams as [|t teams IH]; intros ws rs.
  { unfold Spec.writesOf, Spec.reassignmentsOf. simpl.
    destruct (userExists users userId); simpl; by rewrite !app_nil_r. }
  cbn [foldl]. unfold sweepTeam at 2. cbn [run_thrown run_writes run_reassignments].
  destruct (sweepTeamState_refines users userId t ws rs) as (_ & _ & Hw & Hr & Hth).
  unfold Spec.writesOf, Spec.reassignmentsOf. rewrite !bind_cons.
  rewrite committed_app, reported_app, failed_app.
  change (Spec.sweepTeam Spec.PerOverloadedMember (members t)).1
    with (Spec.movesOf Spec.PerOverloadedMember t) in Hw, Hr, Hth.
  change (Spec.movesOf Spec.PerOverloadedMember t
            ≫= (λ mv, Spec.writesOfMove userId t mv))
    with (Spec.movesOf Spec.PerOverloadedMember t ≫= Spec.writesOfMove userId t).
  rewrite <- Hth.
  destruct (thrown (sweepTeamState users userId t ws rs)) eqn:Hst.
  - rewrite foldl_sweepTeam_thrown by done. rewrite Hw, Hr. simpl.
    assert (Spec.reported (userExists users userId)
              (teams ≫= λ t0, Spec.recordOf t0
                                <$> Spec.movesOf Spec.PerOverloadedMember t0) = [])
      as ->.
    { symmetry in Hth. by destruct (userExists users userId). }
    by rewrite !app_nil_r.
  - rewrite Hw, Hr, IH. unfold Spec.writesOf, Spec.reassignmentsOf. simpl.
    by rewrite !app_assoc.
Qed.

Lemma sweep_refines users userId teams :
  let ok := userExists users userId in
  sweep users userId teams
  = mkRun (Spec.committed ok (Spec.writesOf userId Spec.PerOverloadedMember teams))
          (Spec.reported ok (Spec.reassignmentsOf Spec.PerOverloadedMember teams))
          (Spec.failed ok (Spec.writesOf userId Spec.PerOverloadedMember teams)).
Proof. unfold sweep. by rewrite foldl_sweepTeam_refines. Qed.
End RefinementOfSweep.

(** ** The moves of the algorithm over running counts *)

Section Moves.
Import Rebalancer.
Implicit Types (ms : list Member) (c : list Z) (i j : nat) (mvs : list Spec.Move).

Lemma replay_app mvs1 mvs2 c :
  Spec.replay (mvs1 ++ mvs2) c = Spec.replay mvs2 (Spec.replay mvs1 c).
Proof. apply foldl_app. Qed.

Lemma replay_cons (mv : Spec.Move) mvs c :
  Spec.replay (mv :: mvs) c = Spec.replay mvs (alter Z.succ (Spec.mv_to mv) c).
Proof. done. Qed.

Lemma replay_length mvs c : List.length (Spec.replay mvs c) = List.length c.
Proof.
  revert c. unfold Spec.replay.
  induction mvs as [|mv mvs IH]; intros c; simpl; [done|].
  by rewrite IH, length_alter.
Qed.

Lemma underCapacityWhenChosen_app ms c mvs1 mvs2 :
  Spec.underCapacityWhenChosen ms c (mvs1 ++ mvs2) ↔
  Spec.underCapacityWhenChosen ms c mvs1
  ∧ Spec.underCapacityWhenChosen ms (Spec.replay mvs1 c) mvs2.
Proof.
  revert c. induction mvs1 as [|mv mvs1 IH]; intros c; simpl; [tauto|].
  rewrite IH. unfold Spec.replay. tauto.
Qed.

(** A member under capacity by the counts is a member, when there is a
    count for each member. *)
Lemma under_capacity_valid ms c j :
  List.length c = List.length ms →
  Spec.countOf c j < Spec.capOf ms j → (j < List.length c)%nat.
Proof.
  intros Hlen Hlt. destruct (decide (j < List.length c)%nat); [done|].
  unfold Spec.countOf, Spec.capOf in Hlt.
  rewrite !lookup_ge_None_2 in Hlt by lia. simpl in Hlt. lia.
Qed.

Lemma countOf_succ c j k :
  (j < List.length c)%nat →
  Spec.countOf (alter Z.succ j c) k
  = Spec.countOf c k + (if decide (j = k) then 1 else 0).
Proof.
  intros Hj. destruct (decide (j = k)) as [->|Hne].
  - by apply countOf_alter_eq.
  - rewrite countOf_alter_ne by done. lia.
Qed.

Lemma length_filter_cons_to (mv : Spec.Move) mvs j :
  Js.length (filter (λ mv, Spec.mv_to mv = j) (mv :: mvs))
  = (if decide (Spec.mv_to mv = j) then 1 else 0)
    + Js.length (filter (λ mv, Spec.mv_to mv = j) mvs).
Proof.
  rewrite filter_cons. unfold Js.length.
  destruct (decide (Spec.mv_to mv = j)); simpl; lia.
Qed.

(** The count of a member after a replay is its count before plus the
    number of moves it received. *)
Lemma countOf_replay ms c mvs j :
  List.length c = List.length ms →
  Spec.underCapacityWhenChosen ms c mvs →
  Spec.countOf (Spec.replay mvs c) j
  = Spec.countOf c j + Js.length (filter (λ mv, Spec.mv_to mv = j) mvs).
Proof.
  revert c. induction mvs as [|mv mvs IH]; intros c Hlen Hok.
  { simpl. unfold Js.length. simpl. lia. }
  destruct Hok as [Hlt Hok].
  rewrite replay_cons, IH; [|by rewrite length_alter|done].
  rewrite length_filter_cons_to, countOf_succ
    by by eapply under_capacity_valid.
  lia.
Qed.

(** Whenever a move is made, the running count of its target is strictly
    below the target's capacity. *)
Lemma underCapacityWhenChosen_split ms c pre mv post :
  List.length c = List.length ms →
  Spec.underCapacityWhenChosen ms c (pre ++ mv :: post) →
  Spec.countOf c (Spec.mv_to mv)
    + Js.length (filter (λ mv', Spec.mv_to mv' = Spec.mv_to mv) pre)
  < Spec.capOf ms (Spec.mv_to mv).
Proof.
  intros Hlen Hok. apply underCapacityWhenChosen_app in Hok as [Hpre [Hmv _]].
  by rewrite <- (countOf_replay ms).
Qed.

(** A member's final count is its first count, or at most its capacity. *)
Lemma countOf_replay_bound ms c mvs j :
  List.length c = List.length ms →
  Spec.underCapacityWhenChosen ms c mvs →
  Spec.countOf (Spec.replay mvs c) j ≤ Z.max (Spec.countOf c j) (Spec.capOf ms j).
Proof.
  revert c. induction mvs as [|mv mvs IH]; intros c Hlen Hok; [simpl; lia|].
  destruct Hok as [Hlt Hok]. rewrite replay_cons.
  specialize (IH (alter Z.succ (Spec.mv_to mv) c)).
  rewrite length_alter in IH. specialize (IH Hlen Hok).
  rewrite countOf_succ in IH by by eapply under_capacity_valid.
  destruct (decide (Spec.mv_to mv = j)) as [<-|]; lia.
Qed.

Lemma assign_moves ms available i todo c :
  let r := Spec.assign ms available i todo c in
  Spec.mv_task <$> r.1 = take (List.length r.1) todo
  ∧ Forall (λ mv, Spec.mv_from mv = i ∧ Spec.mv_to mv ∈ available) r.1
  ∧ Spec.underCapacityWhenChosen ms c r.1
  ∧ r.2 = Spec.replay r.1 c.
Proof.
  revert c. induction todo as [|task rest IH]; intros c; simpl; [done|].
  destruct (Js.find _ available) as [j|] eqn:Hfind; simpl; [|done].
  unfold Js.find in Hfind. apply List.find_some in Hfind as [Hin Hlt].
  apply list_elem_of_In in Hin. apply Z.ltb_lt in Hlt.
  destruct (IH (alter Z.succ j c)) as (I1 & I2 & I3 & I4).
  split_and!; try done.
  - f_equal. exact I1.
  - by constructor.
Qed.
End Moves.

Section TeamMoves.
Import Rebalancer.
Implicit Types (ms : list Member) (c : list Z) (i j : nat) (mvs : list Spec.Move).

Lemma processOverloaded_moves mode ms atTeamStart todo c :
  let r := Spec.processOverloaded mode ms atTeamStart todo c in
  Forall (λ mv, Spec.mv_from mv ∈ todo
                ∧ Spec.mv_task mv
                    ∈ from_option Spec.toReassign [] (ms !! Spec.mv_from mv)) r.1
  ∧ Spec.underCapacityWhenChosen ms c r.1
  ∧ r.2 = Spec.replay r.1 c.
Proof.
  revert c. induction todo as [|i rest IH]; intros c; simpl; [done|].
  set (avail := match mode with
                | Spec.OncePerTeam => atTeamStart
                | Spec.PerOverloadedMember => Spec.available ms c
                end).
  destruct (assign_moves ms (Spec.others ms i avail) i
              (from_option Spec.toReassign [] (ms !! i)) c) as (A1 & A2 & A3 & A4).
  set (a := Spec.assign _ _ _ _ _) in *.
  destruct (IH a.2) as (I1 & I2 & I3).
  split_and!.
  - apply Forall_app. split.
    + apply Forall_forall. intros mv Hmv.
      rewrite Forall_forall in A2. destruct (A2 mv Hmv) as [-> _].
      split; [by left|].
      apply (subseteq_take (List.length a.1)). rewrite <- A1.
      by apply list_elem_of_fmap_2.
    + eapply Forall_impl; [exact I1|]. simpl. intros mv [? ?].
      split; [by right|done].
  - apply underCapacityWhenChosen_app. split; [done|]. by rewrite <- A4.
  - by rewrite I3, replay_app, <- A4.
Qed.

(** The tasks a member sheds are the first of those chosen for it. *)
Lemma processOverloaded_prefix mode ms atTeamStart todo c i :
  NoDup todo →
  let r := Spec.processOverloaded mode ms atTeamStart todo c in
  let shed := filter (λ mv, Spec.mv_from mv = i) r.1 in
  Spec.mv_task <$> shed
  = take (List.length shed) (from_option Spec.toReassign [] (ms !! i))
  ∧ (i ∉ todo → shed = []).
Proof.
  revert c. induction todo as [|k rest IH]; intros c Hnd; simpl; [done|].
  apply NoDup_cons in Hnd as [Hk Hnd].
  set (avail := match mode with
                | Spec.OncePerTeam => atTeamStart
                | Spec.PerOverloadedMember => Spec.available ms c
                end).
  destruct (assign_moves ms (Spec.others ms k avail) k
              (from_option Spec.toReassign [] (ms !! k)) c) as (A1 & A2 & _ & _).
  set (a := Spec.assign _ _ _ _ _) in *.
  destruct (IH a.2 Hnd) as [I1 I2].
  rewrite filter_app.
  destruct (decide (k = i)) as [->|Hne].
  - rewrite (I2 Hk), app_nil_r.
    assert (filter (λ mv, Spec.mv_from mv = i) a.1 = a.1) as ->.
    { clear -A2. induction A2 as [|mv l [Hmv _] _ IHl]; [done|].
      by rewrite filter_cons_True, IHl. }
    split; [done|]. intros Hi. exfalso. apply Hi. by left.
  - assert (filter (λ mv, Spec.mv_from mv = i) a.1 = []) as ->.
    { clear -A2 Hne. induction A2 as [|mv l [Hmv _] _ IHl]; [done|].
      rewrite filter_cons_False by congruence. done. }
    simpl. split; [done|]. intros Hi. apply I2. intros ?. apply Hi. by right.
Qed.

Lemma overloaded_NoDup ms : NoDup (Spec.overloaded ms).
Proof. unfold Spec.overloaded. apply NoDup_filter, NoDup_seq. Qed.

Lemma countOf_runningCount ms mvs j :
  Spec.underCapacityWhenChosen ms (Spec.openTaskCount <$> ms) mvs →
  Spec.countOf (Spec.replay mvs (Spec.openTaskCount <$> ms)) j
  = Spec.runningCount ms mvs j.
Proof.
  intros Hok. unfold Spec.runningCount.
  by rewrite (countOf_replay ms) by (by rewrite ?length_fmap).
Qed.

(** What holds of the moves made in a team, whenever the list of
    available members is built. *)
Lemma sweepTeam_moves mode ms :
  let r := Spec.sweepTeam mode ms in
  (∀ mv, mv ∈ r.1 →
     ∃ om, ms !! Spec.mv_from mv = Some om
           ∧ capacity (row om) < Spec.openTaskCount om
           ∧ Spec.mv_task mv ∈ Spec.toReassign om)
  ∧ (∀ pre mv post, r.1 = pre ++ mv :: post →
       Spec.runningCount ms pre (Spec.mv_to mv) < Spec.capOf ms (Spec.mv_to mv))
  ∧ (∀ j, Spec.countOf r.2 j = Spec.runningCount ms r.1 j)
  ∧ (∀ j, Spec.countOf r.2 j
          ≤ Z.max (Spec.countOf (Spec.openTaskCount <$> ms) j) (Spec.capOf ms j)).
Proof.
  intros r. subst r. unfold Spec.sweepTeam.
  destruct (processOverloaded_moves mode ms
    (Spec.available ms (Spec.openTaskCount <$> ms)) (Spec.overloaded ms)
    (Spec.openTaskCount <$> ms)) as (P1 & P2 & P3).
  set (r := Spec.processOverloaded _ _ _ _ _) in *.
  assert (List.length (Spec.openTaskCount <$> ms) = List.length ms) as Hlen
    by by rewrite length_fmap.
  split_and!.
  - intros mv Hmv. rewrite Forall_forall in P1.
    destruct (P1 mv Hmv) as [Hfrom Htask].
    apply elem_of_overloaded in Hfrom as (om & Hom & Hgt).
    rewrite Hom in Htask. simpl in Htask. by exists om.
  - intros pre mv post E. rewrite E in P2.
    by apply (underCapacityWhenChosen_split ms _ pre mv post).
  - intros j. rewrite P3. by apply countOf_runningCount.
  - intros j. rewrite P3. by apply countOf_replay_bound.
Qed.

(** A member that receives a task was under capacity in the snapshot. *)
Lemma sweepTeam_target mode ms mv :
  mv ∈ (Spec.sweepTeam mode ms).1 →
  ∃ target, ms !! Spec.mv_to mv = Some target
            ∧ Spec.openTaskCount target < capacity (row target).
Proof.
  intros Hmv. apply list_elem_of_split in Hmv as (pre & post & E).
  destruct (sweepTeam_moves mode ms) as (_ & Hrun & _).
  specialize (Hrun pre mv post E). unfold Spec.runningCount in Hrun.
  assert (0 ≤ Js.length (filter (λ mv', Spec.mv_to mv' = Spec.mv_to mv) pre))
    as Hnn by (unfold Js.length; lia).
  unfold Spec.countOf, Spec.capOf in Hrun. rewrite list_lookup_fmap in Hrun.
  destruct (ms !! Spec.mv_to mv) as [target|]; simpl in Hrun; [|lia].
  exists target. split; [done|lia].
Qed.
End TeamMoves.

(** ** When the list of available members is built *)

Lemma taskUpdates_writesOfMove userId (t : Rebalancer.TeamSnapshot) mvs :
  taskUpdates (mvs ≫= Spec.writesOfMove userId t) = Spec.assignmentOf t <$> mvs.
Proof.
  unfold taskUpdates. induction mvs as [|mv mvs IH]; [done|].
  rewrite bind_cons, omap_app, IH. done.
Qed.

Lemma taskUpdates_writesOf userId mode teams :
  taskUpdates (Spec.writesOf userId mode teams) = Spec.assignmentsOf mode teams.
Proof.
  unfold Spec.writesOf, Spec.assignmentsOf.
  induction teams as [|t teams IH]; [done|].
  rewrite !bind_cons. unfold taskUpdates in *.
  rewrite omap_app, IH. f_equal. apply taskUpdates_writesOfMove.
Qed.

(** The writes and the records that the sweep keeps are among those of
    the moves. *)
Lemma elem_of_committed ok (ws : list Rebalancer.DbWrite) w :
  w ∈ Spec.committed ok ws → w ∈ ws.
Proof. destruct ok; [done|]. apply subseteq_take. Qed.

Lemma elem_of_reported ok (rs : list Rebalancer.Reassignment) r :
  r ∈ Spec.reported ok rs → r ∈ rs.
Proof. destruct ok; [done|]. by intros ?%elem_of_nil. Qed.

Lemma taskUpdates_committed_moves ok userId (t : Rebalancer.TeamSnapshot) mvs :
  taskUpdates (Spec.committed ok (mvs ≫= Spec.writesOfMove userId t))
  = Spec.assignmentOf t <$> (if ok then mvs else take 1 mvs).
Proof.
  destruct ok; simpl; [apply taskUpdates_writesOfMove|].
  by destruct mvs.
Qed.

Lemma writesOf_head userId mode teams :
  match Spec.writesOf userId mode teams with
  | [] => Spec.assignmentsOf mode teams = []
          ∧ Spec.reassignmentsOf mode teams = []
  | w :: _ => ∃ u us, w = Rebalancer.TaskUpdate u.1 u.2
                      ∧ Spec.assignmentsOf mode teams = u :: us
  end.
Proof.
  unfold Spec.writesOf, Spec.assignmentsOf, Spec.reassignmentsOf.
  induction teams as [|t teams IH]; [done|].
  rewrite !bind_cons. destruct (Spec.movesOf mode t) as [|mv mvs]; [done|].
  simpl. by eexists (_, _), _.
Qed.

Lemma taskUpdates_committed ok userId mode teams :
  taskUpdates (Spec.committed ok (Spec.writesOf userId mode teams))
  = if ok then Spec.assignmentsOf mode teams
    else take 1 (Spec.assignmentsOf mode teams).
Proof.
  destruct ok; simpl; [apply taskUpdates_writesOf|].
  pose proof (writesOf_head userId mode teams) as Hhead.
  destruct (Spec.writesOf userId mode teams) as [|w ws].
  - destruct Hhead as [-> _]. done.
  - destruct Hhead as (u & us & -> & ->). by destruct u.
Qed.

(** A sweep that does not throw has made all the moves. *)
Lemma completed_sweep ok userId mode teams :
  Spec.failed ok (Spec.writesOf userId mode teams) = false →
  Spec.committed ok (Spec.writesOf userId mode teams) = Spec.writesOf userId mode teams
  ∧ Spec.reported ok (Spec.reassignmentsOf mode teams)
    = Spec.reassignmentsOf mode teams.
Proof.
  destruct ok; [done|]. simpl.
  pose proof (writesOf_head userId mode teams) as Hhead.
  destruct (Spec.writesOf userId mode teams) as [|w ws]; [|done].
  destruct Hhead as [_ ->]. done.
Qed.



(** ** Capacity of the targets *)

Lemma tasksLength_pushTask (h : list Rebalancer.Member) (j k : nat) task :
  is_Some (h !! j) →
  Rebalancer.tasksLength (alter (Rebalancer.pushTask task) j h) k
  = Rebalancer.tasksLength h k + (if decide (j = k) then 1 else 0).
Proof.
  intros Hj. rewrite !tasksLength_countOf, openTaskCount_pushTask.
  apply countOf_succ. rewrite length_fmap. by apply lookup_lt_is_Some_1.
Qed.

(** C3.  Each pass of the reassignment loop picks a target whose task
    array is, at that moment, strictly shorter than its capacity; when the
    store accepts the audit entry the pass pushes the task onto that array,
    so that the next pick sees one task more, and when the store refuses it
    the pass throws after the task update and no further pick is made.
    Over a whole team, the moves the sweep makes are the first moves of the
    algorithm over running counts (all of them when the entries are
    accepted), the running open-task count of the target of every move (its
    count in the snapshot plus the moves it received earlier in the sweep)
    is strictly below its capacity when the move is made, and no member
    ends above the larger of its capacity and its count in the snapshot. *)
Theorem sweep_targets_under_capacity (users : list User) (userId : string)
    (t : Rebalancer.TeamSnapshot)
    (ws : list Rebalancer.DbWrite) (rs : list Rebalancer.Reassignment) :
  let ok := Rebalancer.userExists users userId in
  let st := Rebalancer.sweepTeamState users userId t ws rs in
  let ms := Rebalancer.members t in
  let mvs := Spec.movesOf Spec.PerOverloadedMember t in
  (∀ tm om available task rest st0,
     Rebalancer.thrown st0 = false →
     match Rebalancer.targetMember (Rebalancer.objects st0) available with
     | Some j =>
         Rebalancer.tasksLength (Rebalancer.objects st0) j
           < Rebalancer.capacityOf (Rebalancer.objects st0) j
         ∧ ∃ target st1,
             Rebalancer.objects st0 !! j = Some target
             ∧ st1 = Rebalancer.reassign users userId tm om task j target st0
             ∧ Rebalancer.reassignTasks users userId tm om available (task :: rest) st0
               = Rebalancer.reassignTasks users userId tm om available rest st1
             ∧ Rebalancer.thrown st1 = negb ok
             ∧ (∀ k, Rebalancer.tasksLength (Rebalancer.objects st1) k
                     = Rebalancer.tasksLength (Rebalancer.objects st0) k
                       + (if decide (j = k) then if ok then 1 else 0 else 0))
             ∧ (ok = false →
                Rebalancer.reassignTasks users userId tm om available rest st1 = st1)
     | None =>
         Rebalancer.reassignTasks users userId tm om available (task :: rest) st0 = st0
     end)
  ∧ Rebalancer.writes st
    = ws ++ Spec.committed ok (mvs ≫= Spec.writesOfMove userId t)
  ∧ Rebalancer.reassignments st = rs ++ Spec.reported ok (Spec.recordOf t <$> mvs)
  ∧ Rebalancer.thrown st = Spec.failed ok (mvs ≫= Spec.writesOfMove userId t)
  ∧ taskUpdates (Rebalancer.writes st)
    = taskUpdates ws ++ (Spec.assignmentOf t <$> (if ok then mvs else take 1 mvs))
  ∧ (∀ pre mv post, mvs = pre ++ mv :: post →
       Spec.runningCount ms pre (Spec.mv_to mv) < Spec.capOf ms (Spec.mv_to mv))
  ∧ (∀ j, Rebalancer.tasksLength (Rebalancer.objects st) j
          = Spec.runningCount ms (if ok then mvs else []) j)
  ∧ (∀ j, Rebalancer.tasksLength (Rebalancer.objects st) j
          ≤ Z.max (Rebalancer.tasksLength ms j) (Rebalancer.capacityOf ms j)).
Proof.
  intros ok st ms mvs.
  destruct (sweepTeamState_refines users userId t ws rs) as (Habs & _ & Hw & Hr & Hth).
  destruct (sweepTeam_moves Spec.PerOverloadedMember ms) as (_ & Hrun & Hcount & Hbound).
  fold st in Habs, Hw, Hr, Hth. fold ms in Habs. fold ok in Hw, Hr, Hth.
  change (Spec.sweepTeam Spec.PerOverloadedMember (Rebalancer.members t)).1
    with mvs in Hw, Hr, Hth.
  change (Spec.sweepTeam Spec.PerOverloadedMember ms).1 with mvs in Hrun, Hcount.
  assert (ok = Rebalancer.userExists users userId) as Eok by done.
  clearbody ok.
  assert (∀ j, Rebalancer.tasksLength (Rebalancer.objects st) j
               = Spec.runningCount ms (if ok then mvs else []) j) as Hlen.
  { intros j. rewrite (abstracts_tasksLength _ _ _ _ Habs).
    destruct (Rebalancer.thrown st) eqn:Hst.
    - symmetry in Hth. destruct ok; [done|].
      unfold Spec.runningCount. simpl. unfold Js.length. simpl. lia.
    - symmetry in Hth. apply failed_moves in Hth as [->|Hnil]; [apply Hcount|].
      rewrite Hcount, Hnil. by destruct ok. }
  split_and!; try done.
  - intros tm om available task rest st0 Hlive. simpl. rewrite Hlive.
    destruct (Rebalancer.targetMember _ available) as [j|] eqn:Htarget; [|done].
    apply targetMember_Some in Htarget as [_ Hlt]. split; [done|].
    destruct (under_capacity_lookup _ _ Hlt) as [target Hj].
    exists target, (Rebalancer.reassign users userId tm om task j target st0).
    rewrite Hj. split_and!; try done.
    + unfold Rebalancer.reassign. cbn [log_userId]. rewrite <- Eok.
      destruct ok; simpl; done.
    + intros k. unfold Rebalancer.reassign. cbn [log_userId]. rewrite <- Eok.
      destruct ok; simpl.
      * by apply tasksLength_pushTask.
      * destruct (decide (j = k)); lia.
    + intros Hok. apply reassignTasks_thrown.
      unfold Rebalancer.reassign. cbn [log_userId]. by rewrite <- Eok, Hok.
  - rewrite Hw. unfold taskUpdates at 1. rewrite omap_app.
    fold (taskUpdates ws). f_equal. apply taskUpdates_committed_moves.
  - intros j. rewrite Hlen.
    destruct ok.
    + rewrite <- Hcount. rewrite tasksLength_countOf, (capacityOf_rows ms ms) by done.
      apply Hbound.
    + unfold Spec.runningCount. simpl. unfold Js.length. simpl.
      rewrite tasksLength_countOf. lia.
Qed.

(** ** The tasks that move *)

Section MovedTasks.
Import Rebalancer.

Lemma elem_of_reassignmentsOf mode teams r :
  r ∈ Spec.reassignmentsOf mode teams ↔
  ∃ t mv, t ∈ teams ∧ mv ∈ Spec.movesOf mode t ∧ r = Spec.recordOf t mv.
Proof.
  unfold Spec.reassignmentsOf. rewrite list_elem_of_bind. split.
  - intros (t & Hr & Ht). apply list_elem_of_fmap in Hr as (mv & -> & Hmv). eauto.
  - intros (t & mv & Ht & Hmv & ->). exists t. split; [|done].
    by apply list_elem_of_fmap_2.
Qed.

Lemma elem_of_writesOf userId mode teams w :
  w ∈ Spec.writesOf userId mode teams ↔
  ∃ t mv, t ∈ teams ∧ mv ∈ Spec.movesOf mode t ∧ w ∈ Spec.writesOfMove userId t mv.
Proof.
  unfold Spec.writesOf. rewrite list_elem_of_bind. split.
  - intros (t & Hw & Ht). apply list_elem_of_bind in Hw as (mv & Hw & Hmv). eauto.
  - intros (t & mv & Ht & Hmv & Hw). exists t. split; [|done].
    apply list_elem_of_bind. eauto.
Qed.

(** A move takes a task that is not HIGH from an overloaded member of the
    snapshot and gives it to a member the snapshot has under capacity. *)
Lemma movesOf_move mode (t : TeamSnapshot) mv :
  mv ∈ Spec.movesOf mode t →
  ∃ om target,
    members t !! Spec.mv_from mv = Some om
    ∧ capacity (row om) < Spec.openTaskCount om
    ∧ Spec.mv_task mv ∈ Spec.toReassign om
    ∧ Spec.mv_task mv ∈ tasks om
    ∧ priority (Spec.mv_task mv) ≠ HIGH
    ∧ members t !! Spec.mv_to mv = Some target
    ∧ Spec.openTaskCount target < capacity (row target).
Proof.
  unfold Spec.movesOf. intros Hmv.
  destruct (sweepTeam_moves mode (members t)) as (Hfrom & _).
  destruct (Hfrom mv Hmv) as (om & Hom & Hgt & Htask).
  destruct (sweepTeam_target mode (members t) mv Hmv) as (target & Hto & Hlt).
  destruct (elem_of_toReassign om _ Htask) as [? ?].
  exists om, target. done.
Qed.

Lemma no_overload_no_moves mode (t : TeamSnapshot) :
  (∀ m, m ∈ members t → Js.length (tasks m) ≤ capacity (row m)) →
  Spec.movesOf mode t = [].
Proof.
  intros Hno. destruct (Spec.movesOf mode t) as [|mv l] eqn:E; [done|].
  destruct (movesOf_move mode t mv) as (om & _ & Hom & Hgt & _).
  { rewrite E. by left. }
  apply list_elem_of_lookup_2, Hno in Hom.
  unfold Spec.openTaskCount in Hgt. lia.
Qed.

Lemma findManyTeams_tasks (s : Store) (t : TeamSnapshot) (m : Member) :
  t ∈ findManyTeams s → m ∈ members t →
  tasks m = Evaluator.openTasksOf s (member_id (row m))
  ∧ row m ∈ teamMember s.
Proof.
  unfold findManyTeams. intros Ht Hm.
  apply list_elem_of_fmap in Ht as (tm & -> & _). simpl in Hm.
  apply list_elem_of_fmap in Hm as (r & -> & Hr). simpl.
  apply list_elem_of_filter in Hr as [_ Hr]. done.
Qed.

Lemma applyWrites_task_lookup (ws : list DbWrite) (s : Store) k task0 :
  task s !! k = Some task0 →
  (∀ id new, TaskUpdate id new ∈ ws → id ≠ task_id task0) →
  task (foldl applyWrite s ws) !! k = Some task0.
Proof.
  revert s. induction ws as [|w ws IH]; intros s Hk Hids; simpl; [done|].
  apply IH.
  - destruct w as [id new|entry]; simpl; [|done].
    rewrite list_lookup_fmap, Hk. simpl.
    assert (id ≠ task_id task0) as Hne by (apply (Hids id new); by left).
    destruct (String.eqb_spec (task_id task0) id); [congruence|done].
  - intros id new Hin. apply (Hids id new). by right.
Qed.

Lemma NoDup_fmap_eq {A B : Type} (f : A → B) (l : list A) x y :
  NoDup (f <$> l) → x ∈ l → y ∈ l → f x = f y → x = y.
Proof.
  intros Hnd Hx Hy E.
  apply list_elem_of_lookup in Hx as [i Hi]. apply list_elem_of_lookup in Hy as [j Hj].
  assert (i = j) as ->; [|congruence].
  apply (NoDup_lookup (f <$> l) i j (f x)); [done|..];
    rewrite list_lookup_fmap; [by rewrite Hi | by rewrite Hj, E].
Qed.
End MovedTasks.

Lemma sweep_writes_tasks (users : list User) (userId : string)
    (teams : list Rebalancer.TeamSnapshot) (w : Rebalancer.DbWrite) :
  w ∈ Rebalancer.run_writes (Rebalancer.sweep users userId teams) →
  ∃ t om task,
    t ∈ teams ∧ om ∈ Rebalancer.members t ∧ task ∈ Rebalancer.tasks om
    ∧ priority task ≠ HIGH
    ∧ match w with
      | Rebalancer.TaskUpdate id _ => id = task_id task
      | Rebalancer.ActivityLogCreate entry => log_taskId entry = task_id task
      end.
Proof.
  rewrite sweep_refines. simpl. intros Hw. apply elem_of_committed in Hw.
  apply elem_of_writesOf in Hw as (t & mv & Ht & Hmv & Hw).
  destruct (movesOf_move _ t mv Hmv) as (om & _ & Hom & _ & _ & Htask & Hprio & _).
  exists t, om, (Spec.mv_task mv).
  split_and!; [done|by eapply list_elem_of_lookup_2|done|done|].
  unfold Spec.writesOfMove in Hw.
  apply elem_of_cons in Hw as [->|Hw]; [done|].
  apply list_elem_of_singleton in Hw as ->. done.
Qed.

(** C4.  Every reassignment record, task update and audit entry of the
    sweep is for a task of the snapshot whose priority is not HIGH; and in
    a store whose task ids are distinct, the row of every HIGH task is the
    same after the handler as before, whoever calls it and whether or not
    the sweep completes. *)
Theorem sweep_never_moves_high (users : list User) (userId : string)
    (teams : list Rebalancer.TeamSnapshot) :
  (∀ r, r ∈ Rebalancer.run_reassignments (Rebalancer.sweep users userId teams) →
     ∃ t om task,
       t ∈ teams ∧ om ∈ Rebalancer.members t ∧ task ∈ Rebalancer.tasks om
       ∧ priority task ≠ HIGH
       ∧ Rebalancer.taskId r = task_id task
       ∧ Rebalancer.taskTitle r = title task)
  ∧ (∀ w, w ∈ Rebalancer.run_writes (Rebalancer.sweep users userId teams) →
     ∃ t om task,
       t ∈ teams ∧ om ∈ Rebalancer.members t ∧ task ∈ Rebalancer.tasks om
       ∧ priority task ≠ HIGH
       ∧ match w with
         | Rebalancer.TaskUpdate id _ => id = task_id task
         | Rebalancer.ActivityLogCreate entry => log_taskId entry = task_id task
         end)
  ∧ (∀ (caller : option string) (s : Store) k task0,
       NoDup (task_id <$> task s) →
       task s !! k = Some task0 → priority task0 = HIGH →
       task (Rebalancer.POST caller s).2 !! k = Some task0
       ∧ ∀ message rs r,
           (Rebalancer.POST caller s).1 = Rebalancer.Ok200 message rs →
           r ∈ rs → Rebalancer.taskId r ≠ task_id task0).
Proof.
  split_and!.
  - rewrite sweep_refines. simpl. intros r Hr. apply elem_of_reported in Hr.
    apply elem_of_reassignmentsOf in Hr as (t & mv & Ht & Hmv & ->).
    destruct (movesOf_move _ t mv Hmv) as (om & _ & Hom & _ & _ & Htask & Hprio & _).
    exists t, om, (Spec.mv_task mv).
    split_and!; [done|by eapply list_elem_of_lookup_2|done..].
  - apply sweep_writes_tasks.
  - intros caller s k task0 Hnd Hk Hhigh.
    assert (∀ t om task0', t ∈ Rebalancer.findManyTeams s →
              om ∈ Rebalancer.members t → task0' ∈ Rebalancer.tasks om →
              priority task0' ≠ HIGH → task_id task0' ≠ task_id task0) as Hother.
    { intros t om task0' Ht Hom Htask Hprio E.
      destruct (findManyTeams_tasks s t om Ht Hom) as [Htasks _].
      rewrite Htasks in Htask. unfold Evaluator.openTasksOf in Htask.
      apply list_elem_of_filter in Htask as [_ Htask].
      apply list_elem_of_lookup_2 in Hk.
      assert (task0' = task0) by by eapply (NoDup_fmap_eq task_id).
      congruence. }
    unfold Rebalancer.POST. destruct (negb (Js.truthy caller)); simpl.
    { split; [done|]. intros ? ? ? [=]. }
    split.
    + apply applyWrites_task_lookup; [done|]. intros id new Hw.
      apply sweep_writes_tasks in Hw as (t & om & task0' & Ht & Hom & Htask & Hprio & ->).
      by eapply Hother.
    + intros message rs r Hresponse Hr.
      destruct (Rebalancer.run_thrown _); [done|].
      injection Hresponse as _ <-.
      rewrite sweep_refines in Hr. simpl in Hr. apply elem_of_reported in Hr.
      apply elem_of_reassignmentsOf in Hr as (t & mv & Ht & Hmv & ->).
      destruct (movesOf_move _ t mv Hmv)
        as (om & _ & Hom & _ & _ & Htask & Hprio & _).
      simpl. eapply Hother; [done|by eapply list_elem_of_lookup_2|done..].
Qed.

(** The HIGH task of scenario A keeps its row through the handler. *)
Lemma sweep_never_moves_high_witness :
  task (Rebalancer.POST (Some "user-1") Scenarios.storeA).2 !! 0%nat
  = Some (Scenarios.openTask "t1" HIGH "m1").
Proof.
  apply (proj2 (proj2 (sweep_never_moves_high [] "user-1" []))
           (Some "user-1") Scenarios.storeA 0%nat
           (Scenarios.openTask "t1" HIGH "m1")).
  - apply (bool_decide_unpack _). vm_compute. exact I.
  - reflexivity.
  - reflexivity.
Defined.

(** C7.  When no member of any team holds more open tasks than its
    capacity, the sweep issues no write, returns no reassignment and does
    not throw; the handler then answers with an empty list and a count of
    zero and leaves the store as it was. *)
Theorem sweep_without_overload (users : list User) (userId : string) :
  (∀ teams,
     (∀ t m, t ∈ teams → m ∈ Rebalancer.members t →
             Js.length (Rebalancer.tasks m) ≤ capacity (Rebalancer.row m)) →
     Rebalancer.sweep users userId teams = Rebalancer.mkRun [] [] false)
  ∧ (∀ s,
       (∀ m, m ∈ teamMember s →
             Evaluator.getMemberActiveTaskCount s (member_id m) ≤ capacity m) →
       Js.truthy (Some userId) = true →
       Rebalancer.POST (Some userId) s
       = (Rebalancer.Ok200 "Successfully reassigned 0 task(s)" [], s)).
Proof.
  assert (∀ users teams,
     (∀ t m, t ∈ teams → m ∈ Rebalancer.members t →
             Js.length (Rebalancer.tasks m) ≤ capacity (Rebalancer.row m)) →
     Rebalancer.sweep users userId teams = Rebalancer.mkRun [] [] false) as Hsweep.
  { intros users' teams Hno. rewrite sweep_refines.
    assert (Spec.writesOf userId Spec.PerOverloadedMember teams = []
            ∧ Spec.reassignmentsOf Spec.PerOverloadedMember teams = []) as [-> ->].
    { unfold Spec.writesOf, Spec.reassignmentsOf.
      induction teams as [|t teams IH]; [done|].
      rewrite !bind_cons, no_overload_no_moves by (intros m; apply Hno; by left).
      simpl. apply IH. intros t' m Ht'. apply Hno. by right. }
    by destruct (Rebalancer.userExists users' userId). }
  split; [apply Hsweep|].
  intros s Hno Huser. unfold Rebalancer.POST. rewrite Huser. simpl.
  rewrite Hsweep; [done|].
  intros t m Ht Hm. destruct (findManyTeams_tasks s t m Ht Hm) as [-> Hrow].
  by apply Hno.
Qed.

(** The sweep of a store in which nobody is overloaded. *)
Lemma sweep_without_overload_witness :
  Rebalancer.POST (Some "user-1") Scenarios.storeB
  = (Rebalancer.Ok200 "Successfully reassigned 0 task(s)" [], Scenarios.storeB).
Proof.
  apply (proj2 (sweep_without_overload [] "user-1") Scenarios.storeB).
  - intros m Hm. apply list_elem_of_In in Hm. simpl in Hm.
    destruct Hm as [<-|[<-|[]]]; vm_compute; discriminate.
  - reflexivity.
Defined.

(** ** Members at or over capacity *)

Lemma full_member_keeps_tasks (users : list User) (userId : string)
    (t : Rebalancer.TeamSnapshot)
    (ws : list Rebalancer.DbWrite) (rs : list Rebalancer.Reassignment)
    (i : nat) (m : Rebalancer.Member) :
  Rebalancer.members t !! i = Some m →
  capacity (Rebalancer.row m) ≤ Js.length (Rebalancer.tasks m) →
  Rebalancer.objects (Rebalancer.sweepTeamState users userId t ws rs) !! i = Some m
  ∧ (∀ mv, mv ∈ Spec.movesOf Spec.PerOverloadedMember t → Spec.mv_to mv ≠ i)
  ∧ (∀ pre, Spec.capOf (Rebalancer.members t) i
            ≤ Spec.runningCount (Rebalancer.members t) pre i).
Proof.
  intros Hi Hfull.
  destruct (sweepTeamState_refines users userId t ws rs) as (_ & Hset & _).
  split_and!.
  - by apply Hset.
  - intros mv Hmv E.
    destruct (movesOf_move _ t mv Hmv) as (_ & target & _ & _ & _ & _ & _ & Hto & Hlt).
    rewrite E, Hi in Hto. injection Hto as <-. unfold Spec.openTaskCount in Hlt. lia.
  - intros pre. unfold Spec.runningCount, Spec.capOf, Spec.countOf.
    rewrite list_lookup_fmap, Hi. simpl.
    unfold Spec.openTaskCount, Js.length in *. lia.
Qed.

(** C10.  A member that holds more open tasks than its capacity in the
    snapshot receives no task during the sweep: its task array is, when its
    team has been processed, the array of the snapshot (shedding tasks does
    not shorten it), no move has it as target, and its running count stays
    above its capacity after any number of moves; this whether the store
    accepts the audit entries of the sweep or refuses them. *)
Theorem overloaded_member_never_receives (users : list User) (userId : string)
    (t : Rebalancer.TeamSnapshot)
    (ws : list Rebalancer.DbWrite) (rs : list Rebalancer.Reassignment)
    (i : nat) (m : Rebalancer.Member) :
  Rebalancer.members t !! i = Some m →
  capacity (Rebalancer.row m) < Js.length (Rebalancer.tasks m) →
  let ok := Rebalancer.userExists users userId in
  let st := Rebalancer.sweepTeamState users userId t ws rs in
  let mvs := Spec.movesOf Spec.PerOverloadedMember t in
  Rebalancer.objects st !! i = Some m
  ∧ Rebalancer.writes st
    = ws ++ Spec.committed ok (mvs ≫= Spec.writesOfMove userId t)
  ∧ Rebalancer.reassignments st = rs ++ Spec.reported ok (Spec.recordOf t <$> mvs)
  ∧ (∀ mv, mv ∈ mvs → Spec.mv_to mv ≠ i)
  ∧ (∀ pre, Spec.capOf (Rebalancer.members t) i
            < Spec.runningCount (Rebalancer.members t) pre i)
  ∧ (∀ available,
       Rebalancer.targetMember (Rebalancer.objects st) available ≠ Some i).
Proof.
  intros Hi Hover ok st mvs.
  destruct (full_member_keeps_tasks users userId t ws rs i m Hi) as (Hobj & Hto & _);
    [lia|].
  destruct (sweepTeamState_refines users userId t ws rs) as (_ & _ & Hw & Hr & _).
  split_and!; try done.
  - intros pre. unfold Spec.runningCount, Spec.capOf, Spec.countOf.
    rewrite list_lookup_fmap, Hi. simpl.
    unfold Spec.openTaskCount, Js.length in *. lia.
  - intros available Htarget. apply targetMember_Some in Htarget as [_ Hlt].
    unfold Rebalancer.tasksLength, Rebalancer.capacityOf in Hlt.
    fold st in Hobj. rewrite Hobj in Hlt. simpl in Hlt. lia.
Qed.

(** In scenario A the overloaded member sheds a task and keeps its array. *)
Lemma overloaded_member_never_receives_witness :
  Rebalancer.objects
    (Rebalancer.sweepTeamState [Scenarios.theUser] "user-1" Scenarios.scenarioA [] [])
    !! 0%nat
  = Rebalancer.members Scenarios.scenarioA !! 0%nat.
Proof.
  refine (proj1 (overloaded_member_never_receives [Scenarios.theUser] "user-1"
                   Scenarios.scenarioA [] [] 0%nat _ eq_refl _)).
  vm_compute. reflexivity.
Defined.

(** C6.  The sweep takes a member as overloaded exactly when it holds
    strictly more open tasks than its capacity.  A member that holds exactly
    as many is not overloaded: the sweep neither takes a task from it nor
    gives one to it, and its task array is unchanged; while
    [validateTaskAssignment] without [force] answers [Warned] for a member of
    the store whose load equals its capacity, the load of a member of the
    store being the length of the task array the sweep reads for it. *)
Theorem at_capacity_member_untouched (users : list User) (userId : string) :
  (∀ h i, i ∈ Rebalancer.overloadedMembers h ↔
          ∃ m, h !! i = Some m
               ∧ capacity (Rebalancer.row m) < Js.length (Rebalancer.tasks m))
  ∧ (∀ t ws rs i m,
       Rebalancer.members t !! i = Some m →
       Js.length (Rebalancer.tasks m) = capacity (Rebalancer.row m) →
       let ok := Rebalancer.userExists users userId in
       let st := Rebalancer.sweepTeamState users userId t ws rs in
       let mvs := Spec.movesOf Spec.PerOverloadedMember t in
       (i ∉ Rebalancer.overloadedMembers (Rebalancer.members t))
       ∧ Rebalancer.objects st !! i = Some m
       ∧ Rebalancer.writes st
         = ws ++ Spec.committed ok (mvs ≫= Spec.writesOfMove userId t)
       ∧ Rebalancer.reassignments st
         = rs ++ Spec.reported ok (Spec.recordOf t <$> mvs)
       ∧ ∀ mv, mv ∈ mvs → Spec.mv_from mv ≠ i ∧ Spec.mv_to mv ≠ i)
  ∧ (∀ s memberId m,
       Evaluator.findUniqueMember s memberId = Some m →
       Evaluator.getMemberActiveTaskCount s memberId = capacity m →
       Evaluator.validateTaskAssignment s memberId false
       = Evaluator.Warned
           (Evaluator.warningMessage (member_name m) (capacity m) (capacity m))
           (capacity m) (capacity m))
  ∧ (∀ s t mo,
       t ∈ Rebalancer.findManyTeams s → mo ∈ Rebalancer.members t →
       Js.length (Rebalancer.tasks mo)
       = Evaluator.getMemberActiveTaskCount s (member_id (Rebalancer.row mo))).
Proof.
  assert (∀ h i, i ∈ Rebalancer.overloadedMembers h ↔
          ∃ m, h !! i = Some m
               ∧ capacity (Rebalancer.row m) < Js.length (Rebalancer.tasks m))
    as Hover.
  { intros h i. rewrite overloadedMembers_overloaded. apply elem_of_overloaded. }
  split_and!; [done|..].
  - intros t ws rs i m Hi Heq ok st mvs.
    destruct (full_member_keeps_tasks users userId t ws rs i m Hi) as (Hobj & Hto & _);
      [lia|].
    destruct (sweepTeamState_refines users userId t ws rs) as (_ & _ & Hw & Hr & _).
    split_and!; try done.
    + rewrite Hover. intros (m' & Hm' & Hgt). rewrite Hi in Hm'.
      injection Hm' as <-. lia.
    + intros mv Hmv. split; [|by apply Hto]. intros E.
      destruct (movesOf_move _ t mv Hmv) as (om & _ & Hom & Hgt & _).
      rewrite E, Hi in Hom. injection Hom as <-.
      unfold Spec.openTaskCount in Hgt. lia.
  - intros s memberId m Hfind Hload.
    unfold Evaluator.validateTaskAssignment.
    rewrite (isMemberOverCapacity_found _ _ _ Hfind), Hload. simpl.
    by destruct (Z.geb_spec (capacity m) (capacity m)); [|lia].
  - intros s t mo Ht Hmo.
    destruct (findManyTeams_tasks s t mo Ht Hmo) as [-> _]. done.
Qed.

(** Scenario B: the member at capacity 3 with 3 open tasks gets a warning. *)
Lemma at_capacity_member_untouched_witness :
  Evaluator.validateTaskAssignment Scenarios.storeB "m3" false
  = Evaluator.Warned "Cy has 3 tasks but capacity is 3. Assign anyway?" 3 3.
Proof.
  apply (proj1 (proj2 (proj2 (at_capacity_member_untouched [] "user-1")))
           Scenarios.storeB "m3" Scenarios.m3); reflexivity.
Defined.

(** ** The tasks chosen for reassignment *)

Section ScenarioA.
Import Rebalancer.
Context (tm : Team) (r1 r2 : TeamMember) (ts : list Task) (tl tmed th : Task).
Hypothesis (Hc1 : capacity r1 = 2) (Hc2 : capacity r2 = 2).
Hypothesis (Hid : member_id r1 ≠ member_id r2).
Hypothesis (Hperm : ts ≡ₚ [tl; tmed; th]).
Hypothesis (Hl : priority tl = LOW) (Hm : priority tmed = MEDIUM)
           (Hh : priority th = HIGH).

Lemma scenarioA_toReassign : Spec.toReassign (mkMember r1 ts) = [tl].
Proof.
  assert (List.length ts = 3%nat) as Hlen by by rewrite Hperm.
  assert (filter (λ t, priority t = LOW) ts = [tl]) as HL.
  { apply Permutation_singleton_r. rewrite Hperm.
    rewrite !filter_cons, Hl, Hm, Hh. simpl. done. }
  unfold Spec.toReassign, Spec.eligible, Spec.openTaskCount, Js.length. simpl.
  rewrite Hlen, Hc1, HL. done.
Qed.

Lemma scenarioA_moves :
  Spec.movesOf Spec.PerOverloadedMember
    (mkTeamSnapshot tm [mkMember r1 ts; mkMember r2 []])
  = [Spec.mkMove tl 0 1].
Proof.
  assert (List.length ts = 3%nat) as Hlen by by rewrite Hperm.
  unfold Spec.movesOf, Spec.sweepTeam. simpl.
  unfold Spec.overloaded. simpl.
  unfold Spec.openTaskCount, Js.length. simpl. rewrite Hlen.
  rewrite !filter_cons. unfold Spec.countOf, Spec.capOf. simpl. rewrite Hc1, Hc2.
  simpl. rewrite scenarioA_toReassign.
  assert (Spec.available [mkMember r1 ts; mkMember r2 []] [Z.of_nat 3; Z.of_nat 0]
          = [1%nat]) as ->.
  { unfold Spec.available. simpl. rewrite !filter_cons.
    unfold Spec.countOf, Spec.capOf. simpl. rewrite Hc1, Hc2. done. }
  assert (Spec.others [mkMember r1 ts; mkMember r2 []] 0 [1%nat] = [1%nat]) as ->.
  { unfold Spec.others. rewrite filter_cons. unfold Spec.identityOf. simpl.
    by rewrite decide_True by congruence. }
  simpl. unfold Spec.countOf, Spec.capOf. simpl. rewrite Hc2. done.
Qed.

Lemma scenarioA_moves_teammate_first :
  Spec.movesOf Spec.PerOverloadedMember
    (mkTeamSnapshot tm [mkMember r2 []; mkMember r1 ts])
  = [Spec.mkMove tl 1 0].
Proof.
  assert (List.length ts = 3%nat) as Hlen by by rewrite Hperm.
  unfold Spec.movesOf, Spec.sweepTeam. simpl.
  unfold Spec.overloaded. simpl.
  unfold Spec.openTaskCount, Js.length. simpl. rewrite Hlen.
  rewrite !filter_cons. unfold Spec.countOf, Spec.capOf. simpl. rewrite Hc1, Hc2.
  simpl. rewrite scenarioA_toReassign.
  assert (Spec.available [mkMember r2 []; mkMember r1 ts] [Z.of_nat 0; Z.of_nat 3]
          = [0%nat]) as ->.
  { unfold Spec.available. simpl. rewrite !filter_cons.
    unfold Spec.countOf, Spec.capOf. simpl. rewrite Hc1, Hc2. done. }
  assert (Spec.others [mkMember r2 []; mkMember r1 ts] 1 [0%nat] = [0%nat]) as ->.
  { unfold Spec.others. rewrite filter_cons. unfold Spec.identityOf. simpl.
    by rewrite decide_True by congruence. }
  simpl. unfold Spec.countOf, Spec.capOf. simpl. rewrite Hc2. done.
Qed.
End ScenarioA.

(** C5.  For an overloaded member the tasks chosen for reassignment are the
    first [excess = open tasks - capacity] of its open tasks that are not
    HIGH, the LOW ones before the MEDIUM ones (each group in the order of
    the member's task array); when there are no more than [excess] such
    tasks they are all chosen, and the member can remain over capacity.
    The tasks the sweep takes from a member are the first of those chosen,
    in that order.  In particular, a member of capacity 2 with one LOW, one
    MEDIUM and one HIGH open task and a teammate of capacity 2 without open
    tasks: the sweep moves the LOW task to the teammate and nothing else,
    with its audit entry and its record when the store accepts the entry,
    and throwing after the task update when it refuses it. *)
Theorem tasksToReassign_lowest_first (users : list User) (userId : string) :
  let ok := Rebalancer.userExists users userId in
  (∀ om,
     capacity (Rebalancer.row om) < Js.length (Rebalancer.tasks om) →
     let excess := Js.length (Rebalancer.tasks om) - capacity (Rebalancer.row om) in
     let eligible := filter (λ t, priority t = LOW) (Rebalancer.tasks om)
                     ++ filter (λ t, priority t = MEDIUM) (Rebalancer.tasks om) in
     Rebalancer.tasksToReassign om = take (Z.to_nat excess) eligible
     ∧ (∀ task, task ∈ eligible ↔
                task ∈ Rebalancer.tasks om ∧ priority task ≠ HIGH)
     ∧ (Js.length eligible ≤ excess → Rebalancer.tasksToReassign om = eligible))
  ∧ (∀ t ws rs i om,
       Rebalancer.members t !! i = Some om →
       let st := Rebalancer.sweepTeamState users userId t ws rs in
       let mvs := Spec.movesOf Spec.PerOverloadedMember t in
       let shed := filter (λ mv, Spec.mv_from mv = i) mvs in
       Rebalancer.writes st
       = ws ++ Spec.committed ok (mvs ≫= Spec.writesOfMove userId t)
       ∧ Rebalancer.reassignments st
         = rs ++ Spec.reported ok (Spec.recordOf t <$> mvs)
       ∧ (capacity (Rebalancer.row om) < Js.length (Rebalancer.tasks om) →
          Spec.mv_task <$> shed
          = take (List.length shed) (Rebalancer.tasksToReassign om))
       ∧ (Js.length (Rebalancer.tasks om) ≤ capacity (Rebalancer.row om) →
          shed = []))
  ∧ (Rebalancer.sweep users userId [Scenarios.scenarioC] = Rebalancer.mkRun [] [] false
     ∧ taskUpdates
         (Rebalancer.run_writes (Rebalancer.sweep users userId [Scenarios.partialRelief]))
       = [("t3", "m2")])
  ∧ (∀ tm r1 r2 ts tl tmed th,
       capacity r1 = 2 → capacity r2 = 2 → member_id r1 ≠ member_id r2 →
       ts ≡ₚ [tl; tmed; th] →
       priority tl = LOW → priority tmed = MEDIUM → priority th = HIGH →
       let moved := λ members,
         Rebalancer.sweep users userId [Rebalancer.mkTeamSnapshot tm members] in
       let update := Rebalancer.TaskUpdate (task_id tl) (member_id r2) in
       let expected :=
         if ok
         then Rebalancer.mkRun
                [ update;
                  Rebalancer.ActivityLogCreate
                    (mkActivityLog (task_id tl)
                       (Rebalancer.reassignedAction (member_name r1) (member_name r2))
                       (Rebalancer.reassignedDescription (title tl)
                          (member_name r1) (member_name r2))
                       userId) ]
                [ Rebalancer.mkReassignment (task_id tl) (title tl)
                    (member_name r1) (member_name r2) (team_name tm) ]
                false
         else Rebalancer.mkRun [update] [] true in
       moved [Rebalancer.mkMember r1 ts; Rebalancer.mkMember r2 []] = expected
       ∧ moved [Rebalancer.mkMember r2 []; Rebalancer.mkMember r1 ts] = expected
       ∧ taskUpdates (Rebalancer.run_writes expected)
         = [(task_id tl, member_id r2)]).
Proof.
  intros ok. split_and!.
  - intros om Hover excess eligible.
    assert (Rebalancer.tasksToReassign om = take (Z.to_nat excess) eligible) as Htake.
    { rewrite tasksToReassign_toReassign
        by (unfold Rebalancer.excessCount; lia). done. }
    split_and!; [done|apply elem_of_eligible|].
    intros Hfew. rewrite Htake. apply take_ge.
    unfold Js.length in Hfew. lia.
  - intros t ws rs i om Hi st mvs shed.
    destruct (sweepTeamState_refines users userId t ws rs) as (_ & _ & Hw & Hr & _).
    destruct (processOverloaded_prefix Spec.PerOverloadedMember
                (Rebalancer.members t)
                (Spec.available (Rebalancer.members t)
                   (Spec.openTaskCount <$> Rebalancer.members t))
                (Spec.overloaded (Rebalancer.members t))
                (Spec.openTaskCount <$> Rebalancer.members t) i
                (overloaded_NoDup _)) as [Hpre Hnone].
    rewrite Hi in Hpre. simpl in Hpre.
    split_and!; try done.
    + intros Hover. rewrite tasksToReassign_toReassign
        by (unfold Rebalancer.excessCount; lia). exact Hpre.
    + intros Hle. apply Hnone. rewrite elem_of_overloaded.
      intros (m' & Hm' & Hgt). rewrite Hi in Hm'. injection Hm' as <-.
      unfold Spec.openTaskCount in Hgt. lia.
  - rewrite sweep_refines. fold ok. by destruct ok.
  - rewrite sweep_refines. fold ok. cbn [Rebalancer.run_writes].
    rewrite taskUpdates_committed. by destruct ok.
  - intros tm r1 r2 ts tl tmed th Hc1 Hc2 Hid Hperm Hl Hm Hh.
    cbv beta zeta. rewrite !sweep_refines. fold ok.
    unfold Spec.writesOf, Spec.reassignmentsOf.
    rewrite !bind_cons.
    rewrite (scenarioA_moves tm r1 r2 ts tl tmed th),
            (scenarioA_moves_teammate_first tm r1 r2 ts tl tmed th) by done.
    by destruct ok.
Qed.

(** Scenario B: the load of the member at capacity is reported as over
    capacity. *)
Lemma isMemberOverCapacity_inclusive_witness :
  Evaluator.overCapacity (Evaluator.isMemberOverCapacity Scenarios.storeB "m3") = true.
Proof.
  refine (proj2 (proj2 (proj2 (proj2
    (isMemberOverCapacity_inclusive Scenarios.storeB "m3" Scenarios.m3 eq_refl)))) _).
  reflexivity.
Defined.

(** * Further properties of the sweep *)

Section SweepTrace.
Import Rebalancer.
Implicit Types (ms : list Member) (c : list Z) (i j : nat) (mvs : list Spec.Move).

Lemma processOverloaded_others mode ms atTeamStart todo c :
  Forall (λ mv, Spec.identityOf ms (Spec.mv_to mv)
                ≠ Spec.identityOf ms (Spec.mv_from mv))
         (Spec.processOverloaded mode ms atTeamStart todo c).1.
Proof.
  revert c. induction todo as [|i rest IH]; intros c; simpl; [done|].
  set (avail := match mode with
                | Spec.OncePerTeam => atTeamStart
                | Spec.PerOverloadedMember => Spec.available ms c
                end).
  destruct (assign_moves ms (Spec.others ms i avail) i
              (from_option Spec.toReassign [] (ms !! i)) c) as (_ & A2 & _ & _).
  apply Forall_app. split; [|apply IH].
  eapply Forall_impl; [exact A2|]. simpl. intros mv [-> Hin].
  unfold Spec.others in Hin. apply list_elem_of_filter in Hin as [Hne _]. done.
Qed.

Lemma movesOf_distinct_ids mode (t : TeamSnapshot) mv :
  mv ∈ Spec.movesOf mode t →
  Spec.identityOf (members t) (Spec.mv_to mv)
  ≠ Spec.identityOf (members t) (Spec.mv_from mv).
Proof.
  unfold Spec.movesOf, Spec.sweepTeam. intros Hmv.
  pose proof (processOverloaded_others mode (members t)
    (Spec.available (members t) (Spec.openTaskCount <$> members t))
    (Spec.overloaded (members t)) (Spec.openTaskCount <$> members t)) as H.
  rewrite Forall_forall in H. by apply H.
Qed.

Lemma writesOfMove_writesOfRecord userId (t : TeamSnapshot) mv :
  Spec.writesOfMove userId t mv
  = writesOfRecord userId (Spec.recordOf t mv) (Spec.assignmentOf t mv).2.
Proof. done. Qed.

Lemma assignmentsOf_length mode teams :
  List.length (Spec.assignmentsOf mode teams)
  = List.length (Spec.reassignmentsOf mode teams).
Proof.
  unfold Spec.assignmentsOf, Spec.reassignmentsOf.
  induction teams as [|t teams IH]; [done|].
  rewrite !bind_cons, !length_app, !length_fmap, IH. done.
Qed.

Lemma writesOfMove_zip userId (t : TeamSnapshot) mvs :
  mvs ≫= Spec.writesOfMove userId t
  = zip (Spec.recordOf t <$> mvs) (Spec.assignmentOf t <$> mvs).*2
      ≫= (λ p, writesOfRecord userId p.1 p.2).
Proof.
  induction mvs as [|mv mvs IH]; [done|].
  rewrite !fmap_cons. cbn [zip_with]. rewrite !bind_cons, <- IH. done.
Qed.

Lemma writesOf_zip userId mode teams :
  Spec.writesOf userId mode teams
  = zip (Spec.reassignmentsOf mode teams) (Spec.assignmentsOf mode teams).*2
      ≫= (λ p, writesOfRecord userId p.1 p.2).
Proof.
  unfold Spec.writesOf, Spec.reassignmentsOf, Spec.assignmentsOf.
  induction teams as [|t teams IH]; [done|].
  rewrite !bind_cons, fmap_app, zip_with_app, bind_app, <- IH
    by by rewrite !length_fmap.
  f_equal. apply writesOfMove_zip.
Qed.

Lemma length_writesOfRecord userId (l : list (Reassignment * string)) :
  List.length (l ≫= (λ p, writesOfRecord userId p.1 p.2)) = (2 * List.length l)%nat.
Proof.
  induction l as [|p l IH]; [done|].
  rewrite bind_cons, length_app, IH. simpl. lia.
Qed.

Lemma assignmentsOf_ids mode teams :
  (Spec.assignmentsOf mode teams).*1 = taskId <$> Spec.reassignmentsOf mode teams.
Proof.
  unfold Spec.assignmentsOf, Spec.reassignmentsOf.
  induction teams as [|t teams IH]; [done|].
  rewrite !bind_cons, !fmap_app, IH. f_equal.
  rewrite <- !list_fmap_compose. done.
Qed.
End SweepTrace.

(** X2.  A sweep that completes has written, in the order of the
    reassignments it returns, one task update for the task of each record
    followed by one audit entry built from that record: two writes per
    reassignment and nothing else.  A sweep that throws has written one
    task update, no audit entry, and holds no record; the sweep throws only
    when the caller's id is not the id of a row of [User]. *)
Theorem sweep_writes_match_records (users : list User) (userId : string)
    (teams : list Rebalancer.TeamSnapshot) :
  let out := Rebalancer.sweep users userId teams in
  let ws := Rebalancer.run_writes out in
  let rs := Rebalancer.run_reassignments out in
  if Rebalancer.run_thrown out
  then rs = [] ∧ (∃ id new, ws = [Rebalancer.TaskUpdate id new])
       ∧ userId ∉ user_id <$> users
  else ws = zip rs (taskUpdates ws).*2 ≫= (λ p, writesOfRecord userId p.1 p.2)
       ∧ List.length (taskUpdates ws) = List.length rs
       ∧ (taskUpdates ws).*1 = Rebalancer.taskId <$> rs
       ∧ List.length ws = (2 * List.length rs)%nat.
Proof.
  cbv zeta. rewrite sweep_refines.
  cbn [Rebalancer.run_thrown Rebalancer.run_writes Rebalancer.run_reassignments].
  destruct (Spec.failed _ _) eqn:Hfailed.
  - destruct (Rebalancer.userExists users userId) eqn:Hok; [done|].
    simpl in *. split_and!; [done| |].
    + pose proof (writesOf_head userId Spec.PerOverloadedMember teams) as Hhead.
      destruct (Spec.writesOf userId Spec.PerOverloadedMember teams) as [|w ws];
        [done|].
      destruct Hhead as (u & us & -> & _). by exists u.1, u.2.
    + intros Hin. apply userExists_true in Hin. congruence.
  - destruct (completed_sweep _ _ _ _ Hfailed) as [-> ->].
    rewrite taskUpdates_writesOf.
    assert (Spec.writesOf userId Spec.PerOverloadedMember teams
            = zip (Spec.reassignmentsOf Spec.PerOverloadedMember teams)
                  (Spec.assignmentsOf Spec.PerOverloadedMember teams).*2
              ≫= (λ p, writesOfRecord userId p.1 p.2)) as Hzip
      by apply writesOf_zip.
    split_and!.
    + done.
    + apply assignmentsOf_length.
    + apply assignmentsOf_ids.
    + rewrite Hzip, length_writesOfRecord, length_zip_with_l_eq; [done|].
      by rewrite length_fmap, assignmentsOf_length.
Qed.

(** X3.  Every reassignment takes a task from a member that the snapshot
    has over capacity and gives it to a member of the same team, with
    another id, that the snapshot has under capacity; the record names the
    task, the two members and their team, and the task update behind it
    names the target's id. *)
Theorem sweep_moves_within_team (users : list User) (userId : string)
    (teams : list Rebalancer.TeamSnapshot) (r : Rebalancer.Reassignment) :
  r ∈ Rebalancer.run_reassignments (Rebalancer.sweep users userId teams) →
  ∃ t om target task,
    t ∈ teams ∧ om ∈ Rebalancer.members t ∧ target ∈ Rebalancer.members t
    ∧ task ∈ Rebalancer.tasks om
    ∧ r = Rebalancer.mkReassignment (task_id task) (title task)
            (member_name (Rebalancer.row om))
            (member_name (Rebalancer.row target))
            (team_name (Rebalancer.snap_team t))
    ∧ member_id (Rebalancer.row target) ≠ member_id (Rebalancer.row om)
    ∧ capacity (Rebalancer.row om) < Js.length (Rebalancer.tasks om)
    ∧ Js.length (Rebalancer.tasks target) < capacity (Rebalancer.row target)
    ∧ Rebalancer.TaskUpdate (task_id task) (member_id (Rebalancer.row target))
        ∈ Rebalancer.run_writes (Rebalancer.sweep users userId teams).
Proof.
  rewrite sweep_refines.
  cbn [Rebalancer.run_writes Rebalancer.run_reassignments]. intros Hr.
  destruct (Rebalancer.userExists users userId); [|by apply elem_of_nil in Hr].
  simpl in *.
  apply elem_of_reassignmentsOf in Hr as (t & mv & Ht & Hmv & ->).
  destruct (movesOf_move _ t mv Hmv)
    as (om & target & Hom & Hover & _ & Htask & _ & Htarget & Hunder).
  pose proof (movesOf_distinct_ids _ t mv Hmv) as Hne.
  unfold Spec.identityOf in Hne. rewrite Hom, Htarget in Hne. simpl in Hne.
  exists t, om, target, (Spec.mv_task mv).
  split_and!; try done.
  - by eapply list_elem_of_lookup_2.
  - by eapply list_elem_of_lookup_2.
  - unfold Spec.recordOf, Spec.nameOf. by rewrite Hom, Htarget.
  - apply elem_of_writesOf. exists t, mv. split_and!; try done.
    unfold Spec.writesOfMove, Spec.identityOf. rewrite Htarget. simpl. by left.
Qed.

(** In scenario A, for a caller whose id is the id of her row, the record
    of the sweep is such a move. *)
Lemma sweep_moves_within_team_witness :
  ∃ t om target task,
    t ∈ [Scenarios.scenarioA] ∧ om ∈ Rebalancer.members t
    ∧ target ∈ Rebalancer.members t ∧ task ∈ Rebalancer.tasks om
    ∧ Rebalancer.mkReassignment "t3" "task t3" "Ada" "Bob" "Core"
      = Rebalancer.mkReassignment (task_id task) (title task)
            (member_name (Rebalancer.row om))
            (member_name (Rebalancer.row target))
            (team_name (Rebalancer.snap_team t))
    ∧ member_id (Rebalancer.row target) ≠ member_id (Rebalancer.row om)
    ∧ capacity (Rebalancer.row om) < Js.length (Rebalancer.tasks om)
    ∧ Js.length (Rebalancer.tasks target) < capacity (Rebalancer.row target)
    ∧ Rebalancer.TaskUpdate (task_id task) (member_id (Rebalancer.row target))
        ∈ Rebalancer.run_writes
            (Rebalancer.sweep [Scenarios.theOwner] "owner-1" [Scenarios.scenarioA]).
Proof.
  apply (sweep_moves_within_team [Scenarios.theOwner] "owner-1" [Scenarios.scenarioA]).
  vm_compute. left.
Defined.

Section Liveness.
Import Rebalancer.
Implicit Types (ms : list Member) (c : list Z) (i j : nat).

Lemma processOverloaded_nil ms atTeamStart todo c i :
  (Spec.processOverloaded Spec.PerOverloadedMember ms atTeamStart todo c).1 = [] →
  i ∈ todo →
  (Spec.assign ms (Spec.others ms i (Spec.available ms c)) i
     (from_option Spec.toReassign [] (ms !! i)) c).1 = [].
Proof.
  revert c. induction todo as [|k rest IH]; intros c Hnil Hi.
  { by apply elem_of_nil in Hi. }
  simpl in Hnil. apply app_eq_nil in Hnil as [Hk Hrest].
  destruct (assign_moves ms (Spec.others ms k (Spec.available ms c)) k
              (from_option Spec.toReassign [] (ms !! k)) c) as (_ & _ & _ & Hc).
  rewrite Hk in Hc. simpl in Hc. rewrite Hc in Hrest.
  apply elem_of_cons in Hi as [->|Hi]; [done|]. by apply IH.
Qed.

Lemma elem_of_available ms c j :
  j ∈ Spec.available ms c ↔
  (j < List.length ms)%nat ∧ Spec.countOf c j < Spec.capOf ms j.
Proof.
  unfold Spec.available. rewrite sort_elem_of, list_elem_of_filter, elem_of_seq.
  split; [intros [? [_ ?]]|intros [? ?]]; split_and!; try done; lia.
Qed.

Lemma toReassign_nonempty (om : Member) task :
  capacity (row om) < Js.length (tasks om) →
  task ∈ tasks om → priority task ≠ HIGH →
  Spec.toReassign om ≠ [].
Proof.
  intros Hover Htask Hprio Hnil.
  assert (task ∈ Spec.eligible om) as Hel by by apply elem_of_eligible.
  unfold Spec.toReassign, Spec.openTaskCount in Hnil.
  destruct (Spec.eligible om) as [|x l]; [by apply elem_of_nil in Hel|].
  destruct (Z.to_nat (Js.length (tasks om) - capacity (row om))) eqn:E; [lia|].
  done.
Qed.

(** A team in which an overloaded member holds a task that is not HIGH while
    a member with another id is under capacity gets at least one move. *)
Lemma movesOf_nonempty (t : TeamSnapshot) i om j target task :
  members t !! i = Some om →
  capacity (row om) < Js.length (tasks om) →
  task ∈ tasks om → priority task ≠ HIGH →
  members t !! j = Some target →
  member_id (row target) ≠ member_id (row om) →
  Js.length (tasks target) < capacity (row target) →
  Spec.movesOf Spec.PerOverloadedMember t ≠ [].
Proof.
  intros Hi Hover Htask Hprio Hj Hid Hunder Hnil.
  unfold Spec.movesOf, Spec.sweepTeam in Hnil.
  apply (processOverloaded_nil _ _ _ _ i) in Hnil.
  2:{ apply elem_of_overloaded. exists om. done. }
  rewrite Hi in Hnil. simpl in Hnil.
  destruct (Spec.toReassign om) as [|x rest] eqn:E.
  { by eapply toReassign_nonempty. }
  simpl in Hnil.
  destruct (Js.find _ _) as [k|] eqn:Hfind; [done|].
  unfold Js.find in Hfind.
  assert (Spec.countOf (Spec.openTaskCount <$> members t) j
          < Spec.capOf (members t) j) as Hlt.
  { unfold Spec.countOf, Spec.capOf. rewrite list_lookup_fmap, Hj. done. }
  assert (j ∈ Spec.others (members t) i
               (Spec.available (members t) (Spec.openTaskCount <$> members t)))
    as Hin.
  { unfold Spec.others. apply list_elem_of_filter. split.
    - unfold Spec.identityOf. by rewrite Hi, Hj.
    - apply elem_of_available. split; [|done]. by eapply lookup_lt_Some. }
  apply list_elem_of_In in Hin.
  pose proof (List.find_none _ _ Hfind j Hin) as Hge. simpl in Hge.
  apply Z.ltb_ge in Hge. lia.
Qed.
End Liveness.

(** X4.  The sweep does not leave everything as it is when something can
    be moved: if, in some team, a member over capacity holds a task that is
    not HIGH and a member with another id is under capacity, the sweep
    makes at least one task update.  When the caller's id is the id of a
    row of [User] it then completes and returns at least one reassignment,
    which the handler reports with status 200; otherwise it throws with no
    reassignment, and the handler answers 500. *)
Theorem sweep_moves_when_possible (users : list User) (userId : string)
    (teams : list Rebalancer.TeamSnapshot) (t : Rebalancer.TeamSnapshot)
    (om target : Rebalancer.Member) (task : Task) :
  t ∈ teams →
  om ∈ Rebalancer.members t →
  capacity (Rebalancer.row om) < Js.length (Rebalancer.tasks om) →
  task ∈ Rebalancer.tasks om → priority task ≠ HIGH →
  target ∈ Rebalancer.members t →
  member_id (Rebalancer.row target) ≠ member_id (Rebalancer.row om) →
  Js.length (Rebalancer.tasks target) < capacity (Rebalancer.row target) →
  let out := Rebalancer.sweep users userId teams in
  taskUpdates (Rebalancer.run_writes out) ≠ []
  ∧ (if Rebalancer.userExists users userId
     then Rebalancer.run_thrown out = false ∧ Rebalancer.run_reassignments out ≠ []
     else Rebalancer.run_thrown out = true ∧ Rebalancer.run_reassignments out = [])
  ∧ (∀ s, users = user s → teams = Rebalancer.findManyTeams s →
          Js.truthy (Some userId) = true →
          (Rebalancer.POST (Some userId) s).1
          = if Rebalancer.userExists users userId
            then Rebalancer.Ok200
                   ("Successfully reassigned "
                    +:+ pretty (Js.length (Rebalancer.run_reassignments out))
                    +:+ " task(s)")
                   (Rebalancer.run_reassignments out)
            else Rebalancer.Failed500 "Failed to reassign tasks").
Proof.
  intros Ht Hom Hover Htask Hprio Htarget Hid Hunder.
  enough (let out := Rebalancer.sweep users userId teams in
          taskUpdates (Rebalancer.run_writes out) ≠ []
          ∧ (if Rebalancer.userExists users userId
             then Rebalancer.run_thrown out = false
                  ∧ Rebalancer.run_reassignments out ≠ []
             else Rebalancer.run_thrown out = true
                  ∧ Rebalancer.run_reassignments out = [])) as Hsweep.
  { destruct Hsweep as [Hupdates Hrun]. cbv zeta. split_and!; [done..|].
    intros s -> -> Huser. unfold Rebalancer.POST. rewrite Huser. simpl negb.
    cbv iota. cbn [fst]. change (default "" (Some userId)) with userId.
    destruct (Rebalancer.userExists (user s) userId);
      destruct Hrun as [-> _]; done. }
  apply list_elem_of_lookup in Hom as [i Hi].
  apply list_elem_of_lookup in Htarget as [j Hj].
  pose proof (movesOf_nonempty t i om j target task Hi Hover Htask Hprio Hj Hid Hunder)
    as Hmoves.
  destruct (Spec.movesOf Spec.PerOverloadedMember t) as [|mv mvs] eqn:E; [done|].
  assert (Spec.recordOf t mv ∈ Spec.reassignmentsOf Spec.PerOverloadedMember teams)
    as Hin.
  { apply elem_of_reassignmentsOf. exists t, mv. rewrite E. split_and!; [done| |done].
    by left. }
  assert (Spec.reassignmentsOf Spec.PerOverloadedMember teams ≠ []) as Hrs.
  { intros Hnil. rewrite Hnil in Hin. by apply elem_of_nil in Hin. }
  pose proof (writesOf_head userId Spec.PerOverloadedMember teams) as Hhead.
  cbv zeta. rewrite sweep_refines.
  cbn [Rebalancer.run_thrown Rebalancer.run_writes Rebalancer.run_reassignments].
  rewrite taskUpdates_committed.
  destruct (Spec.writesOf userId Spec.PerOverloadedMember teams) as [|w ws].
  { by destruct Hhead as [_ ?]. }
  destruct Hhead as (u & us & -> & ->).
  by destruct (Rebalancer.userExists users userId).
Qed.

(** Partial relief: one task is eligible and a teammate has room. *)
Lemma sweep_moves_when_possible_witness :
  taskUpdates
    (Rebalancer.run_writes
       (Rebalancer.sweep [Scenarios.theUser] "user-1" [Scenarios.partialRelief]))
  ≠ [].
Proof.
  refine (proj1 (sweep_moves_when_possible [Scenarios.theUser] "user-1"
           [Scenarios.partialRelief] Scenarios.partialRelief
           (Rebalancer.mkMember Scenarios.m4
              [Scenarios.openTask "t1" HIGH "m4"; Scenarios.openTask "t2" HIGH "m4";
               Scenarios.openTask "t3" LOW "m4"])
           (Rebalancer.mkMember Scenarios.m2 [])
           (Scenarios.openTask "t3" LOW "m4") _ _ _ _ _ _ _ _)).
  - by left.
  - by left.
  - vm_compute. reflexivity.
  - right. right. by left.
  - discriminate.
  - right. by left.
  - discriminate.
  - vm_compute. reflexivity.
Defined.

(** The handler on the store of scenario A.  Its user calls with the id
    that [auth()] gives her, which is not the id of her row: the task
    update is made, the audit entry is refused and the answer is 500.  A
    caller whose id is the id of her row gets the reassignment and its
    audit entry. *)
Example storeA_audit_entry_refused :
  Rebalancer.POST (Some "user-1") Scenarios.storeA
  = (Rebalancer.Failed500 "Failed to reassign tasks",
     mkStore [Scenarios.theUser] [Scenarios.theTeam] [Scenarios.m1; Scenarios.m2]
       [ Scenarios.openTask "t1" HIGH "m1"; Scenarios.openTask "t2" MEDIUM "m1";
         Scenarios.openTask "t3" LOW "m2" ]
       []).
Proof. by vm_compute. Qed.

Example storeA_audit_entry_accepted :
  Rebalancer.POST (Some "owner-1")
    (mkStore [Scenarios.theOwner] (team Scenarios.storeA)
       (teamMember Scenarios.storeA) (task Scenarios.storeA) [])
  = (Rebalancer.Ok200 "Successfully reassigned 1 task(s)"
       [Rebalancer.mkReassignment "t3" "task t3" "Ada" "Bob" "Core"],
     mkStore [Scenarios.theOwner] [Scenarios.theTeam] [Scenarios.m1; Scenarios.m2]
       [ Scenarios.openTask "t1" HIGH "m1"; Scenarios.openTask "t2" MEDIUM "m1";
         Scenarios.openTask "t3" LOW "m2" ]
       [ mkActivityLog "t3" "Reassigned from Ada to Bob"
           ("Task " +:+ String (Ascii.ascii_of_nat 34) "task t3"
                    +:+ String (Ascii.ascii_of_nat 34)
                          " reassigned from Ada to Bob")
           "owner-1" ]).
Proof. by vm_compute. Qed.

Section MovedOnce.
Import Rebalancer.
Implicit Types (ms : list Member) (c : list Z) (i j : nat).

Lemma submseteq_NoDup {A : Type} (l k : list A) : l ⊆+ k → NoDup k → NoDup l.
Proof.
  intros Hsub Hk. apply submseteq_Permutation in Hsub as [k' E].
  rewrite E in Hk. by apply NoDup_app in Hk as [? _].
Qed.

Lemma eligible_submseteq (om : Member) : Spec.eligible om ⊆+ tasks om.
Proof.
  unfold Spec.eligible. induction (tasks om) as [|x l IH]; [done|].
  rewrite !filter_cons. destruct (priority x) eqn:E; simpl.
  - by constructor.
  - rewrite <- Permutation_middle. by constructor.
  - by apply submseteq_cons.
Qed.

Lemma toReassign_submseteq (om : Member) : Spec.toReassign om ⊆+ tasks om.
Proof.
  unfold Spec.toReassign. etrans; [|apply eligible_submseteq].
  apply sublist_submseteq, sublist_take.
Qed.

Lemma bind_seq_lookup {A B : Type} (f : A → list B) (l : list A) :
  seq 0 (List.length l) ≫= (λ i, from_option f [] (l !! i)) = l ≫= f.
Proof.
  induction l as [|x l IH]; [done|].
  simpl List.length. rewrite <- cons_seq, <- fmap_S_seq, !bind_cons, list_fmap_bind.
  simpl. by rewrite <- IH.
Qed.

Lemma processOverloaded_tasks mode ms atTeamStart todo c :
  Spec.mv_task <$> (Spec.processOverloaded mode ms atTeamStart todo c).1
  ⊆+ todo ≫= (λ i, from_option tasks [] (ms !! i)).
Proof.
  revert c. induction todo as [|i rest IH]; intros c; simpl; [done|].
  set (avail := match mode with
                | Spec.OncePerTeam => atTeamStart
                | Spec.PerOverloadedMember => Spec.available ms c
                end).
  destruct (assign_moves ms (Spec.others ms i avail) i
              (from_option Spec.toReassign [] (ms !! i)) c) as (A1 & _ & _ & _).
  rewrite fmap_app. apply submseteq_app; [|apply IH].
  rewrite A1. etrans; [apply sublist_submseteq, sublist_take|].
  destruct (ms !! i) as [om|]; simpl; [apply toReassign_submseteq|done].
Qed.

Lemma movesOf_tasks mode (t : TeamSnapshot) :
  Spec.mv_task <$> Spec.movesOf mode t ⊆+ members t ≫= tasks.
Proof.
  unfold Spec.movesOf, Spec.sweepTeam.
  etrans; [apply processOverloaded_tasks|].
  rewrite <- (bind_seq_lookup tasks (members t)).
  apply bind_submseteq, sublist_submseteq. unfold Spec.overloaded.
  apply sublist_filter.
Qed.

Lemma assignmentsOf_tasks mode teams :
  (Spec.assignmentsOf mode teams).*1
  = task_id <$> (teams ≫= λ t, Spec.mv_task <$> Spec.movesOf mode t).
Proof.
  unfold Spec.assignmentsOf. induction teams as [|t teams IH]; [done|].
  rewrite !bind_cons, !fmap_app, IH. f_equal.
  by rewrite <- !list_fmap_compose.
Qed.

Lemma moved_tasks_submseteq mode teams :
  (teams ≫= λ t, Spec.mv_task <$> Spec.movesOf mode t) ⊆+ snapshotTasks teams.
Proof.
  unfold snapshotTasks. induction teams as [|t teams IH]; [done|].
  rewrite !bind_cons. apply submseteq_app; [apply movesOf_tasks|apply IH].
Qed.
End MovedOnce.

(** X5.  No task is reassigned twice in one sweep: when the tasks of the
    snapshot have distinct ids, so have the task updates and the records of
    the sweep, and the tasks moved are among the tasks of the snapshot, each
    at most as often as it occurs there. *)
Theorem sweep_moves_each_task_once (users : list User) (userId : string)
    (teams : list Rebalancer.TeamSnapshot) :
  NoDup (task_id <$> snapshotTasks teams) →
  let out := Rebalancer.sweep users userId teams in
  NoDup (taskUpdates (Rebalancer.run_writes out)).*1
  ∧ NoDup (Rebalancer.taskId <$> Rebalancer.run_reassignments out)
  ∧ (taskUpdates (Rebalancer.run_writes out)).*1
    ⊆+ task_id <$> snapshotTasks teams.
Proof.
  intros Hnd. cbv zeta. rewrite sweep_refines.
  cbn [Rebalancer.run_writes Rebalancer.run_reassignments].
  rewrite taskUpdates_committed.
  assert ((Spec.assignmentsOf Spec.PerOverloadedMember teams).*1
          ⊆+ task_id <$> snapshotTasks teams) as Hsub.
  { rewrite assignmentsOf_tasks. apply fmap_submseteq, moved_tasks_submseteq. }
  assert (NoDup (Rebalancer.taskId
                   <$> Spec.reassignmentsOf Spec.PerOverloadedMember teams)) as Hrs.
  { rewrite <- assignmentsOf_ids. by eapply submseteq_NoDup. }
  destruct (Rebalancer.userExists users userId); simpl.
  - split_and!; [by eapply submseteq_NoDup|done..].
  - assert ((take 1 (Spec.assignmentsOf Spec.PerOverloadedMember teams)).*1
            ⊆+ task_id <$> snapshotTasks teams) as Hsub1.
    { etrans; [|exact Hsub]. apply fmap_submseteq, sublist_submseteq, sublist_take. }
    split_and!; [by eapply submseteq_NoDup|constructor|done].
Qed.

(** The two overloaded members of the team shed three distinct tasks. *)
Lemma sweep_moves_each_task_once_witness :
  NoDup (taskUpdates
           (Rebalancer.run_writes
              (Rebalancer.sweep [Scenarios.theOwner] "owner-1"
                 [Scenarios.twoOverloaded]))).*1.
Proof.
  refine (proj1 (sweep_moves_each_task_once [Scenarios.theOwner] "owner-1"
                   [Scenarios.twoOverloaded] _)).
  apply (bool_decide_unpack _). vm_compute. exact I.
Defined.

(** ** The store after the sweep *)

Section StoreAfterWrites.
Import Rebalancer.

Lemma updateRow_cons u us (r : Task) :
  updateRow (u :: us) r
  = updateRow us (if String.eqb (task_id r) u.1
                  then mkTask (task_id r) (title r) (priority r) (status r) (Some u.2)
                  else r).
Proof. done. Qed.

Lemma updateRow_fields us (r : Task) :
  task_id (updateRow us r) = task_id r
  ∧ title (updateRow us r) = title r
  ∧ priority (updateRow us r) = priority r
  ∧ status (updateRow us r) = status r.
Proof.
  revert r. induction us as [|u us IH]; intros r; [done|].
  rewrite updateRow_cons.
  destruct (IH (if String.eqb (task_id r) u.1
                then mkTask (task_id r) (title r) (priority r) (status r) (Some u.2)
                else r)) as (-> & -> & -> & ->).
  by destruct (String.eqb (task_id r) u.1).
Qed.

Lemma updateRow_untouched us (r : Task) :
  task_id r ∉ us.*1 → updateRow us r = r.
Proof.
  revert r. induction us as [|u us IH]; intros r Hr; [done|].
  rewrite updateRow_cons. rewrite fmap_cons in Hr.
  apply not_elem_of_cons in Hr as [Hne Hr].
  destruct (String.eqb_spec (task_id r) u.1); [done|]. by apply IH.
Qed.

Lemma updateRow_assigned us (r : Task) mid :
  assignedToId (updateRow us r) = Some mid →
  assignedToId r = Some mid ∨ (task_id r, mid) ∈ us.
Proof.
  revert r. induction us as [|u us IH]; intros r Hr; [by left|].
  rewrite updateRow_cons in Hr. apply IH in Hr as [Hr|Hr].
  - destruct (String.eqb_spec (task_id r) u.1) as [E|]; [|by left].
    simpl in Hr. injection Hr as <-. right. rewrite E. destruct u. by left.
  - right. right.
    destruct (String.eqb (task_id r) u.1); done.
Qed.

(** The tables after a series of writes. *)
Lemma applyWrites_tables (ws : list DbWrite) (s : Store) :
  let s' := foldl applyWrite s ws in
  team s' = team s
  ∧ teamMember s' = teamMember s
  ∧ task s' = updateRow (taskUpdates ws) <$> task s
  ∧ activityLog s'
    = activityLog s
      ++ omap (λ w, match w with
                    | ActivityLogCreate entry => Some entry
                    | TaskUpdate _ _ => None
                    end) ws.
Proof.
  revert s. induction ws as [|w ws IH]; intros s; simpl.
  { rewrite app_nil_r. split_and!; try done. by rewrite list_fmap_id. }
  destruct (IH (applyWrite s w)) as (-> & -> & -> & ->).
  destruct w as [id new|entry]; simpl.
  - split_and!; try done. by rewrite <- list_fmap_compose.
  - split_and!; try done. by rewrite <- app_assoc.
Qed.

Lemma omap_log_writesOfRecord userId (l : list (Reassignment * string)) :
  List.length
    (omap (λ w, match w with
                | ActivityLogCreate entry => Some entry
                | TaskUpdate _ _ => None
                end) (l ≫= (λ p, writesOfRecord userId p.1 p.2)))
  = List.length l.
Proof.
  induction l as [|p l IH]; [done|].
  rewrite bind_cons, omap_app, length_app, IH. done.
Qed.
End StoreAfterWrites.

Section StoreSweepFacts.
Import Rebalancer.

Lemma findManyTeams_member (s : Store) (t : TeamSnapshot) (mo : Member) :
  t ∈ findManyTeams s → mo ∈ members t →
  snap_team t ∈ team s
  ∧ row mo ∈ teamMember s
  ∧ teamId (row mo) = team_id (snap_team t)
  ∧ tasks mo = Evaluator.openTasksOf s (member_id (row mo)).
Proof.
  unfold findManyTeams. intros Ht Hm.
  apply list_elem_of_fmap in Ht as (tr & -> & Htr). simpl in *.
  apply list_elem_of_fmap in Hm as (r & -> & Hr). simpl.
  apply list_elem_of_filter in Hr as [? ?]. done.
Qed.

Lemma openTasksOf_task (s : Store) mid (r : Task) :
  r ∈ Evaluator.openTasksOf s mid ↔
  r ∈ task s ∧ assignedToId r = Some mid ∧ status r ≠ DONE.
Proof. unfold Evaluator.openTasksOf. rewrite list_elem_of_filter. tauto. Qed.

Lemma elem_of_assignmentsOf mode teams u :
  u ∈ Spec.assignmentsOf mode teams ↔
  ∃ t mv, t ∈ teams ∧ mv ∈ Spec.movesOf mode t ∧ u = Spec.assignmentOf t mv.
Proof.
  unfold Spec.assignmentsOf. rewrite list_elem_of_bind. split.
  - intros (t & Hu & Ht). apply list_elem_of_fmap in Hu as (mv & -> & Hmv). eauto.
  - intros (t & mv & Ht & Hmv & ->). exists t. split; [|done].
    by apply list_elem_of_fmap_2.
Qed.

(** An update of the sweep over a store, read back on the store: the task
    is the open task of a member over capacity, the new assignee a member
    of the same team, with another id, under capacity. *)
Lemma store_update_inv (s : Store) mode (u : string * string) :
  u ∈ Spec.assignmentsOf mode (findManyTeams s) →
  ∃ t mv om target,
    t ∈ findManyTeams s ∧ mv ∈ Spec.movesOf mode t
    ∧ members t !! Spec.mv_from mv = Some om
    ∧ members t !! Spec.mv_to mv = Some target
    ∧ u = (task_id (Spec.mv_task mv), member_id (row target))
    ∧ Spec.mv_task mv ∈ task s
    ∧ assignedToId (Spec.mv_task mv) = Some (member_id (row om))
    ∧ status (Spec.mv_task mv) ≠ DONE
    ∧ priority (Spec.mv_task mv) ≠ HIGH
    ∧ row om ∈ teamMember s ∧ row target ∈ teamMember s
    ∧ teamId (row om) = team_id (snap_team t)
    ∧ teamId (row target) = team_id (snap_team t)
    ∧ member_id (row target) ≠ member_id (row om)
    ∧ capacity (row om)
        < Evaluator.getMemberActiveTaskCount s (member_id (row om))
    ∧ Evaluator.getMemberActiveTaskCount s (member_id (row target))
        < capacity (row target).
Proof.
  intros Hu. apply elem_of_assignmentsOf in Hu as (t & mv & Ht & Hmv & ->).
  destruct (movesOf_move _ t mv Hmv)
    as (om & target & Hom & Hover & _ & Htask & Hprio & Htarget & Hunder).
  pose proof (movesOf_distinct_ids _ t mv Hmv) as Hne.
  unfold Spec.identityOf in Hne. rewrite Hom, Htarget in Hne. simpl in Hne.
  destruct (findManyTeams_member s t om Ht) as (_ & Hrow & Hteam & Htasks);
    [by eapply list_elem_of_lookup_2|].
  destruct (findManyTeams_member s t target Ht) as (_ & Hrow' & Hteam' & Htasks');
    [by eapply list_elem_of_lookup_2|].
  rewrite Htasks in Htask. apply openTasksOf_task in Htask as (? & ? & ?).
  exists t, mv, om, target. split_and!; try done.
  - unfold Spec.assignmentOf, Spec.identityOf. by rewrite Htarget.
  - unfold Evaluator.getMemberActiveTaskCount. rewrite <- Htasks. done.
  - unfold Evaluator.getMemberActiveTaskCount. rewrite <- Htasks'. done.
Qed.

Lemma updateRow_assignee us (r : Task) :
  assignedToId (updateRow us r) = assignedToId r
  ∨ ∃ mid, assignedToId (updateRow us r) = Some mid ∧ (task_id r, mid) ∈ us.
Proof.
  destruct (assignedToId (updateRow us r)) as [mid|] eqn:E.
  - apply updateRow_assigned in E as [E|E]; [by left|]. right. by exists mid.
  - left. revert r E. induction us as [|u us IH]; intros r E; [done|].
    rewrite updateRow_cons in E. apply IH in E.
    destruct (String.eqb (task_id r) u.1); [done|]. done.
Qed.

Lemma applyWrites_user (ws : list DbWrite) (s : Store) :
  user (foldl applyWrite s ws) = user s.
Proof.
  revert s. induction ws as [|w ws IH]; intros s; [done|].
  simpl. rewrite IH. by destruct w.
Qed.

(** The task updates that the sweep makes are the first of the assignments
    of the algorithm over running counts. *)
Lemma taskUpdates_sweep users userId teams :
  ∃ n, taskUpdates (run_writes (sweep users userId teams))
       = take n (Spec.assignmentsOf Spec.PerOverloadedMember teams).
Proof.
  rewrite sweep_refines. cbn [run_writes]. rewrite taskUpdates_committed.
  destruct (userExists users userId).
  - exists (List.length (Spec.assignmentsOf Spec.PerOverloadedMember teams)).
    by rewrite take_ge.
  - by exists 1%nat.
Qed.

Lemma POST_tasks (caller : option string) (s : Store) :
  ∃ n, task (Rebalancer.POST caller s).2
       = updateRow (take n (Spec.assignmentsOf Spec.PerOverloadedMember
                              (findManyTeams s))) <$> task s.
Proof.
  unfold POST. destruct (negb (Js.truthy caller)).
  { exists 0%nat. rewrite take_0. symmetry. apply (list_fmap_id (task s)). }
  cbn [snd].
  destruct (applyWrites_tables
              (run_writes (sweep (user s) (default "" caller) (findManyTeams s))) s)
    as (_ & _ & -> & _).
  destruct (taskUpdates_sweep (user s) (default "" caller) (findManyTeams s))
    as [n ->].
  by exists n.
Qed.
End StoreSweepFacts.

(** X6.  The handler leaves the users, the teams and the members as they
    are, keeps every task row in its place with its id, title, priority and
    status, and only ever sets an assignee to the id of a member of the
    store; it appends one audit entry per reassignment it reports, none
    when it answers 500, and removes none; without a caller it answers 401
    and changes nothing. *)
Theorem sweep_store_frame (caller : option string) (s : Store) :
  let s' := (Rebalancer.POST caller s).2 in
  user s' = user s
  ∧ team s' = team s
  ∧ teamMember s' = teamMember s
  ∧ List.length (task s') = List.length (task s)
  ∧ (∀ k r, task s !! k = Some r →
       ∃ r', task s' !! k = Some r'
             ∧ task_id r' = task_id r ∧ title r' = title r
             ∧ priority r' = priority r ∧ status r' = status r
             ∧ (assignedToId r' = assignedToId r
                ∨ ∃ m, m ∈ teamMember s ∧ assignedToId r' = Some (member_id m)))
  ∧ (∃ entries,
       activityLog s' = activityLog s ++ entries
       ∧ (∀ message rs, (Rebalancer.POST caller s).1 = Rebalancer.Ok200 message rs →
                        List.length entries = List.length rs)
       ∧ (∀ error, (Rebalancer.POST caller s).1 = Rebalancer.Failed500 error →
                   entries = []))
  ∧ (Js.truthy caller = false →
     Rebalancer.POST caller s = (Rebalancer.Unauthorized401, s)).
Proof.
  intros s'. subst s'. unfold Rebalancer.POST.
  destruct (Js.truthy caller) eqn:Hcaller; simpl negb; cbv iota; cbn [fst snd].
  2:{ split_and!; try done.
      - intros k r Hk. exists r. split_and!; try done. by left.
      - exists []. by rewrite app_nil_r. }
  set (out := Rebalancer.sweep (user s) (default "" caller)
                (Rebalancer.findManyTeams s)).
  rewrite applyWrites_user.
  destruct (applyWrites_tables (Rebalancer.run_writes out) s) as (-> & -> & -> & ->).
  destruct (taskUpdates_sweep (user s) (default "" caller)
              (Rebalancer.findManyTeams s)) as [n Hn].
  fold out in Hn. rewrite Hn.
  set (us := take n _).
  split_and!; try done.
  - by rewrite length_fmap.
  - intros k r Hk. exists (updateRow us r).
    rewrite list_lookup_fmap, Hk.
    destruct (updateRow_fields us r) as (? & ? & ? & ?).
    split_and!; try done.
    destruct (updateRow_assignee us r) as [E|(mid & E & Hin)]; [by left|].
    right. apply subseteq_take in Hin.
    apply store_update_inv in Hin
      as (t & mv & om & target & _ & _ & _ & _ & Hu & _ & _ & _ & _ & _ & Hrow & _).
    injection Hu as _ ->. by exists (Rebalancer.row target).
  - eexists. split; [done|]. subst out. rewrite sweep_refines.
    cbn [Rebalancer.run_thrown Rebalancer.run_writes Rebalancer.run_reassignments].
    destruct (Spec.failed _ _) eqn:Hfailed.
    + split; [done|]. intros _ _.
      destruct (Rebalancer.userExists _ _); [done|]. simpl in *.
      pose proof (writesOf_head (default "" caller) Spec.PerOverloadedMember
                    (Rebalancer.findManyTeams s)) as Hhead.
      destruct (Spec.writesOf _ _ _) as [|w ws]; [done|].
      by destruct Hhead as (u & _ & -> & _).
    + split; [|done]. intros message rs [= _ <-].
      destruct (completed_sweep _ _ _ _ Hfailed) as [-> ->].
      by rewrite writesOf_zip, omap_log_writesOfRecord, length_zip_with_l_eq
        by by rewrite length_fmap, assignmentsOf_length.
Qed.

(** X7.  In a store whose task ids are distinct, a task row that the
    handler changes was an open task, not HIGH, assigned to a member over
    capacity, and is now assigned to a member of the same team, with another
    id, that was under capacity; so tasks that are DONE, HIGH or unassigned,
    and the tasks of members within capacity, keep their rows. *)
Theorem sweep_changes_only_movable_rows (caller : option string) (s : Store)
    (k : nat) (r r' : Task) :
  NoDup (task_id <$> task s) →
  task s !! k = Some r →
  task (Rebalancer.POST caller s).2 !! k = Some r' →
  r' ≠ r →
  status r ≠ DONE ∧ priority r ≠ HIGH
  ∧ ∃ m m',
      m ∈ teamMember s ∧ m' ∈ teamMember s
      ∧ assignedToId r = Some (member_id m)
      ∧ assignedToId r' = Some (member_id m')
      ∧ teamId m' = teamId m
      ∧ member_id m' ≠ member_id m
      ∧ capacity m < Evaluator.getMemberActiveTaskCount s (member_id m)
      ∧ Evaluator.getMemberActiveTaskCount s (member_id m') < capacity m'.
Proof.
  intros Hnd Hk Hk' Hne.
  destruct (POST_tasks caller s) as [n E]. rewrite E in Hk'.
  rewrite list_lookup_fmap, Hk in Hk'. injection Hk' as <-.
  set (us := take n (Spec.assignmentsOf Spec.PerOverloadedMember
                       (Rebalancer.findManyTeams s))) in *.
  destruct (updateRow_fields us r) as (Hid & Htitle & Hprio & Hstatus).
  destruct (updateRow_assignee us r) as [Hsame|(mid & Hnew & Hin)].
  { exfalso. apply Hne. destruct (updateRow us r), r. simpl in *. congruence. }
  apply subseteq_take in Hin.
  apply store_update_inv in Hin
    as (t & mv & om & target & _ & _ & _ & _ & Hu & Htask & Hassigned & Hopen
        & Hnothigh & Hrow & Hrow' & Hteam & Hteam' & Hids & Hover & Hunder).
  injection Hu as Hu ->.
  assert (Spec.mv_task mv = r) as Hr.
  { apply (NoDup_fmap_eq task_id (task s)); [done..| |done].
    by eapply list_elem_of_lookup_2. }
  rewrite Hr in *.
  split_and!; try done.
  exists (Rebalancer.row om), (Rebalancer.row target).
  split_and!; try done. congruence.
Qed.

(** In scenario A the LOW task goes from Ada to Bob. *)
Lemma sweep_changes_only_movable_rows_witness :
  status (Scenarios.openTask "t3" LOW "m1") ≠ DONE
  ∧ priority (Scenarios.openTask "t3" LOW "m1") ≠ HIGH
  ∧ ∃ m m',
      m ∈ teamMember Scenarios.storeA ∧ m' ∈ teamMember Scenarios.storeA
      ∧ assignedToId (Scenarios.openTask "t3" LOW "m1") = Some (member_id m)
      ∧ assignedToId (Scenarios.openTask "t3" LOW "m2") = Some (member_id m')
      ∧ teamId m' = teamId m
      ∧ member_id m' ≠ member_id m
      ∧ capacity m
          < Evaluator.getMemberActiveTaskCount Scenarios.storeA (member_id m)
      ∧ Evaluator.getMemberActiveTaskCount Scenarios.storeA (member_id m')
          < capacity m'.
Proof.
  apply (sweep_changes_only_movable_rows (Some "user-1") Scenarios.storeA 2%nat).
  - apply (bool_decide_unpack _). vm_compute. exact I.
  - reflexivity.
  - vm_compute. reflexivity.
  - discriminate.
Defined.

(** ** The loads after the sweep *)

Section Counting.
Context {A : Type}.
Implicit Types (l : list A).

Lemma filter_ext_in (P Q : A → Prop) `{!∀ x, Decision (P x), !∀ x, Decision (Q x)} l :
  (∀ x, x ∈ l → P x ↔ Q x) → filter P l = filter Q l.
Proof.
  induction l as [|x l IH]; intros Hall; [done|].
  rewrite !filter_cons, IH by (intros y Hy; apply Hall; by right).
  destruct (decide (P x)) as [HP|HP], (decide (Q x)) as [HQ|HQ]; try done.
  - exfalso. apply HQ, Hall; [by left|done].
  - exfalso. apply HP, Hall; [by left|done].
Qed.

Lemma length_filter_or (P Q R : A → Prop)
    `{!∀ x, Decision (P x), !∀ x, Decision (Q x), !∀ x, Decision (R x)} l :
  (∀ x, x ∈ l → P x → Q x ∨ R x) →
  (List.length (filter P l) ≤ List.length (filter Q l) + List.length (filter R l))%nat.
Proof.
  induction l as [|x l IH]; intros Hall; [done|].
  rewrite !filter_cons.
  assert (List.length (filter P l)
          ≤ List.length (filter Q l) + List.length (filter R l))%nat as IH'
    by (apply IH; intros y Hy; apply Hall; by right).
  destruct (decide (P x)) as [HP|HP]; [|destruct (decide (Q x)), (decide (R x)); simpl; lia].
  destruct (Hall x (list_elem_of_here _ _) HP) as [HQ|HR].
  - rewrite (decide_True (P := Q x)) by done.
    destruct (decide (R x)); simpl; lia.
  - rewrite (decide_True (P := R x)) by done.
    destruct (decide (Q x)); simpl; lia.
Qed.

Lemma length_filter_impl (P Q : A → Prop)
    `{!∀ x, Decision (P x), !∀ x, Decision (Q x)} l :
  (∀ x, x ∈ l → P x → Q x) →
  (List.length (filter P l) ≤ List.length (filter Q l))%nat.
Proof.
  induction l as [|x l IH]; intros Hall; [done|].
  rewrite !filter_cons.
  assert (List.length (filter P l) ≤ List.length (filter Q l))%nat as IH'
    by (apply IH; intros y Hy; apply Hall; by right).
  destruct (decide (P x)) as [HP|HP].
  - rewrite (decide_True (P := Q x)) by (apply Hall; [by left|done]). simpl. lia.
  - destruct (decide (Q x)); simpl; lia.
Qed.

(** A list without repeated keys holds at most as many elements with keys
    in [ks] as [ks] is long. *)
Lemma length_filter_keys {K : Type} `{!EqDecision K} (key : A → K) (ks : list K) l :
  NoDup (key <$> l) →
  (List.length (filter (λ x, key x ∈ ks) l) ≤ List.length ks)%nat.
Proof.
  intros Hnd.
  rewrite <- (length_fmap key (filter _ l)).
  apply submseteq_length, NoDup_submseteq.
  - eapply sublist_NoDup; [exact Hnd|]. apply fmap_sublist, sublist_filter.
  - intros k Hk. apply list_elem_of_fmap in Hk as (x & -> & Hx).
    by apply list_elem_of_filter in Hx as [? _].
Qed.
Lemma length_filter_take (P : A → Prop) `{!∀ x, Decision (P x)} l n :
  (List.length (filter P (take n l)) ≤ List.length (filter P l))%nat.
Proof.
  apply sublist_length.
  revert n. induction l as [|x l IH]; intros n; [by rewrite take_nil|].
  destruct n as [|n]; [rewrite take_0; apply sublist_nil_l|].
  cbn [take]. rewrite !filter_cons.
  destruct (decide (P x)); [by apply sublist_skip|apply IH].
Qed.
End Counting.

Section LoadBounds.
Import Rebalancer.
Context (s : Store).
Hypothesis Htasks : NoDup (task_id <$> task s).
Hypothesis Hmembers : NoDup (member_id <$> teamMember s).
Hypothesis Hteams : NoDup (team_id <$> team s).
Context (m : TeamMember).
Hypothesis Hm : m ∈ teamMember s.

Let load : Z := Evaluator.getMemberActiveTaskCount s (member_id m).
Let mode : Spec.Recompute := Spec.PerOverloadedMember.

Lemma filter_none {A : Type} (P : A → Prop) `{!∀ x, Decision (P x)} (l : list A) :
  (∀ x, x ∈ l → ¬ P x) → filter P l = [].
Proof.
  intros Hno. destruct (filter P l) as [|x l'] eqn:E; [done|].
  assert (x ∈ filter P l) as Hx by (rewrite E; by left).
  apply list_elem_of_filter in Hx as [HP Hx]. by destruct (Hno x Hx).
Qed.

Lemma snapshot_ids_NoDup (t : TeamSnapshot) :
  t ∈ findManyTeams s → NoDup ((λ mo, member_id (row mo)) <$> members t).
Proof.
  unfold findManyTeams. intros Ht.
  apply list_elem_of_fmap in Ht as (tr & -> & _). simpl.
  rewrite <- list_fmap_compose.
  eapply sublist_NoDup; [exact Hmembers|].
  apply fmap_sublist, sublist_filter.
Qed.

Lemma snapshot_position (t : TeamSnapshot) i j a b :
  t ∈ findManyTeams s →
  members t !! i = Some a → members t !! j = Some b →
  member_id (row a) = member_id (row b) → i = j.
Proof.
  intros Ht Hi Hj E.
  apply (NoDup_lookup _ i j (member_id (row a)) (snapshot_ids_NoDup t Ht));
    rewrite list_lookup_fmap; [by rewrite Hi | by rewrite Hj, E].
Qed.

(** The member object the sweep reads for [m], when its team exists. *)
Lemma snapshot_of_member (t : TeamSnapshot) mo :
  t ∈ findManyTeams s → mo ∈ members t →
  member_id (row mo) = member_id m →
  mo = mkMember m (Evaluator.openTasksOf s (member_id m))
  ∧ teamId m = team_id (snap_team t).
Proof.
  intros Ht Hmo E.
  destruct (findManyTeams_member s t mo Ht Hmo) as (_ & Hrow & Hteam & Htasks').
  assert (row mo = m) as Hrm by by apply (NoDup_fmap_eq member_id (teamMember s)).
  destruct mo as [r ts]. simpl in *. subst r. by rewrite Htasks'.
Qed.

Lemma store_move_inv (t : TeamSnapshot) mv :
  t ∈ findManyTeams s → mv ∈ Spec.movesOf mode t →
  ∃ om target,
    members t !! Spec.mv_from mv = Some om
    ∧ members t !! Spec.mv_to mv = Some target
    ∧ Spec.assignmentOf t mv = (task_id (Spec.mv_task mv), member_id (row target))
    ∧ Spec.mv_task mv ∈ task s
    ∧ assignedToId (Spec.mv_task mv) = Some (member_id (row om)).
Proof.
  intros Ht Hmv.
  destruct (movesOf_move _ t mv Hmv)
    as (om & target & Hom & _ & _ & Htask & _ & Htarget & _).
  destruct (findManyTeams_member s t om Ht) as (_ & _ & _ & Htasks');
    [by eapply list_elem_of_lookup_2|].
  rewrite Htasks' in Htask. apply openTasksOf_task in Htask as (? & ? & ?).
  exists om, target. split_and!; try done.
  unfold Spec.assignmentOf, Spec.identityOf. by rewrite Htarget.
Qed.

(** A team the member does not belong to sends it nothing. *)
Lemma no_target_in_other_team (t : TeamSnapshot) :
  t ∈ findManyTeams s → team_id (snap_team t) ≠ teamId m →
  filter (λ u, u.2 = member_id m) (Spec.assignmentOf t <$> Spec.movesOf mode t) = [].
Proof.
  intros Ht Hne. apply filter_none. intros u Hu Huid.
  apply list_elem_of_fmap in Hu as (mv & -> & Hmv).
  destruct (store_move_inv t mv Ht Hmv) as (om & target & _ & Htarget & Hu & _).
  rewrite Hu in Huid. simpl in Huid.
  destruct (snapshot_of_member t target Ht) as [_ E]; [by eapply list_elem_of_lookup_2|done|].
  congruence.
Qed.

(** Its own team sends it no more than brings it to the larger of its load
    and its capacity. *)
Lemma targets_in_own_team (t : TeamSnapshot) :
  t ∈ findManyTeams s →
  load + Js.length (filter (λ u, u.2 = member_id m)
                      (Spec.assignmentOf t <$> Spec.movesOf mode t))
  ≤ Z.max load (capacity m).
Proof.
  intros Ht.
  destruct (decide (member_id m ∈ (λ mo, member_id (row mo)) <$> members t))
    as [Hin|Hout].
  - apply list_elem_of_fmap in Hin as (mo & Hid & Hin).
    apply list_elem_of_lookup in Hin as [j Hj]. symmetry in Hid.
    destruct (snapshot_of_member t mo Ht) as [-> _];
      [by eapply list_elem_of_lookup_2|done|].
    rewrite filter_fmap.
    rewrite (filter_ext_in _ (λ mv, Spec.mv_to mv = j)).
    + destruct (sweepTeam_moves mode (members t)) as (_ & _ & Hcount & Hbound).
      specialize (Hbound j). rewrite Hcount in Hbound.
      unfold Spec.runningCount, Spec.countOf, Spec.capOf in Hbound.
      rewrite list_lookup_fmap, Hj in Hbound. simpl in Hbound.
      unfold Spec.openTaskCount in Hbound. simpl in Hbound.
      unfold Spec.movesOf, load, Evaluator.getMemberActiveTaskCount.
      unfold Js.length in *. rewrite length_fmap. lia.
    + intros mv Hmv.
      destruct (store_move_inv t mv Ht Hmv) as (om & target & _ & Htarget & Hu & _).
      rewrite Hu. simpl. split.
      * intros E. symmetry. eapply (snapshot_position t); [done..|]. done.
      * intros <-. rewrite Hj in Htarget. by injection Htarget as <-.
  - rewrite filter_none.
    + unfold Js.length. simpl. lia.
    + intros u Hu Huid. apply Hout.
      apply list_elem_of_fmap in Hu as (mv & -> & Hmv).
      destruct (store_move_inv t mv Ht Hmv) as (om & target & _ & Htarget & Hu & _).
      rewrite Hu in Huid. simpl in Huid.
      apply list_elem_of_fmap. exists target. split; [done|].
      by eapply list_elem_of_lookup_2.
Qed.

Lemma targets_bound (ts : list TeamSnapshot) :
  NoDup ((λ t, team_id (snap_team t)) <$> ts) →
  (∀ t, t ∈ ts → t ∈ findManyTeams s) →
  load + Js.length (filter (λ u, u.2 = member_id m) (Spec.assignmentsOf mode ts))
  ≤ Z.max load (capacity m).
Proof.
  unfold Spec.assignmentsOf.
  induction ts as [|t ts IH]; intros Hnd Hall.
  { unfold Js.length. simpl. lia. }
  rewrite fmap_cons in Hnd. apply NoDup_cons in Hnd as [Hnotin Hnd].
  rewrite bind_cons, filter_app. unfold Js.length. rewrite length_app.
  destruct (decide (team_id (snap_team t) = teamId m)) as [E|E].
  - assert (filter (λ u, u.2 = member_id m)
              (ts ≫= λ t, Spec.assignmentOf t <$> Spec.movesOf mode t) = []) as ->.
    { apply filter_none. intros u Hu Huid.
      apply list_elem_of_bind in Hu as (t' & Hu & Ht').
      assert (team_id (snap_team t') ≠ teamId m) as Hne.
      { intros E'. apply Hnotin. apply list_elem_of_fmap. exists t'.
        split; [congruence|done]. }
      pose proof (no_target_in_other_team t' (Hall t' (list_elem_of_further _ _ _ Ht')) Hne)
        as Hnil.
      assert (u ∈ filter (λ u, u.2 = member_id m)
                    (Spec.assignmentOf t' <$> Spec.movesOf mode t')) as Hin
        by by apply list_elem_of_filter.
      rewrite Hnil in Hin. by apply elem_of_nil in Hin. }
    pose proof (targets_in_own_team t (Hall t (list_elem_of_here _ _))) as Hown.
    unfold Js.length in Hown. simpl. lia.
  - rewrite no_target_in_other_team by (try done; apply Hall; by left).
    simpl. apply IH; [done|]. intros t' Ht'. apply Hall. by right.
Qed.

Lemma findManyTeams_ids :
  (λ t, team_id (snap_team t)) <$> findManyTeams s = team_id <$> team s.
Proof. unfold findManyTeams. by rewrite <- list_fmap_compose. Qed.

(** The load of the member in the store that the first [n] updates
    leave. *)
Lemma load_after_upper (n : nat) :
  Js.length (filter (λ r, assignedToId r = Some (member_id m) ∧ status r ≠ DONE)
               (updateRow (take n (Spec.assignmentsOf mode (findManyTeams s)))
                  <$> task s))
  ≤ Z.max load (capacity m).
Proof.
  set (all := Spec.assignmentsOf mode (findManyTeams s)).
  set (us := take n all).
  pose proof (targets_bound (findManyTeams s)) as Hbound.
  rewrite findManyTeams_ids in Hbound. specialize (Hbound Hteams (λ t Ht, Ht)).
  fold all in Hbound.
  pose proof (length_filter_take (λ u : string * string, u.2 = member_id m) all n)
    as Hfirst.
  fold us in Hfirst.
  rewrite filter_fmap. unfold Js.length in *. rewrite length_fmap.
  pose proof (length_filter_or
    (λ r, assignedToId (updateRow us r) = Some (member_id m)
          ∧ status (updateRow us r) ≠ DONE)
    (λ r, assignedToId r = Some (member_id m) ∧ status r ≠ DONE)
    (λ r, task_id r ∈ (filter (λ u, u.2 = member_id m) us).*1)
    (task s)) as Hor.
  pose proof (length_filter_keys task_id
    (filter (λ u, u.2 = member_id m) us).*1 (task s) Htasks) as Hkeys.
  rewrite length_fmap in Hkeys.
  assert (load = Z.of_nat (List.length
            (filter (λ r, assignedToId r = Some (member_id m) ∧ status r ≠ DONE)
               (task s)))) as Hload by done.
  enough (List.length (filter (λ r, assignedToId (updateRow us r) = Some (member_id m)
                                    ∧ status (updateRow us r) ≠ DONE) (task s))
          ≤ List.length (filter (λ r, assignedToId r = Some (member_id m)
                                      ∧ status r ≠ DONE) (task s))
            + List.length (filter (λ r, task_id r
                             ∈ (filter (λ u, u.2 = member_id m) us).*1) (task s)))%nat
    by lia.
  apply Hor. intros r _ [Hassigned Hstatus].
  destruct (updateRow_fields us r) as (_ & _ & _ & Hst). rewrite Hst in Hstatus.
  apply updateRow_assigned in Hassigned as [?|Hin]; [by left|right].
  apply list_elem_of_fmap. exists (task_id r, member_id m). split; [done|].
  by apply list_elem_of_filter.
Qed.

Lemma snapshot_unique (t t' : TeamSnapshot) :
  t ∈ findManyTeams s → t' ∈ findManyTeams s → snap_team t = snap_team t' → t = t'.
Proof.
  unfold findManyTeams. intros Ht Ht' E.
  apply list_elem_of_fmap in Ht as (tr & -> & _).
  apply list_elem_of_fmap in Ht' as (tr' & -> & _).
  simpl in E. by subst tr'.
Qed.

(** The moves that take a task from the member: no more than its excess. *)
Lemma shed_bound (t : TeamSnapshot) j :
  members t !! j = Some (mkMember m (Evaluator.openTasksOf s (member_id m))) →
  Z.of_nat (List.length (filter (λ mv, Spec.mv_from mv = j) (Spec.movesOf mode t)))
  ≤ Z.max 0 (load - capacity m).
Proof.
  intros Hj. unfold Spec.movesOf, Spec.sweepTeam.
  destruct (processOverloaded_prefix mode (members t)
              (Spec.available (members t) (Spec.openTaskCount <$> members t))
              (Spec.overloaded (members t))
              (Spec.openTaskCount <$> members t) j
              (overloaded_NoDup _)) as [Hpre Hnone].
  set (shed := filter _ _) in *.
  rewrite Hj in Hpre. simpl in Hpre.
  destruct (decide (capacity m < load)) as [Hover|Hfine].
  - apply (f_equal List.length) in Hpre.
    rewrite length_fmap, length_take in Hpre.
    unfold Spec.toReassign in Hpre. rewrite length_take in Hpre.
    unfold Spec.openTaskCount in Hpre. simpl in Hpre.
    fold (Evaluator.getMemberActiveTaskCount s (member_id m)) in Hpre.
    fold load in Hpre. lia.
  - rewrite Hnone; [simpl; lia|].
    rewrite elem_of_overloaded. intros (mo & Hmo & Hgt).
    rewrite Hj in Hmo. injection Hmo as <-.
    unfold Spec.openTaskCount in Hgt. simpl in Hgt.
    fold (Evaluator.getMemberActiveTaskCount s (member_id m)) in Hgt.
    fold load in Hgt. lia.
Qed.

(** The rows of the member that the updates touch are tasks it shed. *)
Lemma touched_rows_shed :
  ∃ shed : list Task,
    Z.of_nat (List.length shed) ≤ Z.max 0 (load - capacity m)
    ∧ ∀ r, r ∈ task s →
           assignedToId r = Some (member_id m) →
           task_id r ∈ (Spec.assignmentsOf mode (findManyTeams s)).*1 →
           task_id r ∈ task_id <$> shed.
Proof.
  assert (∀ r, r ∈ task s → assignedToId r = Some (member_id m) →
               task_id r ∈ (Spec.assignmentsOf mode (findManyTeams s)).*1 →
               ∃ t mv om, t ∈ findManyTeams s ∧ mv ∈ Spec.movesOf mode t
                          ∧ members t !! Spec.mv_from mv = Some om
                          ∧ member_id (row om) = member_id m
                          ∧ Spec.mv_task mv = r) as Hsource.
  { intros r Hr Hassigned Hin.
    apply list_elem_of_fmap in Hin as (u & Hid & Hu).
    apply elem_of_assignmentsOf in Hu as (t & mv & Ht & Hmv & ->).
    destruct (store_move_inv t mv Ht Hmv) as (om & target & Hom & _ & Hu & Htask & Hfrom).
    rewrite Hu in Hid. simpl in Hid.
    assert (Spec.mv_task mv = r) as Hr'
      by by apply (NoDup_fmap_eq task_id (task s)).
    exists t, mv, om. split_and!; try done. congruence. }
  destruct (decide (teamId m ∈ team_id <$> team s)) as [Hteam|Hnoteam].
  - apply list_elem_of_fmap in Hteam as (tr & Htr & Hin).
    assert (∃ t, t ∈ findManyTeams s ∧ snap_team t = tr
                 ∧ mkMember m (Evaluator.openTasksOf s (member_id m)) ∈ members t)
      as (t & Ht & Hsnap & Hmo).
    { exists (mkTeamSnapshot tr
                ((λ m0, mkMember m0 (Evaluator.openTasksOf s (member_id m0)))
                   <$> filter (λ m0, teamId m0 = team_id tr) (teamMember s))).
      split; [|split].
      - unfold findManyTeams. apply list_elem_of_fmap. by exists tr.
      - done.
      - simpl.
        apply (list_elem_of_fmap_2
                 (λ m0, mkMember m0 (Evaluator.openTasksOf s (member_id m0))) _ m).
        apply list_elem_of_filter. done. }
    apply list_elem_of_lookup in Hmo as [j Hj].
    exists (Spec.mv_task <$> filter (λ mv, Spec.mv_from mv = j) (Spec.movesOf mode t)).
    split.
    + rewrite length_fmap. by apply shed_bound.
    + intros r Hr Hassigned Hinu.
      destruct (Hsource r Hr Hassigned Hinu) as (t' & mv & om & Ht' & Hmv & Hom & Hid & <-).
      destruct (snapshot_of_member t' om Ht') as [-> Hteam'];
        [by eapply list_elem_of_lookup_2|done|].
      assert (t' = t) as ->.
      { apply snapshot_unique; [done..|]. rewrite Hsnap.
        apply (NoDup_fmap_eq team_id (team s)); [done| |done|congruence].
        by destruct (findManyTeams_member s t' _ Ht' (list_elem_of_lookup_2 _ _ _ Hom)). }
      assert (Spec.mv_from mv = j) as Hfrom
        by by eapply (snapshot_position t).
      apply list_elem_of_fmap_2, list_elem_of_fmap_2, list_elem_of_filter. done.
  - exists []. split; [simpl; lia|].
    intros r Hr Hassigned Hinu. exfalso.
    destruct (Hsource r Hr Hassigned Hinu) as (t' & mv & om & Ht' & Hmv & Hom & Hid & _).
    destruct (snapshot_of_member t' om Ht') as [_ Hteam'];
      [by eapply list_elem_of_lookup_2|done|].
    apply Hnoteam. rewrite Hteam'. apply list_elem_of_fmap_2.
    by destruct (findManyTeams_member s t' _ Ht' (list_elem_of_lookup_2 _ _ _ Hom)).
Qed.

Lemma load_after_lower (n : nat) :
  Z.min load (capacity m)
  ≤ Js.length (filter (λ r, assignedToId r = Some (member_id m) ∧ status r ≠ DONE)
                 (updateRow (take n (Spec.assignmentsOf mode (findManyTeams s)))
                    <$> task s)).
Proof.
  set (all := Spec.assignmentsOf mode (findManyTeams s)).
  set (us := take n all).
  destruct touched_rows_shed as (shed & Hshed & Htouched). fold all in Htouched.
  rewrite filter_fmap. unfold Js.length. rewrite length_fmap.
  pose proof (length_filter_or
    (λ r, assignedToId r = Some (member_id m) ∧ status r ≠ DONE)
    (λ r, assignedToId (updateRow us r) = Some (member_id m)
          ∧ status (updateRow us r) ≠ DONE)
    (λ r, task_id r ∈ task_id <$> shed)
    (task s)) as Hor.
  pose proof (length_filter_keys task_id (task_id <$> shed) (task s) Htasks) as Hkeys.
  rewrite length_fmap in Hkeys.
  assert (load = Z.of_nat (List.length
            (filter (λ r, assignedToId r = Some (member_id m) ∧ status r ≠ DONE)
               (task s)))) as Hload by done.
  enough (List.length (filter (λ r, assignedToId r = Some (member_id m)
                                    ∧ status r ≠ DONE) (task s))
          ≤ List.length (filter (λ r, assignedToId (updateRow us r) = Some (member_id m)
                                      ∧ status (updateRow us r) ≠ DONE) (task s))
            + List.length (filter (λ r, task_id r ∈ task_id <$> shed) (task s)))%nat
    by lia.
  apply Hor. intros r Hr [Hassigned Hstatus].
  destruct (decide (task_id r ∈ us.*1)) as [Hin|Hout].
  - right. apply Htouched; [done..|].
    apply list_elem_of_fmap in Hin as (u & -> & Hu).
    apply list_elem_of_fmap_2. by apply subseteq_take in Hu.
  - left. by rewrite updateRow_untouched.
Qed.
End LoadBounds.

(** X8.  In a store whose task, member and team ids are distinct, the
    handler leaves every member with a load between the smaller and the
    larger of its load before and its capacity: a member within capacity
    stays within capacity, a member over capacity sheds no more than its
    excess and receives nothing. *)
Theorem sweep_keeps_loads_within_capacity (caller : option string) (s : Store)
    (m : TeamMember) :
  NoDup (task_id <$> task s) →
  NoDup (member_id <$> teamMember s) →
  NoDup (team_id <$> team s) →
  m ∈ teamMember s →
  let before := Evaluator.getMemberActiveTaskCount s (member_id m) in
  let after :=
    Evaluator.getMemberActiveTaskCount (Rebalancer.POST caller s).2 (member_id m) in
  Z.min before (capacity m) ≤ after ≤ Z.max before (capacity m).
Proof.
  intros Htasks Hmembers Hteams Hm before after. subst before after.
  unfold Evaluator.getMemberActiveTaskCount at 2 3, Evaluator.openTasksOf.
  destruct (POST_tasks caller s) as [n ->].
  split.
  - by apply load_after_lower.
  - by apply load_after_upper.
Qed.

(** In scenario A, Ada goes from 3 open tasks to her capacity of 2. *)
Lemma sweep_keeps_loads_within_capacity_witness :
  Z.min (Evaluator.getMemberActiveTaskCount Scenarios.storeA "m1") 2
  ≤ Evaluator.getMemberActiveTaskCount
      (Rebalancer.POST (Some "user-1") Scenarios.storeA).2 "m1"
  ≤ Z.max (Evaluator.getMemberActiveTaskCount Scenarios.storeA "m1") 2.
Proof.
  apply (sweep_keeps_loads_within_capacity (Some "user-1") Scenarios.storeA
           Scenarios.m1).
  - apply (bool_decide_unpack _). vm_compute. exact I.
  - apply (bool_decide_unpack _). vm_compute. exact I.
  - apply (bool_decide_unpack _). vm_compute. exact I.
  - by left.
Defined.

(** * Further properties of the evaluator and of the handlers that call it *)

(** X9.  Calling [validateTaskAssignment] again with [force] after a
    warning approves the assignment with the same load and capacity; a
    rejection stays a rejection, an approval stays the same approval, and
    with [force] there is never a warning. *)
Theorem validateTaskAssignment_force (s : Store) (memberId : string) :
  match Evaluator.validateTaskAssignment s memberId false with
  | Evaluator.Rejected e =>
      Evaluator.validateTaskAssignment s memberId true = Evaluator.Rejected e
  | Evaluator.Warned _ currentLoad cap =>
      ∃ m, Evaluator.findUniqueMember s memberId = Some m
           ∧ Evaluator.validateTaskAssignment s memberId true
             = Evaluator.Allowed m currentLoad cap
  | Evaluator.Allowed m currentLoad cap =>
      Evaluator.validateTaskAssignment s memberId true
      = Evaluator.Allowed m currentLoad cap
  end
  ∧ Evaluator.warning (Evaluator.validateTaskAssignment s memberId true) = false.
Proof.
  unfold Evaluator.validateTaskAssignment.
  destruct (Evaluator.findUniqueMember s memberId) as [m|] eqn:Hfind.
  - rewrite (isMemberOverCapacity_found _ _ _ Hfind). simpl.
    rewrite andb_false_r.
    destruct (_ >=? _); simpl; [|done]. split; [|done]. by exists m.
  - unfold Evaluator.isMemberOverCapacity. rewrite Hfind. done.
Qed.

Section HeadOfSort.
Context {A : Type} (key : A → Z).

Lemma head_insertBy x (l : list A) :
  head (Js.insertBy (λ a b, key a - key b) x l)
  = match head l with
    | None => Some x
    | Some h => if key x - key h <=? 0 then Some x else Some h
    end.
Proof. destruct l as [|h l]; [done|]. simpl. by destruct (_ <=? _). Qed.

(** The head of the sorted list is the first element of least key. *)
Lemma head_sort_least (l : list A) x :
  head (Js.sort (λ a b, key a - key b) l) = Some x →
  ∃ pre post, l = pre ++ x :: post
              ∧ (∀ y, y ∈ pre → key x < key y)
              ∧ (∀ y, y ∈ post → key x ≤ key y).
Proof.
  revert x. induction l as [|a l IH]; intros x Hx; [done|].
  simpl in Hx. fold (Js.sort (λ a b, key a - key b) l) in Hx.
  rewrite head_insertBy in Hx.
  destruct (head (Js.sort (λ a b, key a - key b) l)) as [h|] eqn:Hh.
  - destruct (IH h eq_refl) as (pre & post & -> & Hpre & Hpost).
    destruct (Z.leb_spec (key a - key h) 0); injection Hx as <-.
    + exists [], (pre ++ h :: post). split_and!; [done| |].
      * intros y Hy. by apply elem_of_nil in Hy.
      * intros y Hy. apply elem_of_app in Hy as [Hy|Hy].
        -- specialize (Hpre y Hy). lia.
        -- apply elem_of_cons in Hy as [->|Hy]; [lia|]. specialize (Hpost y Hy). lia.
    + exists (a :: pre), post. split_and!; [done| |done].
      intros y Hy. apply elem_of_cons in Hy as [->|Hy]; [lia|]. by apply Hpre.
  - injection Hx as <-. apply head_None in Hh.
    assert (l = []) as ->.
    { apply Permutation_nil_r. by rewrite <- Hh, sort_perm. }
    exists [], []. split_and!; [done|..]; intros y Hy; by apply elem_of_nil in Hy.
Qed.
End HeadOfSort.

(** X10.  Auto-assignment takes, among the members of the project's team
    that are under capacity, one of least current load, and the earliest
    such row on a tie; when member ids are distinct the handler then goes on
    to create the task with that member as assignee without a capacity
    warning or an error, and when no member is under capacity it creates the
    task unassigned. *)
Theorem auto_assign_picks_least_loaded (s : Store) (tid : string)
    (assignedTo : option string) (forceAssign : bool) :
  NoDup (member_id <$> teamMember s) →
  Js.truthy assignedTo = false →
  let candidates :=
    filter (λ mc, Evaluator.mc_count mc < capacity (Evaluator.mc_member mc))
           (Evaluator.findManyMembers s tid) in
  match Evaluator.findBestMemberForTask s tid with
  | Some best =>
      (∃ pre post,
         candidates = pre ++ best :: post
         ∧ (∀ y, y ∈ pre → Evaluator.mc_count best < Evaluator.mc_count y)
         ∧ (∀ y, y ∈ post → Evaluator.mc_count best ≤ Evaluator.mc_count y))
      ∧ Evaluator.mc_member best ∈ teamMember s
      ∧ teamId (Evaluator.mc_member best) = tid
      ∧ Evaluator.mc_count best
        = Evaluator.getMemberActiveTaskCount s (member_id (Evaluator.mc_member best))
      ∧ Evaluator.mc_count best < capacity (Evaluator.mc_member best)
      ∧ CreateTask.assignOnCreate s tid assignedTo true forceAssign
        = CreateTask.Created201
            (if Js.truthy (Some (member_id (Evaluator.mc_member best)))
             then Some (member_id (Evaluator.mc_member best)) else None)
  | None =>
      candidates = []
      ∧ CreateTask.assignOnCreate s tid assignedTo true forceAssign
        = CreateTask.Created201 None
  end.
Proof.
  intros Hnd Hfalsy candidates.
  assert (Evaluator.findBestMemberForTask s tid
          = head (Evaluator.getMembersWithCapacity s tid)) as Hbest.
  { unfold Evaluator.findBestMemberForTask.
    destruct (Evaluator.getMembersWithCapacity s tid) as [|x l]; [done|].
    unfold Js.length. by destruct (Z.eqb_spec (Z.of_nat (List.length (x :: l))) 0). }
  destruct (Evaluator.findBestMemberForTask s tid) as [best|] eqn:E.
  - symmetry in Hbest. unfold Evaluator.getMembersWithCapacity in Hbest.
    fold candidates in Hbest.
    destruct (head_sort_least Evaluator.mc_count candidates best Hbest)
      as (pre & post & Hsplit & Hpre & Hpost).
    assert (best ∈ candidates) as Hin.
    { rewrite Hsplit. apply elem_of_app. right. by left. }
    apply list_elem_of_filter in Hin as [Hunder Hin].
    unfold Evaluator.findManyMembers in Hin.
    apply list_elem_of_fmap in Hin as (m & -> & Hm).
    apply list_elem_of_filter in Hm as [Hteam Hm]. simpl in *.
    split_and!; try done.
    { by exists pre, post. }
    unfold CreateTask.assignOnCreate, CreateTask.finalAssignedToId.
    rewrite Hfalsy, E. simpl negb. simpl Evaluator.mc_member.
    change (true && true) with true. cbv iota. unfold Js.truthy.
    destruct (String.eqb (member_id m) "") eqn:Hempty; simpl; [done|].
    destruct forceAssign; [done|]. simpl.
    assert (Evaluator.findUniqueMember s (member_id m) = Some m) as Hfind.
    { destruct (Evaluator.findUniqueMember s (member_id m)) as [m'|] eqn:Hf.
      - apply findUniqueMember_Some in Hf as [Hm' Hsame].
        f_equal. by apply (NoDup_fmap_eq member_id (teamMember s)).
      - apply findUniqueMember_None in Hf. exfalso. apply Hf. by exists m. }
    unfold Evaluator.validateTaskAssignment.
    rewrite (isMemberOverCapacity_found _ _ _ Hfind). simpl.
    destruct (Z.geb_spec (Evaluator.getMemberActiveTaskCount s (member_id m))
                         (capacity m)); [lia|done].
  - split.
    + symmetry in Hbest. apply head_None in Hbest.
      unfold Evaluator.getMembersWithCapacity in Hbest. fold candidates in Hbest.
      apply Permutation_nil_r. by rewrite <- Hbest, sort_perm.
    + unfold CreateTask.assignOnCreate, CreateTask.finalAssignedToId.
      rewrite Hfalsy, E. simpl. by rewrite Hfalsy.
Qed.

(** In the store of scenario A, auto-assignment takes Bob, who holds no
    task. *)
Lemma auto_assign_picks_least_loaded_witness :
  CreateTask.assignOnCreate Scenarios.storeA "team-1" None true false
  = CreateTask.Created201 (Some "m2").
Proof.
  pose proof (auto_assign_picks_least_loaded Scenarios.storeA "team-1" None false) as H.
  assert (NoDup (member_id <$> teamMember Scenarios.storeA)) as Hnd.
  { apply (bool_decide_unpack _). vm_compute. exact I. }
  specialize (H Hnd eq_refl).
  change (Evaluator.findBestMemberForTask Scenarios.storeA "team-1")
    with (Some (Evaluator.mkMemberWithCount Scenarios.m2 0)) in H.
  exact (proj2 (proj2 (proj2 (proj2 (proj2 H))))).
Defined.

(** X11.  Without [forceAssign] the task creation handler goes on to create
    a task with an assignee only if that member exists and its current load
    is strictly below its capacity; it answers 409 only for an existing
    member at or over capacity and 400 only for an id that no member has.
    With [forceAssign] it validates nothing: it never answers 409 or 400 and
    keeps whatever non-empty assignee it was given, a member or not. *)
Theorem create_validates_unless_forced (s : Store) (tid : string)
    (assignedTo : option string) (autoAssign : bool) :
  match CreateTask.assignOnCreate s tid assignedTo autoAssign false with
  | CreateTask.Created201 (Some id) =>
      ∃ m, Evaluator.findUniqueMember s id = Some m
           ∧ Evaluator.getMemberActiveTaskCount s id < capacity m
  | CreateTask.Created201 None =>
      Js.truthy (CreateTask.finalAssignedToId s tid assignedTo autoAssign) = false
  | CreateTask.Conflict409 _ currentLoad cap =>
      ∃ id m, CreateTask.finalAssignedToId s tid assignedTo autoAssign = Some id
              ∧ Evaluator.findUniqueMember s id = Some m
              ∧ currentLoad = Evaluator.getMemberActiveTaskCount s id
              ∧ cap = capacity m ∧ cap ≤ currentLoad
  | CreateTask.BadRequest400 e =>
      e = "Member not found"
      ∧ ∃ id, CreateTask.finalAssignedToId s tid assignedTo autoAssign = Some id
              ∧ ¬ memberExists s id
  end
  ∧ (∀ id, Js.truthy (Some id) = true →
       CreateTask.assignOnCreate s tid (Some id) autoAssign true
       = CreateTask.Created201 (Some id)).
Proof.
  split.
  - unfold CreateTask.assignOnCreate.
    set (final := CreateTask.finalAssignedToId s tid assignedTo autoAssign).
    destruct (Js.truthy final) eqn:Htruthy; simpl; [|done].
    destruct final as [id|] eqn:Hfinal; [|done]. simpl.
    unfold Evaluator.validateTaskAssignment.
    destruct (Evaluator.findUniqueMember s id) as [m|] eqn:Hfind.
    + rewrite (isMemberOverCapacity_found _ _ _ Hfind). simpl.
      destruct (Z.geb_spec (Evaluator.getMemberActiveTaskCount s id) (capacity m));
        simpl.
      * exists id, m. split_and!; done.
      * exists m. split; [done|lia].
    + unfold Evaluator.isMemberOverCapacity. rewrite Hfind. simpl.
      split; [done|]. exists id. split; [done|]. by apply findUniqueMember_None.
  - intros id Htruthy. unfold CreateTask.assignOnCreate, CreateTask.finalAssignedToId.
    rewrite Htruthy. rewrite !andb_false_r. by rewrite Htruthy.
Qed.

(** X12.  Without [forceAssign] the task update handler sets a member as
    assignee only if that member exists and its current load is strictly
    below its capacity; clearing the assignee ([null] or the empty string)
    and leaving the field out are never validated; with [forceAssign]
    nothing is validated and the id given is kept. *)
Theorem update_validates_unless_forced (s : Store) (assignedTo : UpdateTask.Field) :
  match UpdateTask.assignmentChange s assignedTo false with
  | UpdateTask.Update (Some (Some id)) =>
      assignedTo = UpdateTask.Str id ∧ id ≠ ""
      ∧ ∃ m, Evaluator.findUniqueMember s id = Some m
             ∧ Evaluator.getMemberActiveTaskCount s id < capacity m
  | UpdateTask.Update (Some None) =>
      assignedTo = UpdateTask.Null ∨ assignedTo = UpdateTask.Str ""
  | UpdateTask.Update None => assignedTo = UpdateTask.Undefined
  | UpdateTask.Conflict409 _ currentLoad cap =>
      ∃ id m, assignedTo = UpdateTask.Str id
              ∧ Evaluator.findUniqueMember s id = Some m
              ∧ currentLoad = Evaluator.getMemberActiveTaskCount s id
              ∧ cap = capacity m ∧ cap ≤ currentLoad
  | UpdateTask.BadRequest400 e =>
      e = "Member not found"
      ∧ ∃ id, assignedTo = UpdateTask.Str id ∧ ¬ memberExists s id
  end
  ∧ UpdateTask.assignmentChange s assignedTo true
    = match assignedTo with
      | UpdateTask.Undefined => UpdateTask.Update None
      | UpdateTask.Null => UpdateTask.Update (Some None)
      | UpdateTask.Str id =>
          UpdateTask.Update (Some (if String.eqb id "" then None else Some id))
      end.
Proof.
  split.
  - destruct assignedTo as [| |id]; simpl; [done|by left|].
    destruct (String.eqb_spec id "") as [->|Hne]; [by right|]. simpl.
    unfold Evaluator.validateTaskAssignment.
    destruct (Evaluator.findUniqueMember s id) as [m|] eqn:Hfind.
    + rewrite (isMemberOverCapacity_found _ _ _ Hfind). simpl.
      destruct (Z.geb_spec (Evaluator.getMemberActiveTaskCount s id) (capacity m));
        simpl.
      * exists id, m. split_and!; done.
      * split_and!; try done. exists m. split; [done|lia].
    + unfold Evaluator.isMemberOverCapacity. rewrite Hfind. simpl.
      split; [done|]. exists id. split; [done|]. by apply findUniqueMember_None.
  - destruct assignedTo as [| |id]; simpl; try done.
    by destruct (String.eqb id "").
Qed.

(** X13.  Whenever the task update handler goes on to the update, every
    change of the assignee gets its "Task reassigned" audit entry (member
    ids being non-empty); an entry without a change is written in exactly
    one case, an unassigned task sent the empty string. *)
Theorem update_logs_every_change (s : Store) (existing : option string)
    (assignedTo : UpdateTask.Field) (forceAssign : bool)
    (update : option (option string)) :
  existing ≠ Some "" →
  UpdateTask.assignmentChange s assignedTo forceAssign = UpdateTask.Update update →
  let after := UpdateTask.assigneeAfter existing update in
  (after ≠ existing → UpdateTask.logsReassignment existing assignedTo = true)
  ∧ (UpdateTask.logsReassignment existing assignedTo = true ∧ after = existing
     ↔ existing = None ∧ assignedTo = UpdateTask.Str "").
Proof.
  intros Hnonempty Hupdate after. subst after.
  destruct assignedTo as [| |id]; simpl in Hupdate.
  - injection Hupdate as <-. simpl. split; [done|]. split; [by intros [? _]|by intros [_ ?]].
  - injection Hupdate as <-. simpl. split.
    + intros Hne. apply bool_decide_eq_true. congruence.
    + split; [|by intros [_ ?]]. intros [Hlog Heq].
      apply bool_decide_eq_true in Hlog. congruence.
  - destruct (String.eqb_spec id "") as [->|Hne].
    + injection Hupdate as <-. simpl. split.
      * intros _. by apply bool_decide_eq_true.
      * split.
        -- intros [_ <-]. done.
        -- intros [-> _]. split; [|done]. by apply bool_decide_eq_true.
    + assert (update = Some (Some id)) as ->.
      { destruct (negb forceAssign); [|by injection Hupdate as <-].
        destruct (Evaluator.validateTaskAssignment s id false); try done.
        by injection Hupdate as <-. }
      simpl. split.
      * intros Hne'. apply bool_decide_eq_true. congruence.
      * split.
        -- intros [Hlog Heq]. apply bool_decide_eq_true in Hlog. congruence.
        -- intros [_ [= ->]]. done.
Qed.

(** A task assigned to "m1" is handed to "m2", who has room: the change is
    logged. *)
Lemma update_logs_every_change_witness :
  UpdateTask.logsReassignment (Some "m1") (UpdateTask.Str "m2") = true.
Proof.
  refine (proj1 (update_logs_every_change Scenarios.storeA (Some "m1")
                   (UpdateTask.Str "m2") false (Some (Some "m2")) _ _) _).
  - discriminate.
  - vm_compute. reflexivity.
  - discriminate.
Defined.

(** * The workload figures of the pages against the sweep *)

Section DashboardFacts.
Import Rebalancer.

Lemma countAllTasks_split (s : Store) memberId :
  Dashboard.countAllTasks s memberId
  = Evaluator.getMemberActiveTaskCount s memberId
    + Js.length (filter (λ t, assignedToId t = Some memberId ∧ status t = DONE) (task s)).
Proof.
  unfold Dashboard.countAllTasks, Evaluator.getMemberActiveTaskCount,
    Evaluator.openTasksOf, Js.length.
  induction (task s) as [|t l IH]; [done|].
  rewrite !filter_cons.
  destruct (decide (assignedToId t = Some memberId)) as [E|E].
  - destruct (decide (status t = DONE)) as [D|D].
    + rewrite decide_False, decide_True by tauto. simpl. lia.
    + rewrite decide_True, decide_False by tauto. simpl. lia.
  - rewrite !decide_False by tauto. lia.
Qed.

Lemma orZero_id n : Dashboard.orZero n = n.
Proof. unfold Dashboard.orZero. by destruct (Z.eqb_spec n 0). Qed.

Lemma overloadedMembers_length (h : list Member) :
  List.length (overloadedMembers h)
  = List.length (filter (λ m, capacity (row m) < Js.length (tasks m)) h).
Proof.
  unfold overloadedMembers. induction h as [|x h IH]; [done|].
  change (List.length (x :: h)) with (S (List.length h)).
  rewrite <- cons_seq, <- fmap_S_seq, !filter_cons, filter_fmap.
  assert (List.length (filter (λ i, tasksLength (x :: h) (S i) > capacityOf (x :: h) (S i))
                         (seq 0 (List.length h)))
          = List.length (filter (λ m, capacity (row m) < Js.length (tasks m)) h)) as Htl
    by exact IH.
  change (tasksLength (x :: h) 0) with (Js.length (tasks x)).
  change (capacityOf (x :: h) 0) with (capacity (row x)).
  destruct (decide (Js.length (tasks x) > capacity (row x))),
           (decide (capacity (row x) < Js.length (tasks x)));
    simpl List.length; rewrite ?length_fmap, Htl; lia.
Qed.

Lemma getOverloadedCount_zero (teams : list (list Dashboard.MemberView)) (a : Z) :
  a ≤ foldl (λ count members,
               count + Js.length (filter (λ v, Dashboard.isOverloaded v = true) members))
            a teams
  ∧ (foldl (λ count members,
              count + Js.length (filter (λ v, Dashboard.isOverloaded v = true) members))
           a teams = a →
     ∀ members, members ∈ teams →
                filter (λ v, Dashboard.isOverloaded v = true) members = []).
Proof.
  revert a. induction teams as [|t teams IH]; intros a; simpl.
  { split; [lia|]. intros _ members Hin. by apply elem_of_nil in Hin. }
  destruct (IH (a + Js.length (filter (λ v, Dashboard.isOverloaded v = true) t)))
    as [Hle Hzero].
  assert (0 ≤ Js.length (filter (λ v, Dashboard.isOverloaded v = true) t)) as Hnn
    by (unfold Js.length; lia).
  split; [lia|]. intros Heq members Hin.
  assert (Js.length (filter (λ v, Dashboard.isOverloaded v = true) t) = 0) as Ht by lia.
  apply elem_of_cons in Hin as [->|Hin].
  - unfold Js.length in Ht. by destruct (filter _ t).
  - apply Hzero; [|done]. rewrite Ht in *. by rewrite Z.add_0_r in *.
Qed.
End DashboardFacts.

(** X14.  The member list that the dashboard and the team page read counts
    the DONE tasks of a member too: its count is the member's current load
    plus its DONE tasks, and a member is shown as overloaded exactly when
    that sum exceeds its capacity.  So every member the sweep takes as
    overloaded is shown as overloaded, a team has at least as many members
    shown overloaded as the sweep finds, and when the dashboard counts none
    over the teams it shows, the sweep finds nobody overloaded in those
    teams. *)
Theorem dashboard_counts_done_tasks (s : Store) :
  (∀ tid v, v ∈ Dashboard.membersGET s tid →
     let m := Dashboard.view_member v in
     let done := Js.length (filter (λ t, assignedToId t = Some (member_id m)
                                         ∧ status t = DONE) (task s)) in
     m ∈ teamMember s ∧ teamId m = tid
     ∧ Dashboard.count_tasks v
       = Evaluator.getMemberActiveTaskCount s (member_id m) + done
     ∧ (Dashboard.isOverloaded v = true ↔
        capacity m < Evaluator.getMemberActiveTaskCount s (member_id m) + done))
  ∧ (∀ t, t ∈ Rebalancer.findManyTeams s →
       Js.length (Rebalancer.overloadedMembers (Rebalancer.members t))
       ≤ Js.length (filter (λ v, Dashboard.isOverloaded v = true)
                      (Dashboard.membersGET s (team_id (Rebalancer.snap_team t)))))
  ∧ (∀ tids, Dashboard.getOverloadedCount (Dashboard.membersGET s <$> tids) = 0 →
       ∀ t, t ∈ Rebalancer.findManyTeams s →
            team_id (Rebalancer.snap_team t) ∈ tids →
            Rebalancer.overloadedMembers (Rebalancer.members t) = []).
Proof.
  assert (∀ tid v, v ∈ Dashboard.membersGET s tid →
     let m := Dashboard.view_member v in
     let done := Js.length (filter (λ t, assignedToId t = Some (member_id m)
                                         ∧ status t = DONE) (task s)) in
     m ∈ teamMember s ∧ teamId m = tid
     ∧ Dashboard.count_tasks v
       = Evaluator.getMemberActiveTaskCount s (member_id m) + done
     ∧ (Dashboard.isOverloaded v = true ↔
        capacity m < Evaluator.getMemberActiveTaskCount s (member_id m) + done))
    as Hview.
  { intros tid v Hv. unfold Dashboard.membersGET in Hv.
    apply list_elem_of_fmap in Hv as (m & -> & Hm).
    apply list_elem_of_filter in Hm as [Hteam Hm]. simpl.
    split_and!; try done.
    - apply countAllTasks_split.
    - unfold Dashboard.isOverloaded. simpl.
      rewrite orZero_id, countAllTasks_split, Z.gtb_gt. lia. }
  assert (∀ t, t ∈ Rebalancer.findManyTeams s →
       Js.length (Rebalancer.overloadedMembers (Rebalancer.members t))
       ≤ Js.length (filter (λ v, Dashboard.isOverloaded v = true)
                      (Dashboard.membersGET s (team_id (Rebalancer.snap_team t)))))
    as Hteam.
  { intros t Ht. unfold Js.length. rewrite overloadedMembers_length.
    unfold Rebalancer.findManyTeams in Ht.
    apply list_elem_of_fmap in Ht as (tr & -> & _). simpl.
    unfold Dashboard.membersGET. rewrite !filter_fmap, !length_fmap. simpl.
    apply Nat2Z.inj_le, length_filter_impl. intros m _ Hover.
    unfold Dashboard.isOverloaded. simpl.
    rewrite orZero_id, countAllTasks_split, Z.gtb_gt.
    unfold Evaluator.getMemberActiveTaskCount, Js.length in *. lia. }
  split_and!; [done..|].
  intros tids Hzero t Ht Htid.
  destruct (getOverloadedCount_zero (Dashboard.membersGET s <$> tids) 0) as [_ Hnil].
  specialize (Hnil Hzero (Dashboard.membersGET s (team_id (Rebalancer.snap_team t)))).
  specialize (Hteam t Ht).
  rewrite Hnil in Hteam by by apply list_elem_of_fmap_2.
  unfold Js.length in Hteam.
  destruct (Rebalancer.overloadedMembers _); [done|simpl in Hteam; lia].
Qed.
